(** * sec_downloader.py: the document extraction pipeline of [SecEdgarScraper]

    A shallow embedding of the parsing code of [src/sec_downloader.py]:
    the sub-document selection of [_download_and_parse_report], the
    narrative walk of [_extract_mda_text] and the table loop of
    [_extract_tables_to_excel], with the company lookup of [_get_cik_map]
    and [get_cik] and the list of reports of [get_filings].

    Python's [str] is a sequence of characters; a text is a [list ascii]
    here, and the length of a text is the length of the list.  Exceptions
    are values of [exn] and a computation that may raise returns a
    [result]. *)

From Stdlib Require Import Ascii String DecimalString DecimalNat.
From stdpp Require Import base list strings.

Set Warnings "-register-all".
Open Scope list_scope.

(** ** Texts *)

Definition text := list ascii.

Definition lit (s : string) : text := list_ascii_of_string s.

Definition newline : ascii := ascii_of_nat 10.

Definition ascii_eqb (a b : ascii) : bool := Ascii.eqb a b.

(** [s.startswith(p)], the test a literal pattern makes at one position. *)
Fixpoint starts_with (p s : text) : bool :=
  match p, s with
  | [], _ => true
  | _ :: _, [] => false
  | a :: p', b :: s' => ascii_eqb a b && starts_with p' s'
  end.

(** [needle in hay] on Python strings. *)
Fixpoint contains (needle hay : text) : bool :=
  starts_with needle hay ||
  match hay with
  | [] => false
  | _ :: hay' => contains needle hay'
  end.

(** [s[a:b]] for non-negative [a] and [b]: both ends are clipped to the
    length of [s], and the slice is empty when [b <= a]. *)
Definition slice (a b : nat) (s : text) : text := take (b - a) (drop a s).

(** [s.replace(old, new)] for a non-empty [old]: the occurrences are
    replaced from left to right, none overlapping the one before it;
    [skip] is the number of characters still covered by the last one. *)
Fixpoint str_replace (old new : text) (skip : nat) (s : text) : text :=
  match s with
  | [] => []
  | c :: s' =>
      match skip with
      | S k => str_replace old new k s'
      | O =>
          if starts_with old s
          then new ++ str_replace old new (length old - 1) s'
          else c :: str_replace old new 0 s'
      end
  end.

(** [str(n)] for a natural number: its decimal digits. *)
Definition decimal (n : nat) : text :=
  list_ascii_of_string (NilEmpty.string_of_uint (Nat.to_uint n)).

(** ** Exceptions *)

Inductive exn : Type :=
  | IndexError
  | ValueError
  | AttributeError
  | OSError
  | OtherError.

Inductive result (A : Type) : Type :=
  | Ok (a : A)
  | Raise (e : exn).
Arguments Ok {A} a.
Arguments Raise {A} e.

(** ** Sub-document selection ([_download_and_parse_report], lines 199-216) *)

Module Selector.

Definition doc_start_pattern : text := lit "<DOCUMENT>".
Definition doc_end_pattern : text := lit "</DOCUMENT>".
Definition type_tag : text := lit "<TYPE>".

(** [pattern.finditer(s)] for a literal, non-empty pattern: the matches from
    left to right, none overlapping the one before it, as pairs
    [(m.start(), m.end())].  [pos] is the index of the head of [s] in the
    whole text and [skip] the number of characters still covered by the
    last match. *)
Fixpoint finditer (p : text) (pos skip : nat) (s : text) : list (nat * nat) :=
  match s with
  | [] => []
  | _ :: s' =>
      match skip with
      | S k => finditer p (S pos) k s'
      | O =>
          if starts_with p s
          then (pos, pos + length p) :: finditer p (S pos) (length p - 1) s'
          else finditer p (S pos) 0 s'
      end
  end.

(** [doc_start_indices = [m.end() for m in doc_start_pattern.finditer(full_text)]] *)
Definition doc_start_indices (full_text : text) : list nat :=
  map snd (finditer doc_start_pattern 0 0 full_text).

(** [doc_end_indices = [m.start() for m in doc_end_pattern.finditer(full_text)]] *)
Definition doc_end_indices (full_text : text) : list nat :=
  map fst (finditer doc_end_pattern 0 0 full_text).

Definition not_newline (c : ascii) : bool := negb (ascii_eqb c newline).

(** The longest prefix of characters other than the line feed: what the
    greedy [[^\n]+] consumes. *)
Fixpoint take_line (s : text) : text :=
  match s with
  | [] => []
  | c :: s' => if not_newline c then c :: take_line s' else []
  end.

(** [type_pattern.search(doc_content)] with [type_pattern = <TYPE>[^\n]+]:
    the leftmost position where the tag is followed by at least one
    character other than a line feed; the result is [group(0)], the tag
    together with the rest of its line. *)
Fixpoint type_search (s : text) : option text :=
  match s with
  | [] => None
  | _ :: s' =>
      if starts_with type_tag s
      then match take_line (drop (length type_tag) s) with
           | [] => type_search s'
           | v => Some (type_tag ++ v)
           end
      else type_search s'
  end.

(** [type_match and form_type in type_match.group(0)] *)
Definition qualifies (form_type doc_content : text) : bool :=
  match type_search doc_content with
  | Some g => contains form_type g
  | None => false
  end.

(** The body of the loop for one index [i], on the running [main_doc_html]. *)
Definition select_step (full_text form_type : text) (a b : nat) (main_doc_html : text) : text :=
  let doc_content := slice a b full_text in
  if qualifies form_type doc_content && (length main_doc_html <? length doc_content)
  then doc_content
  else main_doc_html.

(** [for i in range(len(doc_start_indices))]: [starts] is what is left of
    [doc_start_indices] from index [i] on; [doc_end_indices[i]] raises
    [IndexError] past the end of the list. *)
Fixpoint select_loop (full_text form_type : text) (starts : list nat) (i : nat)
    (ends : list nat) (main_doc_html : text) : result text :=
  match starts with
  | [] => Ok main_doc_html
  | a :: starts' =>
      match ends !! i with
      | None => Raise IndexError
      | Some b =>
          select_loop full_text form_type starts' (S i) ends
            (select_step full_text form_type a b main_doc_html)
      end
  end.

Inductive selection : Type :=
  | NotFound
  | Found (main_doc_html : text).

(** [if not main_doc_html: ... return] *)
Definition select_main_document (full_text form_type : text) : result selection :=
  match select_loop full_text form_type (doc_start_indices full_text) 0
          (doc_end_indices full_text) [] with
  | Raise e => Raise e
  | Ok [] => Ok NotFound
  | Ok (c :: r) => Ok (Found (c :: r))
  end.

(** The regions of a blob: the [i]-th start marker paired with the [i]-th
    end marker. *)
Definition regions (full_text : text) : list text :=
  zip_with (fun a b => slice a b full_text)
    (doc_start_indices full_text) (doc_end_indices full_text).

(** The choice the loop makes among regions already cut out. *)
Definition pick (form_type main_doc_html doc_content : text) : text :=
  if qualifies form_type doc_content && (length main_doc_html <? length doc_content)
  then doc_content
  else main_doc_html.

(** [res] is the longest qualifying region of [rs] and the first of that
    length, or empty when none qualifies. *)
Definition best (form_type : text) (rs : list text) (res : text) : Prop :=
  (res = [] /\ forall r, r ∈ rs -> qualifies form_type r = false)
  \/ (exists i, rs !! i = Some res /\ qualifies form_type res = true
      /\ forall j r, rs !! j = Some r -> qualifies form_type r = true ->
           length r <= length res /\ (length r = length res -> i <= j)).

End Selector.

(** ** The parsed tree (BeautifulSoup objects)

    Every object of a parsed tree lives at a location, its identity: a
    Python reference to a tag or to a string is a [loc].  A [Str] is a
    [NavigableString] or one of its subclasses; [visible] says that its
    class is one of those [get_text] collects ([NavigableString] itself
    and [CData]), so that a comment, a doctype or a processing
    instruction has [visible = false].  Attributes are not modelled: the
    code never reads one. *)

Module Dom.

Definition loc := nat.

Inductive node : Type :=
  | Str (l : loc) (visible : bool) (s : text)
  | Tag (l : loc) (name : string) (contents : list node).

Definition loc_of (n : node) : loc :=
  match n with
  | Str l _ _ => l
  | Tag l _ _ => l
  end.

(** The locations of a subtree, in document order. *)
Fixpoint locs (n : node) : list loc :=
  match n with
  | Str l _ _ => [l]
  | Tag l _ cs => l :: flat_map locs cs
  end.

Definition locs_f (cs : list node) : list loc := flat_map locs cs.

Fixpoint size (n : node) : nat :=
  match n with
  | Str _ _ _ => 1
  | Tag _ _ cs => S (list_sum (map size cs))
  end.

(** A subtree and all its descendants, in document order: the order of
    [next_element]. *)
Fixpoint nodes (n : node) : list node :=
  n :: match n with
       | Str _ _ _ => []
       | Tag _ _ cs => flat_map nodes cs
       end.

(** The tags of a subtree whose name satisfies [p], itself included, in
    document order. *)
Fixpoint tags (p : string -> bool) (n : node) : list loc :=
  match n with
  | Str _ _ _ => []
  | Tag l nm cs => (if p nm then [l] else []) ++ flat_map (tags p) cs
  end.

Definition tags_f (p : string -> bool) (cs : list node) : list loc :=
  flat_map (tags p) cs.

(** [tag.find_all(p)]: the descendants of [tag], not [tag] itself. *)
Definition find_all (p : string -> bool) (n : node) : list loc :=
  match n with
  | Str _ _ _ => []
  | Tag _ _ cs => tags_f p cs
  end.

(** The strings [get_text] collects below a node, in document order. *)
Fixpoint strings (n : node) : list text :=
  match n with
  | Str _ v s => if v then [s] else []
  | Tag _ _ cs => flat_map strings cs
  end.

(** [tag.get_text()] *)
Definition get_text (n : node) : text := concat (strings n).

(** [str.isspace] on the characters of the model. *)
Definition is_space (c : ascii) : bool :=
  let n := nat_of_ascii c in
  ((9 <=? n) && (n <=? 13)) || ((28 <=? n) && (n <=? 32)) || (n =? 133) || (n =? 160).

Fixpoint lstrip (s : text) : text :=
  match s with
  | [] => []
  | c :: s' => if is_space c then lstrip s' else s
  end.

(** [s.strip()] *)
Definition strip (s : text) : text := rev (lstrip (rev (lstrip s))).

Definition nonempty (s : text) : bool :=
  match s with
  | [] => false
  | _ :: _ => true
  end.

(** [tag.get_text(strip=True)]: every string is stripped, the empty ones
    are dropped and the rest is joined without a separator. *)
Definition get_text_strip (n : node) : text :=
  concat (List.filter nonempty (map strip (strings n))).

(** The first object at location [l], searching in document order. *)
Fixpoint find_node (l : loc) (n : node) : option node :=
  if loc_of n =? l then Some n
  else match n with
       | Str _ _ _ => None
       | Tag _ _ cs =>
           (fix find_in (cs : list node) : option node :=
              match cs with
              | [] => None
              | c :: cs' =>
                  match find_node l c with
                  | Some r => Some r
                  | None => find_in cs'
                  end
              end) cs
       end.

Fixpoint find_f (l : loc) (cs : list node) : option node :=
  match cs with
  | [] => None
  | c :: cs' =>
      match find_node l c with
      | Some r => Some r
      | None => find_f l cs'
      end
  end.

(** The tree without its locations: what [str(tag)] renders. *)
Inductive markup : Type :=
  | MStr (visible : bool) (s : text)
  | MTag (name : string) (contents : list markup).

Fixpoint erase (n : node) : markup :=
  match n with
  | Str _ v s => MStr v s
  | Tag _ nm cs => MTag nm (map erase cs)
  end.

Definition erase_f (cs : list node) : list markup := map erase cs.

(** *** The store

    The objects alive during one call: a forest of trees.  The tree of
    the caller ([soup]) is one root; a copy and every detached element
    (one whose [parent] is [None]) are further roots.  [next] is the
    first location never allocated. *)

Record store : Type := mkStore { roots : list node; next : loc }.

Definition find_store (l : loc) (st : store) : option node := find_f l (roots st).

(** [copy.copy(tag)] ([Tag.__copy__]): a new object for the tag, then a
    copy of every child appended to it, in order.  The result is the
    copy and the first location left unused. *)
Fixpoint copy_node (n : node) (nx : loc) : node * loc :=
  match n with
  | Str _ v s => (Str nx v s, S nx)
  | Tag _ nm cs =>
      let '(cs', nx') :=
        (fix copy_in (cs : list node) (nx : loc) : list node * loc :=
           match cs with
           | [] => ([], nx)
           | c :: cs' =>
               let '(c1, nx1) := copy_node c nx in
               let '(cs1, nx2) := copy_in cs' nx1 in
               (c1 :: cs1, nx2)
           end) cs (S nx) in
      (Tag nx nm cs', nx')
  end.

Fixpoint copy_f (cs : list node) (nx : loc) : list node * loc :=
  match cs with
  | [] => ([], nx)
  | c :: cs' =>
      let '(c1, nx1) := copy_node c nx in
      let '(cs1, nx2) := copy_f cs' nx1 in
      (c1 :: cs1, nx2)
  end.

(** [table_copy = copy.copy(table)]: the copy has no parent, it is a new
    root of the store.  No reference of the program dangles; the model
    answers [OtherError] to one that would. *)
Definition copy (table : loc) (st : store) : result (loc * store) :=
  match find_store table st with
  | None => Raise OtherError
  | Some t =>
      let '(c, nx) := copy_node t (next st) in
      Ok (next st, mkStore (roots st ++ [c]) nx)
  end.

(** Every child at location [l] is replaced by the elements [repl], in
    the whole subtree. *)
Fixpoint subst (l : loc) (repl : list node) (n : node) : node :=
  match n with
  | Str _ _ _ => n
  | Tag l' nm cs =>
      Tag l' nm (flat_map (fun c => if loc_of c =? l then repl else [subst l repl c]) cs)
  end.

Definition subst_f (l : loc) (repl : list node) (cs : list node) : list node :=
  flat_map (fun c => if loc_of c =? l then repl else [subst l repl c]) cs.

(** [element.parent is None]: the element is a root of the store. *)
Definition is_root (l : loc) (st : store) : bool :=
  existsb (fun r => loc_of r =? l) (roots st).

Definition detached (o : option node) : list node :=
  match o with
  | Some n => [n]
  | None => []
  end.

(** [tag.replace_with(s)] for a string [s]: [ValueError] when the tag has
    no parent; otherwise the tag is extracted, keeping its subtree, and a
    new [NavigableString] takes its place in the contents of the parent. *)
Definition replace_with (l : loc) (s : text) (st : store) : result store :=
  if is_root l st then Raise ValueError
  else Ok (mkStore (map (subst l [Str (next st) true s]) (roots st)
                      ++ detached (find_store l st))
             (S (next st))).

(** [tag.get_text()] through a reference. *)
Definition get_text_at (l : loc) (st : store) : text :=
  match find_store l st with
  | Some n => get_text n
  | None => []
  end.

(** [tag.contents] *)
Definition contents (n : node) : list node :=
  match n with
  | Str _ _ _ => []
  | Tag _ _ cs => cs
  end.

Definition contents_of (o : option node) : list node :=
  match o with
  | Some n => contents n
  | None => []
  end.

(** The element [unwrap] leaves behind.  The program unwraps tags only;
    a string would merely be extracted. *)
Definition emptied (o : option node) : list node :=
  match o with
  | Some (Tag l nm _) => [Tag l nm []]
  | Some (Str l v s) => [Str l v s]
  | None => []
  end.

(** [tag.unwrap()]: [AttributeError] when the tag has no parent
    ([self.parent.index] on [None]); otherwise the tag is extracted and
    its children are inserted, in order, where it was; the tag is left
    without contents. *)
Definition unwrap (l : loc) (st : store) : result store :=
  if is_root l st then Raise AttributeError
  else Ok (mkStore (map (subst l (contents_of (find_store l st))) (roots st)
                      ++ emptied (find_store l st))
             (next st)).

End Dom.

(** ** The Markup Normalizer ([_extract_tables_to_excel], lines 136-140) *)

Module Normalizer.
Import Dom.

(** [re.compile(r'.*:.*')] searched in a tag name: the name has a colon. *)
Definition has_colon (name : string) : bool := contains (lit ":") (lit name).

(** [['div', 'span', 'p', 'font']] *)
Definition wrapper_names : list string := ["div"; "span"; "p"; "font"]%string.

Definition is_wrapper (name : string) : bool := bool_decide (name ∈ wrapper_names).

(** [tag.find_all(p)] through a reference: the list is built before the
    loop over it starts. *)
Definition find_all_at (p : string -> bool) (l : loc) (st : store) : list loc :=
  match find_store l st with
  | Some n => find_all p n
  | None => []
  end.

(** [for tag in ...: tag.replace_with(tag.get_text())] *)
Fixpoint replace_each (ls : list loc) (st : store) : result store :=
  match ls with
  | [] => Ok st
  | l :: ls' =>
      match replace_with l (get_text_at l st) st with
      | Ok st' => replace_each ls' st'
      | Raise e => Raise e
      end
  end.

(** [for tag in ...: tag.unwrap()] *)
Fixpoint unwrap_each (ls : list loc) (st : store) : result store :=
  match ls with
  | [] => Ok st
  | l :: ls' =>
      match unwrap l st with
      | Ok st' => unwrap_each ls' st'
      | Raise e => Raise e
      end
  end.

(** The two loops on [table_copy]. *)
Definition normalize (table_copy : loc) (st : store) : result store :=
  match replace_each (find_all_at has_colon table_copy st) st with
  | Raise e => Raise e
  | Ok st1 => unwrap_each (find_all_at is_wrapper table_copy st1) st1
  end.

(** [table_copy = copy.copy(table)] followed by the two loops. *)
Definition copy_and_normalize (table : loc) (st : store) : result (loc * store) :=
  match copy table st with
  | Raise e => Raise e
  | Ok (table_copy, st1) =>
      match normalize table_copy st1 with
      | Raise e => Raise e
      | Ok st2 => Ok (table_copy, st2)
      end
  end.

(** *** The normalizer in the words of the specification

    On a fragment without locations: every element whose name has a
    colon is replaced by its own text content, then every division,
    span, paragraph and font element is unwrapped in place, its children
    promoted to its parent in order.  The root of the fragment is kept. *)

Fixpoint mstrings (m : markup) : list text :=
  match m with
  | MStr v s => if v then [s] else []
  | MTag _ cs => flat_map mstrings cs
  end.

Definition mtext (m : markup) : text := concat (mstrings m).

Fixpoint replace_colon (m : markup) : markup :=
  match m with
  | MStr _ _ => m
  | MTag nm cs =>
      if has_colon nm then MStr true (mtext m) else MTag nm (map replace_colon cs)
  end.

Fixpoint unwrap_wrappers (m : markup) : list markup :=
  match m with
  | MStr _ _ => [m]
  | MTag nm cs =>
      if is_wrapper nm then flat_map unwrap_wrappers cs
      else [MTag nm (flat_map unwrap_wrappers cs)]
  end.

Definition normalize_markup (m : markup) : markup :=
  match m with
  | MStr _ _ => m
  | MTag nm cs => MTag nm (flat_map unwrap_wrappers (map replace_colon cs))
  end.

(** The tag names of a fragment that satisfy [p], in document order. *)
Fixpoint mtags (p : string -> bool) (m : markup) : list string :=
  match m with
  | MStr _ _ => []
  | MTag nm cs => (if p nm then [nm] else []) ++ flat_map (mtags p) cs
  end.

(** *** The two loops seen from the contents of [table_copy]

    One step of either loop puts a list of elements, computed from the
    element at [l], in the place of that element; nothing happens to a
    forest in which [l] does not occur. *)

Definition splice (R : node -> list node) (l : loc) (cs : list node) : list node :=
  match find_f l cs with
  | Some old => subst_f l (R old) cs
  | None => cs
  end.

Fixpoint splice_each (R : loc -> node -> list node) (ls : list loc) (nx : loc)
    (cs : list node) : list node :=
  match ls with
  | [] => cs
  | l :: ls' => splice_each R ls' (S nx) (splice (R nx) l cs)
  end.

(** What [replace_with] puts in place of [old]: a new string at [nx]. *)
Definition new_string (nx : loc) (old : node) : list node := [Str nx true (get_text old)].

(** What [unwrap] puts in place of [old]: its children. *)
Definition children (nx : loc) (old : node) : list node := contents old.

(** A forest without repeated locations, all below [nx]. *)
Definition fresh_above (nx : loc) (cs : list node) : Prop :=
  NoDup (locs_f cs) /\ forall x, x ∈ locs_f cs -> x < nx.

(** The store while the loops run on [table_copy]: the trees that were
    there before the copy, the copy and the elements detached so far. *)
Definition shape (st : store) (olds : list node) (tc : loc) (nm : string)
    (cs dets : list node) : Prop :=
  roots st = olds ++ Tag tc nm cs :: dets.

(** Every location of the store is below [next]. *)
Definition bounded (st : store) : Prop :=
  forall x, x ∈ locs_f (roots st) -> x < next st.

End Normalizer.

(** ** The narrative section ([_extract_mda_text], lines 98-124) *)

Module Narrative.
Import Dom.

(** Case folding of [re.IGNORECASE] for the letters of the two patterns,
    which are all ASCII. *)
Definition lower (c : ascii) : ascii :=
  let n := nat_of_ascii c in
  if (65 <=? n) && (n <=? 90) then ascii_of_nat (n + 32) else c.

(** A lower-case literal matched at the head of [s], ignoring case. *)
Fixpoint starts_with_ci (p s : text) : bool :=
  match p, s with
  | [], _ => true
  | _ :: _, [] => false
  | a :: p', b :: s' => ascii_eqb a (lower b) && starts_with_ci p' s'
  end.

Fixpoint contains_ci (p s : text) : bool :=
  starts_with_ci p s ||
  match s with
  | [] => false
  | _ :: s' => contains_ci p s'
  end.

(** [.{k}] followed by the second literal: [k] characters, none a line
    feed, then the literal. *)
Definition gap_then (p rest : text) (k : nat) : bool :=
  (k <=? length rest)
  && forallb Selector.not_newline (take k rest)
  && starts_with_ci p (drop k rest).

(** [management.{1,5}s discussion and analysis] matched at the head. *)
Definition mda_at (s : text) : bool :=
  starts_with_ci (lit "management") s
  && existsb (gap_then (lit "s discussion and analysis") (drop 10 s)) [5; 4; 3; 2; 1].

(** [mda_pattern.search(s)] *)
Fixpoint mda_search (s : text) : bool :=
  mda_at s ||
  match s with
  | [] => false
  | _ :: s' => mda_search s'
  end.

(** [stop_pattern.search(s)] *)
Definition stop_search (s : text) : bool :=
  contains_ci (lit "quantitative and qualitative disclosures about market risk") s
  || contains_ci (lit "financial statements and supplementary data") s.

(** A string of the tree with the tags above it, the nearest first:
    [text_node.parents]. *)
Definition text_node : Type := text * list (loc * string).

Fixpoint text_nodes (parents : list (loc * string)) (n : node) : list text_node :=
  match n with
  | Str _ _ s => [(s, parents)]
  | Tag l nm cs => flat_map (text_nodes ((l, nm) :: parents)) cs
  end.

(** [potential_headers = soup.find_all(text=mda_pattern)]: the strings of
    every class are candidates. *)
Definition potential_headers (soup : node) : list text_node :=
  List.filter (fun t => mda_search (fst t)) (text_nodes [] soup).

(** [text_node.find_parent('a')] is not [None]. *)
Definition in_link (t : text_node) : bool :=
  existsb (fun p => String.eqb (snd p) "a") (snd t).

(** [text_node.find_parent()] *)
Definition find_parent (t : text_node) : option loc :=
  match snd t with
  | [] => None
  | (l, _) :: _ => Some l
  end.

(** A text node that may start the section: it matches the pattern and
    no hyperlink element is above it. *)
Definition eligible (t : text_node) : Prop :=
  mda_search (fst t) = true /\ in_link t = false.

(** The loop of lines 105-108: the first candidate outside a link sets
    [start_tag] and ends the loop. *)
Fixpoint find_start (hs : list text_node) : option loc :=
  match hs with
  | [] => None
  | t :: hs' => if in_link t then find_start hs' else find_parent t
  end.

Definition walk_names : list string := ["p"; "div"; "h1"; "h2"; "h3"; "h4"]%string.
Definition heading_names : list string := ["h1"; "h2"; "h3"; "h4"]%string.

Definition named_in (names : list string) (n : node) : bool :=
  match n with
  | Str _ _ _ => false
  | Tag _ nm _ => bool_decide (nm ∈ names)
  end.

(** What follows the object at [l] in document order. *)
Fixpoint after (l : loc) (ns : list node) : list node :=
  match ns with
  | [] => []
  | n :: ns' => if loc_of n =? l then ns' else after l ns'
  end.

(** [start_tag.find_all_next(names)]: the tags after [start_tag] in
    document order, its own descendants included. *)
Definition find_all_next (names : list string) (start_tag : loc) (soup : node) : list node :=
  List.filter (named_in names) (after start_tag (nodes soup)).

Definition is_stop (elem : node) : bool :=
  named_in heading_names elem && stop_search (get_text_strip elem).

Definition chunk (elem : node) : text := get_text_strip elem ++ [newline; newline].

(** The loop of lines 114-117 on the running [mda_text]. *)
Fixpoint walk (elems : list node) (mda_text : text) : text :=
  match elems with
  | [] => mda_text
  | elem :: rest =>
      if is_stop elem then mda_text
      else walk rest (mda_text ++ chunk elem)
  end.

(** The elements the loop appends: those before the first stop heading. *)
Fixpoint visited (elems : list node) : list node :=
  match elems with
  | [] => []
  | elem :: rest => if is_stop elem then [] else elem :: visited rest
  end.

Inductive section : Type :=
  | NoHeader
  | EmptySection
  | Extracted (mda_text : text).

(** Lines 104-124 up to the write: what is found for a document. *)
Definition mda_section (soup : node) : section :=
  match find_start (potential_headers soup) with
  | None => NoHeader
  | Some start_tag =>
      match walk (find_all_next walk_names start_tag soup) [] with
      | [] => EmptySection
      | c :: r => Extracted (c :: r)
      end
  end.

End Narrative.

(** ** The table loop ([_extract_tables_to_excel], lines 126-170) *)

Module Tables.
Import Dom Normalizer.

(** A cell of a [DataFrame]; [None] is NaN. *)
Definition cell : Type := option text.

(** A [DataFrame]: the column labels and the rows of data.  Its shape is
    [(nrows, ncols)]. *)
Record dataframe : Type := mkDataFrame { columns : list text; data : list (list cell) }.

Definition nrows (df : dataframe) : nat := length (data df).
Definition ncols (df : dataframe) : nat := length (columns df).

Definition cell_at (row : list cell) (j : nat) : cell :=
  match row !! j with
  | Some c => c
  | None => None
  end.

Definition notna (c : cell) : bool :=
  match c with
  | Some _ => true
  | None => false
  end.

(** [df.dropna(how='all', axis=0, inplace=True)]: a row stays when one of
    its cells is not NaN. *)
Definition dropna_rows (df : dataframe) : dataframe :=
  mkDataFrame (columns df)
    (List.filter (fun row => existsb (fun j => notna (cell_at row j)) (seq 0 (ncols df)))
       (data df)).

Definition kept_columns (df : dataframe) : list nat :=
  List.filter (fun j => existsb (fun row => notna (cell_at row j)) (data df))
    (seq 0 (ncols df)).

(** [df.dropna(how='all', axis=1, inplace=True)]: a column stays when one
    of its cells is not NaN. *)
Definition dropna_columns (df : dataframe) : dataframe :=
  mkDataFrame (omap (fun j => columns df !! j) (kept_columns df))
    (map (fun row => map (cell_at row) (kept_columns df)) (data df)).

Definition trim (df : dataframe) : dataframe := dropna_columns (dropna_rows df).

(** [df.empty]: one of the two axes has length 0. *)
Definition empty (df : dataframe) : bool := (nrows df =? 0) || (ncols df =? 0).

(** [not df.empty and df.shape[0] > 1 and df.shape[1] > 0] *)
Definition valid (df : dataframe) : bool :=
  negb (empty df) && (1 <? nrows df) && (0 <? ncols df).

(** What the function prints. *)
Inductive msg : Type :=
  | MsgSkipping (form date : text)
  | MsgProcessing (form date : text)
  | MsgDownloadFailed
  | MsgNoDocument (form : text)
  | MsgNoHeader
  | MsgMdaWritten (path : text)
  | MsgMdaEmpty
  | MsgNoTables
  | MsgTableError (number : nat) (e : exn)
  | MsgTablesWritten (count : nat) (path : text)
  | MsgExcelError (e : exn)
  | MsgNoValidTables.

Definition option_list {A : Type} (o : option A) : list A :=
  match o with
  | Some a => [a]
  | None => []
  end.

(** [f'Table_{i + 1}'] *)
Definition sheet_name (i : nat) : text := lit "Table_" ++ decimal (i + 1).

(** [for i, df in enumerate(valid_dfs): df.to_excel(writer, sheet_name=...)] *)
Definition sheets (valid_dfs : list dataframe) : list (text * dataframe) :=
  imap (fun i df => (sheet_name i, df)) valid_dfs.

Section Loop.

(** [str(tag)], the rendering of a tree, and [pd.read_html(..., flavor='bs4')],
    the table parser of pandas: the two library functions the loop calls. *)
Variable render : markup -> text.
Variable read_html : text -> result (list dataframe).

(** [table_html = str(table_copy).replace('&nbsp;', ' ')] *)
Definition table_html (m : markup) : text :=
  str_replace (lit "&nbsp;") (lit " ") 0 (render m).

(** The [try] block of table number [i] (from 0): the grid appended to
    [valid_dfs], if any, and what is printed. *)
Definition parse_table (i : nat) (m : markup) : option dataframe * list msg :=
  match read_html (table_html m) with
  | Raise ValueError => (None, [])
  | Raise e => (None, [MsgTableError (i + 1) e])
  | Ok [] => (None, [])
  | Ok (df :: _) =>
      let df' := trim df in
      if valid df' then (Some df', []) else (None, [])
  end.

Record loop_state : Type :=
  mkLoop { valid_dfs : list dataframe; printed : list msg; objects : store }.

Definition markup_at (l : loc) (st : store) : markup :=
  match find_store l st with
  | Some n => erase n
  | None => MStr false []
  end.

(** One iteration of the loop of lines 133-159. *)
Definition table_iter (i : nat) (table : loc) (s : loop_state) : result loop_state :=
  match copy_and_normalize table (objects s) with
  | Raise e => Raise e
  | Ok (table_copy, st') =>
      let '(df, ms) := parse_table i (markup_at table_copy st') in
      Ok (mkLoop (valid_dfs s ++ option_list df) (printed s ++ ms) st')
  end.

(** [for i, table in enumerate(tables)], from index [i] on. *)
Fixpoint table_loop (i : nat) (tables : list loc) (s : loop_state) : result loop_state :=
  match tables with
  | [] => Ok s
  | table :: tables' =>
      match table_iter i table s with
      | Raise e => Raise e
      | Ok s' => table_loop (S i) tables' s'
      end
  end.

(** The store in which [soup] is the only tree. *)
Definition store_of (soup : node) : store :=
  mkStore [soup] (S (list_max (locs soup))).

(** [tables = soup.find_all('table')] *)
Definition find_tables (soup : node) : list loc := find_all (String.eqb "table") soup.

(** The table elements of a document, in document order. *)
Definition table_elements (soup : node) : list node :=
  omap (fun l => find_node l soup) (find_tables soup).

(** The grid of one table, from its own markup alone. *)
Definition table_grid (i : nat) (t : node) : option dataframe :=
  fst (parse_table i (normalize_markup (erase t))).

(** The grids of the tables that have one, in order; [i] is the number
    of the first table. *)
Fixpoint grids (i : nat) (ts : list node) : list dataframe :=
  match ts with
  | [] => []
  | t :: ts' => option_list (table_grid i t) ++ grids (S i) ts'
  end.

End Loop.

End Tables.

(** ** One filing ([_download_and_parse_report] and the loop of
    [get_filings], lines 95-96) *)

Module Pipeline.
Import Dom Tables.

Record report : Type := mkReport { form : text; accession_number : text; date : text }.

Inductive artifact : Type :=
  | TextFile (content : text)
  | Workbook (sheets : list (text * dataframe)).

(** The files on disk, by path, and what was printed so far. *)
Record world : Type := mkWorld { files : list (text * artifact); out : list msg }.

(** A computation that reads and changes the world and may raise. *)
Definition M (A : Type) : Type := world -> result A * world.

Definition ret {A : Type} (a : A) : M A := fun w => (Ok a, w).

Definition bind {A B : Type} (c : M A) (k : A -> M B) : M B :=
  fun w =>
    match c w with
    | (Ok a, w') => k a w'
    | (Raise e, w') => (Raise e, w')
    end.

Definition raise {A : Type} (e : exn) : M A := fun w => (Raise e, w).

(** [try: c except Exception as e: h e] *)
Definition try_except (c : M unit) (h : exn -> M unit) : M unit :=
  fun w =>
    match c w with
    | (Ok a, w') => (Ok a, w')
    | (Raise e, w') => h e w'
    end.

Definition print (m : msg) : M unit :=
  fun w => (Ok tt, mkWorld (files w) (out w ++ [m])).

Definition print_all (ms : list msg) : M unit :=
  fun w => (Ok tt, mkWorld (files w) (out w ++ ms)).

(** [os.path.exists(path)] *)
Definition path_exists (path : text) (w : world) : bool :=
  existsb (fun f => bool_decide (fst f = path)) (files w).

Notation "c1 ;; c2" := (bind c1 (fun _ => c2)) (at level 100, right associativity).

(** What one [df.to_excel(writer, sheet_name=..., index=False)] does: it
    writes the grid to a new sheet and returns, or it raises, possibly
    after the sheet was created and a part of the grid written;
    [partial] is what the sheet holds then, [None] when there is no
    sheet. *)
Inductive excel_outcome : Type :=
  | Written
  | Failed (e : exn) (partial : option dataframe).

Section Filing.

Variable render : markup -> text.
Variable read_html : text -> result (list dataframe).

(** [BeautifulSoup(main_doc_html, 'lxml')] *)
Variable parse : text -> node.

(** [requests.get(filing_url)] followed by [raise_for_status]: the text of
    the filing, or [None] for a [RequestException]. *)
Variable fetch : text -> option text.

(** Whether a file at this path can be created: [open(path, 'w')] and
    [pd.ExcelWriter(path)] raise [OSError] when it cannot. *)
Variable writable : text -> bool.

(** [df.to_excel], by the name of the sheet and the grid. *)
Variable to_excel : text -> dataframe -> excel_outcome.

(** Lines 120-121: [open(output_filename, 'w')] and [f.write(mda_text)]. *)
Definition write_text (path content : text) : M unit :=
  fun w =>
    if writable path
    then (Ok tt, mkWorld ((path, TextFile content) :: files w) (out w))
    else (Raise OSError, w).

(** The loop of lines 164-165 from sheet number [i] on: the sheets the
    workbook holds when the loop is left, and the exception that leaves
    it, if one does.  The sheets after a call that raises are never
    written. *)
Fixpoint write_sheets (i : nat) (dfs : list dataframe)
    : list (text * dataframe) * option exn :=
  match dfs with
  | [] => ([], None)
  | df :: dfs' =>
      match to_excel (sheet_name i) df with
      | Written =>
          let '(ss, e) := write_sheets (S i) dfs' in ((sheet_name i, df) :: ss, e)
      | Failed e partial => (option_list (pair (sheet_name i) <$> partial), Some e)
      end
  end.

(** Lines 163-165.  [pd.ExcelWriter(path)] raises when the file cannot
    be created.  The writer saves its workbook when the [with] block is
    left, at its end or by an exception of [to_excel], which goes on to
    the [except] of line 167: a call that raises leaves a workbook with
    the sheets written until then. *)
Definition write_workbook (path : text) (dfs : list dataframe) : M unit :=
  fun w =>
    if writable path
    then
      let '(ss, e) := write_sheets 0 dfs in
      let w' := mkWorld ((path, Workbook ss) :: files w) (out w) in
      match e with
      | None => (Ok tt, w')
      | Some e => (Raise e, w')
      end
    else (Raise OSError, w).

(** Lines 98-124.  The [with open(...)] of line 120 is in no [try]. *)
Definition _extract_mda_text (soup : node) (output_filename : text) : M unit :=
  match Narrative.mda_section soup with
  | Narrative.NoHeader => print MsgNoHeader
  | Narrative.Extracted mda_text =>
      write_text output_filename mda_text ;;
      print (MsgMdaWritten output_filename)
  | Narrative.EmptySection => print MsgMdaEmpty
  end.

(** Lines 126-170.  The copies and the two normalizing loops are outside
    the [try] of line 142, so that an exception of theirs would leave the
    function; the writing of the workbook is inside the [try] of line
    162, and the line of line 166 is printed only when the [with] block
    is left without an exception. *)
Definition _extract_tables_to_excel (soup : node) (output_filename : text) : M unit :=
  match find_tables soup with
  | [] => print MsgNoTables
  | tables =>
      match table_loop render read_html 0 tables (mkLoop [] [] (store_of soup)) with
      | Raise e => raise e
      | Ok s =>
          print_all (printed s) ;;
          match valid_dfs s with
          | [] => print MsgNoValidTables
          | dfs =>
              try_except
                (write_workbook output_filename dfs ;;
                 print (MsgTablesWritten (length dfs) output_filename))
                (fun e => print (MsgExcelError e))
          end
      end
  end.

Definition base_filename (save_path company : text) (r : report) : text :=
  save_path ++ lit "/" ++ company ++ lit "_" ++ form r ++ lit "_" ++ date r.

Definition mda_filename (save_path company : text) (r : report) : text :=
  base_filename save_path company r ++ lit "_MDA.txt".

Definition tables_filename (save_path company : text) (r : report) : text :=
  base_filename save_path company r ++ lit "_Tables.xlsx".

Definition filing_url (cik : text) (r : report) : text :=
  lit "https://www.sec.gov/Archives/edgar/data/" ++ cik ++ lit "/"
  ++ str_replace (lit "-") [] 0 (accession_number r) ++ lit "/"
  ++ accession_number r ++ lit ".txt".

(** Lines 172-221. *)
Definition _download_and_parse_report (cik : text) (r : report) (save_path company : text) : M unit :=
  fun w =>
    if path_exists (mda_filename save_path company r) w
       && path_exists (tables_filename save_path company r) w
    then print (MsgSkipping (form r) (date r)) w
    else
      (print (MsgProcessing (form r) (date r)) ;;
       match fetch (filing_url cik r) with
       | None => print MsgDownloadFailed
       | Some full_text =>
           match Selector.select_main_document full_text (form r) with
           | Raise e => raise e
           | Ok Selector.NotFound => print (MsgNoDocument (form r))
           | Ok (Selector.Found main_doc_html) =>
               let soup := parse main_doc_html in
               _extract_mda_text soup (mda_filename save_path company r) ;;
               _extract_tables_to_excel soup (tables_filename save_path company r)
           end
       end) w.

(** [for report in reports_to_download: self._download_and_parse_report(...)] *)
Fixpoint process_reports (cik : text) (reports : list report) (save_path company : text) : M unit :=
  match reports with
  | [] => ret tt
  | r :: reports' =>
      _download_and_parse_report cik r save_path company ;;
      process_reports cik reports' save_path company
  end.

End Filing.

End Pipeline.

(** ** Company lookup ([_get_cik_map], lines 29-40, and [get_cik], lines 42-59) *)

Module Lookup.

(** One value of the map: [{'cik': ..., 'title': ...}]. *)
Record company : Type := mkCompany { cik : text; title : text }.

(** A [dict] from upper-cased titles to companies: the items in
    insertion order, no key twice. *)
Definition cik_map : Type := list (text * company).

(** [d[k] = v]: a key already there keeps its place and takes the new
    value; a new key goes to the end. *)
Fixpoint dict_set (k : text) (v : company) (d : cik_map) : cik_map :=
  match d with
  | [] => [(k, v)]
  | (k', v') :: d' =>
      if bool_decide (k' = k) then (k, v) :: d' else (k', v') :: dict_set k v d'
  end.

(** [d.get(k)] *)
Fixpoint dict_get (k : text) (d : cik_map) : option company :=
  match d with
  | [] => None
  | (k', v') :: d' => if bool_decide (k' = k) then Some v' else dict_get k d'
  end.

(** One value of [company_tickers.json]: [cik_str] is a number there. *)
Record ticker : Type := mkTicker { cik_str : nat; ticker_title : text }.

(** What [get_cik] prints. *)
Inductive lookup_msg : Type :=
  | MsgFoundMatch (title cik : text)
  | MsgMultiple (company_name : text) (titles : list text)
  | MsgNoCompany (company_name : text).

(** [{'cik': str(company['cik_str']), 'title': company['title']}] *)
Definition entry_of (c : ticker) : company :=
  mkCompany (decimal (cik_str c)) (ticker_title c).

Section Upper.

(** [str.upper], a library function. *)
Variable upper : text -> text.

(** The dict comprehension of line 35, over the companies in order. *)
Definition build_cik_map (all_companies : list ticker) : cik_map :=
  fold_left (fun d c => dict_set (upper (ticker_title c)) (entry_of c) d)
    all_companies [].

(** Lines 29-40: [None] stands for a response that could not be had or
    read, whatever the exception. *)
Definition _get_cik_map (response : option (list ticker)) : option cik_map :=
  match response with
  | Some all_companies => Some (build_cik_map all_companies)
  | None => None
  end.

(** [[data for name, data in self.cik_map.items() if search_term in name]] *)
Definition matches (search_term : text) (d : cik_map) : list company :=
  map snd (List.filter (fun e => contains search_term (fst e)) d).

(** Lines 42-59: the pair returned, [None] for [(None, None)], and what
    is printed.  An empty map is as good as none ([if not self.cik_map]). *)
Definition get_cik (m : option cik_map) (company_name : text)
    : option (text * text) * list lookup_msg :=
  match m with
  | None => (None, [])
  | Some [] => (None, [])
  | Some d =>
      match matches (upper company_name) d with
      | [found_company] =>
          (Some (title found_company, cik found_company),
           [MsgFoundMatch (title found_company) (cik found_company)])
      | [] => (None, [MsgNoCompany company_name])
      | ms => (None, [MsgMultiple company_name (map title (take 10 ms))])
      end
  end.

End Upper.

End Lookup.

(** ** The list of filings ([get_filings], lines 61-96) *)

Module Filings.
Import Pipeline.

(** [['10-K', '10-Q']] *)
Definition wanted_forms : list text := [lit "10-K"; lit "10-Q"].

(** [filings_data.get('filings', {}).get('recent', {})]: three parallel
    lists; a key may be missing. *)
Record recent : Type :=
  mkRecent { forms : option (list text);
             accessionNumber : option (list text);
             filingDate : option (list text) }.

Inductive lookup_error : Type :=
  | KeyError (key : string)
  | ListIndexError.

(** The loop of lines 81-87 from index [i] on: [recent['accessionNumber'][i]]
    is evaluated before [recent['filingDate'][i]], and only for a wanted
    form. *)
Fixpoint reports_from (i : nat) (fs : list text) (r : recent) : lookup_error + list report :=
  match fs with
  | [] => inr []
  | f :: fs' =>
      if bool_decide (f ∈ wanted_forms)
      then
        match accessionNumber r with
        | None => inl (KeyError "accessionNumber")
        | Some accs =>
            match accs !! i with
            | None => inl ListIndexError
            | Some acc =>
                match filingDate r with
                | None => inl (KeyError "filingDate")
                | Some dates =>
                    match dates !! i with
                    | None => inl ListIndexError
                    | Some d =>
                        match reports_from (S i) fs' r with
                        | inl e => inl e
                        | inr rs => inr (mkReport f acc d :: rs)
                        end
                    end
                end
            end
        end
      else reports_from (S i) fs' r
  end.

(** [reports_to_download] after the loop; [recent_filings.get('form', [])]. *)
Definition reports_to_download (r : recent) : lookup_error + list report :=
  reports_from 0 (match forms r with Some fs => fs | None => [] end) r.

(** The characters of the class of line 74: the backslash, the slash,
    the star, the question mark, the colon, the angle brackets, the bar
    and the double quote. *)
Definition removed_chars : text := lit "\/*?:<>|" ++ [ascii_of_nat 34].

(** Line 74: [re.sub] removes every character of the class, then
    [replace] turns every space into an underscore. *)
Definition safe_company_name (company_name : text) : text :=
  str_replace (lit " ") (lit "_") 0
    (List.filter (fun c => negb (bool_decide (c ∈ removed_chars))) company_name).

Definition is_sign (c : ascii) : bool :=
  ascii_eqb c (ascii_of_nat 43) || ascii_eqb c (ascii_of_nat 45).

(** [s.zfill(width)]: zeros on the left up to [width], after a leading
    sign if there is one. *)
Definition zfill (width : nat) (s : text) : text :=
  if width <=? length s then s
  else match s with
       | c :: rest =>
           if is_sign c
           then c :: repeat (ascii_of_nat 48) (width - length s) ++ rest
           else repeat (ascii_of_nat 48) (width - length s) ++ s
       | [] => repeat (ascii_of_nat 48) width
       end.

(** [padded_cik = cik.zfill(10)] *)
Definition padded_cik (cik : text) : text := zfill 10 cik.

(** [f"{BASE_URL}/submissions/CIK{padded_cik}.json"] *)
Definition submissions_url (cik : text) : text :=
  lit "https://data.sec.gov/submissions/CIK" ++ padded_cik cik ++ lit ".json".

End Filings.

(** ** What a run leaves behind *)

Module Artifacts.
Import Tables Pipeline.




Section Writer.

Variable to_excel : text -> dataframe -> excel_outcome.



End Writer.


Section Filing.

Variable fetch : text -> option text.
Variable writable : text -> bool.

(** Why the processing of one filing can end with exception [e]: the
    markers of its submission text (line 208), or the file of its
    narrative (line 120). *)
Definition stops_at (cik : text) (r : report) (save_path company : text) (e : exn) : Prop :=
  (e = IndexError
   /\ exists full_text,
        fetch (filing_url cik r) = Some full_text
        /\ length (Selector.doc_end_indices full_text)
           < length (Selector.doc_start_indices full_text))
  \/ (e = OSError /\ writable (mda_filename save_path company r) = false).

End Filing.

End Artifacts.

(** * Properties *)

(** ** Sub-document selection *)

Module SelectorFacts.
Import Selector.

Section Pick.

Variables full_text form_type : text.

Lemma qualifies_nonempty (doc_content : text) :
  qualifies form_type doc_content = true -> 0 < length doc_content.
Proof.
  destruct doc_content as [|c r]; [discriminate|simpl; lia].
Qed.

(** With an end marker for every start marker the loop is a left fold of
    [pick] over the paired regions. *)
Lemma select_loop_fold (starts ends : list nat) (i : nat) (main : text) :
  length starts + i <= length ends ->
  select_loop full_text form_type starts i ends main =
  Ok (fold_left (pick form_type) (zip_with (fun a b => slice a b full_text) starts (drop i ends)) main).
Proof.
  revert i main. induction starts as [|a starts IH]; intros i main Hlen; simpl in *.
  - reflexivity.
  - destruct (ends !! i) as [b|] eqn:Hb.
    + rewrite (drop_S _ _ _ Hb). simpl. rewrite IH by lia. reflexivity.
    + apply lookup_ge_None in Hb. lia.
Qed.

(** Without one the loop ends in [IndexError], whatever it found before. *)
Lemma select_loop_raises (starts ends : list nat) (i : nat) (main : text) :
  i <= length ends < length starts + i ->
  select_loop full_text form_type starts i ends main = Raise IndexError.
Proof.
  revert i main. induction starts as [|a starts IH]; intros i main Hlen; simpl in *.
  - exfalso. lia.
  - destruct (ends !! i) as [b|] eqn:Hb; [|reflexivity].
    apply lookup_lt_Some in Hb. apply IH. lia.
Qed.

Lemma fold_pick_best (rs : list text) : best form_type rs (fold_left (pick form_type) rs []).
Proof.
  induction rs as [|r rs IH] using rev_ind.
  - left. split; [reflexivity|]. intros r Hr. inversion Hr.
  - rewrite fold_left_app. simpl. set (res := fold_left (pick form_type) rs []) in *.
    unfold pick at 1.
    destruct (qualifies form_type r) eqn:Hq; simpl.
    + destruct (Nat.ltb_spec (length res) (length r)) as [Hlt|Hge].
      * right. exists (length rs). split; [|split]; [|assumption|].
        { rewrite lookup_app_r by lia. rewrite Nat.sub_diag. reflexivity. }
        intros j r' Hj Hq'.
        destruct (decide (j < length rs)) as [Hin|Hout].
        { rewrite lookup_app_l in Hj by assumption.
          destruct IH as [[Hnil Hno]|[i [Hi [Hqi Hmax]]]].
          - rewrite Hno in Hq'; [discriminate|]. eapply list_elem_of_lookup_2, Hj.
          - destruct (Hmax j r' Hj Hq') as [Hle _]. lia. }
        { rewrite lookup_app_r in Hj by lia.
          destruct (j - length rs) as [|k] eqn:Hk; simpl in Hj; [|discriminate].
          injection Hj as <-. lia. }
      * destruct IH as [[Hnil Hno]|[i [Hi [Hqi Hmax]]]].
        { apply qualifies_nonempty in Hq. rewrite Hnil in Hge. simpl in Hge. lia. }
        right. exists i. split; [|split]; [|assumption|].
        { rewrite lookup_app_l; [assumption|]. eapply lookup_lt_Some, Hi. }
        intros j r' Hj Hq'.
        destruct (decide (j < length rs)) as [Hin|Hout].
        { rewrite lookup_app_l in Hj by assumption. apply (Hmax j r' Hj Hq'). }
        { rewrite lookup_app_r in Hj by lia.
          destruct (j - length rs) as [|k] eqn:Hk; simpl in Hj; [|discriminate].
          injection Hj as <-. apply lookup_lt_Some in Hi. lia. }
    + destruct IH as [[Hnil Hno]|[i [Hi [Hqi Hmax]]]].
      * left. split; [assumption|]. intros r' Hr'.
        apply elem_of_app in Hr' as [Hr'|Hr']; [auto|].
        apply list_elem_of_singleton in Hr'. subst r'. assumption.
      * right. exists i. split; [|split]; [|assumption|].
        { rewrite lookup_app_l; [assumption|]. eapply lookup_lt_Some, Hi. }
        intros j r' Hj Hq'.
        destruct (decide (j < length rs)) as [Hin|Hout].
        { rewrite lookup_app_l in Hj by assumption. apply (Hmax j r' Hj Hq'). }
        { rewrite lookup_app_r in Hj by lia.
          destruct (j - length rs) as [|k] eqn:Hk; simpl in Hj; [|discriminate].
          injection Hj as <-. congruence. }
Qed.

End Pick.

(** A blob with more start markers than end markers ends the selection in
    [IndexError]. *)
Lemma select_raises_on_surplus_start (full_text form_type : text) :
  length (doc_end_indices full_text) < length (doc_start_indices full_text) ->
  select_main_document full_text form_type = Raise IndexError.
Proof.
  intros Hlen. unfold select_main_document.
  rewrite select_loop_raises by lia. reflexivity.
Qed.

(** With an end marker for every start marker the selection is as the
    specification says: it returns either "not found", and then no
    region qualifies, or a region whose type declaration line contains
    the form type; no qualifying region is longer than the returned one,
    and among the qualifying regions of that length it is the first. *)
Lemma select_main_document_longest (full_text form_type : text) :
  length (doc_start_indices full_text) <= length (doc_end_indices full_text) ->
  (select_main_document full_text form_type = Ok NotFound
   /\ forall r, r ∈ regions full_text -> qualifies form_type r = false)
  \/ (exists i r,
        select_main_document full_text form_type = Ok (Found r)
        /\ regions full_text !! i = Some r
        /\ qualifies form_type r = true
        /\ forall j r', regions full_text !! j = Some r' ->
             qualifies form_type r' = true ->
             length r' <= length r /\ (length r' = length r -> i <= j)).
Proof.
  intros Hlen. unfold select_main_document.
  rewrite select_loop_fold by lia. rewrite drop_0. fold (regions full_text).
  destruct (fold_pick_best form_type (regions full_text)) as [[Hnil Hno]|[i [Hi [Hq Hmax]]]].
  - left. rewrite Hnil. split; [reflexivity|assumption].
  - right. exists i.
    destruct (fold_left (pick form_type) (regions full_text) []) as [|c r] eqn:Hres.
    + discriminate Hq.
    + exists (c :: r). split; [reflexivity|]. split; [exact Hi|]. split; [exact Hq|].
      intros j r' Hj Hq'. apply (Hmax j r' Hj Hq').
Qed.

(** The [i]-th region is cut between the [i]-th start marker and the
    [i]-th end marker. *)
Lemma regions_lookup (full_text : text) (i a b : nat) :
  doc_start_indices full_text !! i = Some a ->
  doc_end_indices full_text !! i = Some b ->
  regions full_text !! i = Some (slice a b full_text).
Proof.
  intros Ha Hb. unfold regions. rewrite lookup_zip_with, Ha, Hb. reflexivity.
Qed.

(** The scenario of the specification, in small: of two regions declared
    10-K and 10-K/A the longer one is returned. *)
Example select_longer_region :
  select_main_document
    (lit "<DOCUMENT><TYPE>10-K</DOCUMENT><DOCUMENT><TYPE>10-K/A amended</DOCUMENT>") (lit "10-K")
  = Ok (Found (lit "<TYPE>10-K/A amended")).
Proof. vm_compute. reflexivity. Qed.

(** Of two qualifying regions of the same length the first is returned. *)
Example select_first_of_equal_length :
  select_main_document
    (lit "<DOCUMENT><TYPE>10-K a</DOCUMENT><DOCUMENT><TYPE>10-K b</DOCUMENT>") (lit "10-K")
  = Ok (Found (lit "<TYPE>10-K a")).
Proof. vm_compute. reflexivity. Qed.

(** No region of the requested type: "not found". *)
Example select_not_found :
  select_main_document (lit "<DOCUMENT><TYPE>EX-99</DOCUMENT>") (lit "10-K") = Ok NotFound.
Proof. vm_compute. reflexivity. Qed.

(** C1.  The selection is not defined on every blob: on a blob cut off
    after a start marker the loop reads [doc_end_indices] past its end
    and the selection raises [IndexError]; it returns neither "not
    found" nor a region. *)
Theorem select_main_document_not_total :
  length (doc_start_indices (lit "<DOCUMENT><TYPE>10-K")) = 1
  /\ length (doc_end_indices (lit "<DOCUMENT><TYPE>10-K")) = 0
  /\ select_main_document (lit "<DOCUMENT><TYPE>10-K") (lit "10-K") = Raise IndexError
  /\ ~ (exists s, select_main_document (lit "<DOCUMENT><TYPE>10-K") (lit "10-K") = Ok s).
Proof.
  split; [vm_compute; reflexivity|]. split; [vm_compute; reflexivity|].
  split; [vm_compute; reflexivity|].
  intros [s Hs]. vm_compute in Hs. discriminate Hs.
Qed.

(** With more end markers than start markers nothing is raised: the
    [i]-th start marker is paired with the [i]-th end marker, the end
    markers left over are ignored, and the result is the longest
    qualifying region of these pairs, or "not found" when none
    qualifies. *)
Lemma surplus_end_markers_ignored (full_text form_type : text) :
  length (doc_start_indices full_text) < length (doc_end_indices full_text) ->
  length (regions full_text) = length (doc_start_indices full_text)
  /\ (forall i a b,
        doc_start_indices full_text !! i = Some a ->
        doc_end_indices full_text !! i = Some b ->
        regions full_text !! i = Some (slice a b full_text))
  /\ ((select_main_document full_text form_type = Ok NotFound
       /\ forall r, r ∈ regions full_text -> qualifies form_type r = false)
      \/ (exists i r,
            select_main_document full_text form_type = Ok (Found r)
            /\ regions full_text !! i = Some r
            /\ qualifies form_type r = true
            /\ forall j r', regions full_text !! j = Some r' ->
                 qualifies form_type r' = true ->
                 length r' <= length r /\ (length r' = length r -> i <= j))).
Proof.
  intros Hlen. split; [|split].
  - unfold regions. rewrite length_zip_with. lia.
  - intros i a b. apply regions_lookup.
  - apply select_main_document_longest. lia.
Qed.

(** C2.  Blobs whose marker counts differ are not reported as "not
    found".  With one start marker and no end marker the selection
    raises [IndexError].  With one start marker and two end markers the
    first end marker closes the region and the region is returned; with
    an end marker before the only start marker the pair is misaligned,
    the region between the start marker and its own end marker is never
    looked at. *)
Theorem mismatched_markers_not_reported :
  select_main_document (lit "<DOCUMENT>") (lit "10-K") = Raise IndexError
  /\ (length (doc_start_indices (lit "<DOCUMENT><TYPE>10-K</DOCUMENT></DOCUMENT>")) = 1
      /\ length (doc_end_indices (lit "<DOCUMENT><TYPE>10-K</DOCUMENT></DOCUMENT>")) = 2
      /\ select_main_document (lit "<DOCUMENT><TYPE>10-K</DOCUMENT></DOCUMENT>") (lit "10-K")
         = Ok (Found (lit "<TYPE>10-K")))
  /\ (regions (lit "</DOCUMENT><DOCUMENT><TYPE>10-K</DOCUMENT>") = [[]]
      /\ select_main_document (lit "</DOCUMENT><DOCUMENT><TYPE>10-K</DOCUMENT>") (lit "10-K")
         = Ok NotFound).
Proof.
  repeat split; vm_compute; reflexivity.
Qed.

End SelectorFacts.

(** ** The validity filter of the table loop *)

Module TablesFacts.
Import Dom Normalizer Tables.

Lemma valid_shape (df : dataframe) :
  valid df = true <-> 1 < nrows df /\ 0 < ncols df.
Proof.
  unfold valid, empty.
  destruct (Nat.eqb_spec (nrows df) 0) as [Hr|Hr];
    destruct (Nat.eqb_spec (ncols df) 0) as [Hc|Hc];
    destruct (Nat.ltb_spec 1 (nrows df)) as [Hr1|Hr1];
    destruct (Nat.ltb_spec 0 (ncols df)) as [Hc1|Hc1];
    simpl; split; try discriminate; try lia; intros _; reflexivity.
Qed.

Section Loop.

Variable render : markup -> text.
Variable read_html : text -> result (list dataframe).

(** A grid leaves the [try] block only through the validity test. *)
Lemma parse_table_valid (i : nat) (m : markup) (df : dataframe) :
  fst (parse_table render read_html i m) = Some df -> valid df = true.
Proof.
  unfold parse_table.
  destruct (read_html (table_html render m)) as [[|df0 rest]|e]; simpl.
  - discriminate.
  - destruct (valid (trim df0)) eqn:Hv; simpl; [|discriminate].
    intros H. injection H as <-. assumption.
  - destruct e; discriminate.
Qed.

Lemma table_iter_valid (i : nat) (table : loc) (s s' : loop_state) :
  table_iter render read_html i table s = Ok s' ->
  forall df, df ∈ valid_dfs s' -> df ∈ valid_dfs s \/ valid df = true.
Proof.
  unfold table_iter. intros Hiter df Hdf.
  destruct (copy_and_normalize table (objects s)) as [[tc st']|e]; [|discriminate].
  destruct (parse_table render read_html i (markup_at tc st')) as [odf ms] eqn:Hp.
  injection Hiter as <-. simpl in Hdf.
  apply elem_of_app in Hdf as [Hdf|Hdf]; [left; assumption|right].
  destruct odf as [df'|]; simpl in Hdf; [|inversion Hdf].
  apply list_elem_of_singleton in Hdf. subst df'.
  apply (parse_table_valid i (markup_at tc st')). rewrite Hp. reflexivity.
Qed.

Lemma table_loop_valid (tables : list loc) (i : nat) (s s' : loop_state) :
  table_loop render read_html i tables s = Ok s' ->
  forall df, df ∈ valid_dfs s' -> df ∈ valid_dfs s \/ valid df = true.
Proof.
  revert i s. induction tables as [|t tables IH]; intros i s Hloop df Hdf; simpl in Hloop.
  - injection Hloop as <-. left. assumption.
  - destruct (table_iter render read_html i t s) as [s1|e] eqn:Hiter; [|discriminate].
    destruct (IH _ _ Hloop df Hdf) as [Hin|Hv]; [|right; assumption].
    apply (table_iter_valid _ _ _ _ Hiter df Hin).
Qed.

End Loop.

(** The scenario of the specification: one row and one column without a
    value around a block of 3 rows and 2 columns. *)
Example trim_keeps_data_block :
  let v := fun s : string => Some (lit s) in
  trim (mkDataFrame [lit "a"; lit "b"; lit "c"]
          [[v "1"; None; v "2"]; [None; None; None]; [v "3"; None; v "4"]; [v "5"; None; v "6"]])
  = mkDataFrame [lit "a"; lit "c"] [[v "1"; v "2"]; [v "3"; v "4"]; [v "5"; v "6"]].
Proof. vm_compute. reflexivity. Qed.

(** A grid with a single row is not kept; neither is one without rows. *)
Example single_row_not_valid :
  valid (trim (mkDataFrame [lit "a"] [[Some (lit "1")]])) = false
  /\ valid (trim (mkDataFrame [lit "a"] [[None]; [None]])) = false.
Proof. split; vm_compute; reflexivity. Qed.

(** C7.  After the rows and the columns without a value are dropped, a
    grid passes the test of the loop, and is appended to the kept grids,
    exactly when it has more than one row and at least one column; every
    grid the loop emits for a document has at least 2 rows and at least
    1 column. *)
Theorem kept_iff_more_than_one_row
    (render : markup -> text) (read_html : text -> result (list dataframe)) :
  (forall df, valid (trim df) = true <-> 1 < nrows (trim df) /\ 0 < ncols (trim df))
  /\ (forall i m df rest,
        read_html (table_html render m) = Ok (df :: rest) ->
        (fst (parse_table render read_html i m) = Some (trim df)
         <-> 1 < nrows (trim df) /\ 0 < ncols (trim df))
        /\ (fst (parse_table render read_html i m) = None
            <-> ~ (1 < nrows (trim df) /\ 0 < ncols (trim df))))
  /\ (forall soup s,
        table_loop render read_html 0 (find_tables soup) (mkLoop [] [] (store_of soup)) = Ok s ->
        forall df, df ∈ valid_dfs s -> 2 <= nrows df /\ 1 <= ncols df).
Proof.
  split; [|split].
  - intros df. apply valid_shape.
  - intros i m df rest Hread. unfold parse_table. rewrite Hread.
    rewrite <- valid_shape. destruct (valid (trim df)); simpl.
    + split; split; [reflexivity|reflexivity|discriminate|]. intros H. exfalso. apply H. reflexivity.
    + split; split; [discriminate|discriminate|discriminate|reflexivity].
  - intros soup s Hloop df Hdf.
    destruct (table_loop_valid render read_html _ _ _ _ Hloop df Hdf) as [Hin|Hv].
    + simpl in Hin. inversion Hin.
    + apply valid_shape in Hv. lia.
Qed.

Lemma kept_iff_more_than_one_row_witness :
  let df := mkDataFrame [lit "Year"; lit "Empty"]
              [[Some (lit "2023"); None]; [None; None]; [Some (lit "2024"); None]] in
  let soup := Tag 0 "[document]" [Tag 1 "table" []] in
  let render := fun _ : markup => lit "<table></table>" in
  let read_html := fun _ : text => Ok [df] in
  exists s,
    table_loop render read_html 0 (find_tables soup) (mkLoop [] [] (store_of soup)) = Ok s
    /\ trim df ∈ valid_dfs s
    /\ 2 <= nrows (trim df) /\ 1 <= ncols (trim df).
Proof.
  intros df soup render read_html.
  assert (Hres : exists st,
             table_loop render read_html 0 (find_tables soup) (mkLoop [] [] (store_of soup))
             = Ok (mkLoop [trim df] [] st))
    by (eexists; vm_compute; reflexivity).
  destruct Hres as [st Hres].
  exists (mkLoop [trim df] [] st). split; [exact Hres|]. split; [left|].
  apply (proj2 (proj2 (kept_iff_more_than_one_row render read_html)) soup _ Hres). left.
Defined.

End TablesFacts.

(** ** Trees and forests *)

Module DomFacts.
Import Dom.

(** Induction on a tree together with the list of its children. *)
Lemma node_list_ind (P : node -> Prop) (Q : list node -> Prop) :
  (forall l v s, P (Str l v s)) ->
  (forall l nm cs, Q cs -> P (Tag l nm cs)) ->
  Q [] ->
  (forall c cs, P c -> Q cs -> Q (c :: cs)) ->
  forall n, P n.
Proof.
  intros Hstr Htag Hnil Hcons.
  fix IH 1. intros [l v s|l nm cs].
  - apply Hstr.
  - apply Htag. induction cs as [|c cs IHcs].
    + exact Hnil.
    + apply Hcons; [apply IH|exact IHcs].
Qed.

(** Induction on a forest: the first tree is a string, or a tag whose
    children form a smaller forest. *)
Lemma forest_ind (P : list node -> Prop) :
  P [] ->
  (forall l v s cs, P cs -> P (Str l v s :: cs)) ->
  (forall l nm cs0 cs, P cs0 -> P cs -> P (Tag l nm cs0 :: cs)) ->
  forall cs, P cs.
Proof.
  intros Hnil Hstr Htag cs.
  assert (Hnode : forall n, forall cs, P cs -> P (n :: cs)).
  { intros n. apply (node_list_ind (fun n => forall cs, P cs -> P (n :: cs)) P).
    - intros l v s cs'. apply Hstr.
    - intros l nm cs0 Hcs0 cs'. apply Htag. exact Hcs0.
    - exact Hnil.
    - intros c cs' Hc Hcs'. apply Hc. exact Hcs'. }
  induction cs as [|c cs IH]; [exact Hnil|apply Hnode, IH].
Qed.

(** The strings of a descendant are a segment of the strings of its
    ancestor. *)
Lemma strings_segment_f (cs : list node) (d : node) :
  d ∈ flat_map nodes cs ->
  exists x y, flat_map strings cs = x ++ strings d ++ y.
Proof.
  revert d. induction cs as [|l v s cs IH|l nm cs0 cs IH0 IH] using forest_ind; intros d Hd.
  - inversion Hd.
  - simpl in Hd. apply elem_of_cons in Hd as [->|Hd].
    + exists [], (flat_map strings cs). reflexivity.
    + destruct (IH d Hd) as [x [y Hxy]].
      exists ((if v then [s] else []) ++ x), y. simpl. rewrite Hxy, <- app_assoc. reflexivity.
  - simpl in Hd. apply elem_of_cons in Hd as [->|Hd].
    + exists [], (flat_map strings cs). reflexivity.
    + apply elem_of_app in Hd as [Hd|Hd].
      * destruct (IH0 d Hd) as [x [y Hxy]].
        exists x, (y ++ flat_map strings cs). simpl. rewrite Hxy, <- !app_assoc. reflexivity.
      * destruct (IH d Hd) as [x [y Hxy]].
        exists (flat_map strings cs0 ++ x), y. simpl. rewrite Hxy, <- !app_assoc. reflexivity.
Qed.

Lemma get_text_strip_segment (nm : string) (l : loc) (cs : list node) (d : node) :
  d ∈ flat_map nodes cs ->
  exists x y, get_text_strip (Tag l nm cs) = x ++ get_text_strip d ++ y.
Proof.
  intros Hd. destruct (strings_segment_f cs d Hd) as [x [y Hxy]].
  unfold get_text_strip. simpl. rewrite Hxy.
  rewrite !map_app, !List.filter_app, !concat_app. eauto.
Qed.

End DomFacts.

(** ** The narrative section *)

Module NarrativeFacts.
Import Dom Narrative Tables Pipeline.

Lemma find_start_first (pre post : list text_node) (t : text_node) :
  eligible t ->
  (forall u, u ∈ pre -> ~ eligible u) ->
  find_start (List.filter (fun u => mda_search (fst u)) (pre ++ t :: post)) = find_parent t.
Proof.
  intros [Hm Hl] Hpre. induction pre as [|u pre IH]; simpl.
  - rewrite Hm. simpl. rewrite Hl. reflexivity.
  - assert (Hu : ~ eligible u) by (apply Hpre; left).
    assert (IH' : forall v, v ∈ pre -> ~ eligible v) by (intros v Hv; apply Hpre; right; exact Hv).
    destruct (mda_search (fst u)) eqn:Hmu; simpl; [|apply IH, IH'].
    destruct (in_link u) eqn:Hlu; [apply IH, IH'|].
    exfalso. apply Hu. split; assumption.
Qed.

Lemma find_start_none (ts : list text_node) :
  (forall u, u ∈ ts -> ~ eligible u) ->
  find_start (List.filter (fun u => mda_search (fst u)) ts) = None.
Proof.
  intros Hts. induction ts as [|u ts IH]; simpl; [reflexivity|].
  assert (Hu : ~ eligible u) by (apply Hts; left).
  assert (IH' : forall v, v ∈ ts -> ~ eligible v) by (intros v Hv; apply Hts; right; exact Hv).
  destruct (mda_search (fst u)) eqn:Hmu; simpl; [|apply IH, IH'].
  destruct (in_link u) eqn:Hlu; [apply IH, IH'|].
  exfalso. apply Hu. split; assumption.
Qed.

(** Below a tag every text node has a parent. *)
Lemma text_nodes_parent (cs : list node) (ps : list (loc * string)) (t : text_node) :
  ps <> [] -> t ∈ flat_map (text_nodes ps) cs -> snd t <> [].
Proof.
  revert ps t.
  induction cs as [|l v s cs IH|l nm cs0 cs IH0 IH] using DomFacts.forest_ind;
    intros ps t Hps Ht; simpl in Ht.
  - inversion Ht.
  - apply elem_of_cons in Ht as [->|Ht]; [exact Hps|apply (IH ps t Hps Ht)].
  - apply elem_of_app in Ht as [Ht|Ht].
    + apply (IH0 ((l, nm) :: ps) t); [discriminate|exact Ht].
    + apply (IH ps t Hps Ht).
Qed.

(** The loop appends the chunks of the elements before the first stop
    heading, in order. *)
Lemma walk_visited (elems : list node) (mda_text : text) :
  walk elems mda_text = mda_text ++ concat (map chunk (visited elems)).
Proof.
  revert mda_text. induction elems as [|e elems IH]; intros mda_text; simpl.
  - rewrite app_nil_r. reflexivity.
  - destruct (is_stop e); simpl.
    + rewrite app_nil_r. reflexivity.
    + rewrite IH, <- app_assoc. reflexivity.
Qed.

Lemma visited_stop (pre post : list node) (h : node) :
  (forall e, e ∈ pre -> is_stop e = false) -> is_stop h = true ->
  visited (pre ++ h :: post) = pre.
Proof.
  intros Hpre Hh. induction pre as [|e pre IH]; simpl.
  - rewrite Hh. reflexivity.
  - rewrite (Hpre e) by left. rewrite IH; [reflexivity|].
    intros e' He'. apply Hpre. right. exact He'.
Qed.

Lemma visited_no_stop (elems : list node) :
  (forall e, e ∈ elems -> is_stop e = false) -> visited elems = elems.
Proof.
  intros Hall. induction elems as [|e elems IH]; simpl; [reflexivity|].
  rewrite (Hall e) by left. rewrite IH; [reflexivity|].
  intros e' He'. apply Hall. right. exact He'.
Qed.

(** Two positions of a list, the first before the second. *)
Lemma lookup_two {A : Type} (l : list A) (i j : nat) (a d : A) :
  l !! i = Some a -> l !! j = Some d -> i < j ->
  exists l1 l2 l3, l = l1 ++ a :: l2 ++ d :: l3.
Proof.
  intros Hi Hj Hlt.
  exists (take i l), (take (j - S i) (drop (S i) l)), (drop (S (j - S i)) (drop (S i) l)).
  assert (Hd : drop (S i) l !! (j - S i) = Some d).
  { rewrite lookup_drop. replace (S i + (j - S i)) with j by lia. exact Hj. }
  rewrite (take_drop_middle _ _ _ Hd). rewrite (take_drop_middle _ _ _ Hi). reflexivity.
Qed.

Lemma size_descendant_f (cs : list node) (d : node) :
  d ∈ flat_map nodes cs -> size d <= list_sum (map size cs).
Proof.
  revert d. induction cs as [|l v s cs IH|l nm cs0 cs IH0 IH] using DomFacts.forest_ind;
    intros d Hd; simpl in Hd.
  - inversion Hd.
  - apply elem_of_cons in Hd as [->|Hd]; simpl; [lia|].
    specialize (IH d Hd). lia.
  - apply elem_of_cons in Hd as [->|Hd]; simpl; [lia|].
    apply elem_of_app in Hd as [Hd|Hd].
    + specialize (IH0 d Hd). lia.
    + specialize (IH d Hd). lia.
Qed.

Lemma concat_chunks_two (l1 l2 l3 : list node) (a d : node) :
  concat (map chunk (l1 ++ a :: l2 ++ d :: l3)) =
  concat (map chunk l1) ++ chunk a ++ concat (map chunk l2) ++ chunk d ++ concat (map chunk l3).
Proof.
  rewrite map_app, concat_app. simpl. rewrite map_app, concat_app. simpl.
  repeat rewrite <- app_assoc. reflexivity.
Qed.

(** The scenario of the specification: a heading, three paragraphs and
    the heading of the next item. *)
Example mda_three_paragraphs :
  mda_section
    (Tag 0 "[document]"
       [Tag 1 "h2" [Str 2 true (lit "Item 7. Management's Discussion and Analysis of Financial Condition")];
        Tag 3 "p" [Str 4 true (lit "One.")];
        Tag 5 "p" [Str 6 true (lit " Two. ")];
        Tag 7 "p" [Str 8 true (lit "Three.")];
        Tag 9 "h2" [Str 10 true (lit "Item 7A. Quantitative and Qualitative Disclosures About Market Risk")];
        Tag 11 "p" [Str 12 true (lit "Four.")]])
  = Extracted (lit "One." ++ [newline; newline] ++ lit "Two." ++ [newline; newline]
              ++ lit "Three." ++ [newline; newline]).
Proof. vm_compute. reflexivity. Qed.

(** A heading found only inside a link starts nothing. *)
Example mda_only_in_link :
  mda_section
    (Tag 0 "[document]"
       [Tag 1 "p" [Tag 2 "a" [Str 3 true (lit "Management's Discussion and Analysis")]];
        Tag 4 "p" [Str 5 true (lit "One.")]])
  = NoHeader.
Proof. vm_compute. reflexivity. Qed.

(** C5.  The start anchor is the parent element of the first text node,
    in document order, that matches the pattern and has no hyperlink
    element above it: the candidates before it, all inside a link or not
    matching, are passed over.  When no text node is eligible nothing is
    extracted: the function prints that no header was found, writes no
    file and returns normally. *)
Theorem start_anchor_first_eligible (soup : node) (writable : text -> bool) :
  (forall pre t post,
      text_nodes [] soup = pre ++ t :: post ->
      eligible t ->
      (forall u, u ∈ pre -> ~ eligible u) ->
      find_start (potential_headers soup) = find_parent t
      /\ (forall l nm cs, soup = Tag l nm cs -> exists p, find_parent t = Some p))
  /\ ((forall u, u ∈ text_nodes [] soup -> ~ eligible u) ->
      find_start (potential_headers soup) = None
      /\ mda_section soup = NoHeader
      /\ forall path w,
           _extract_mda_text writable soup path w
           = (Ok tt, mkWorld (files w) (out w ++ [MsgNoHeader]))).
Proof.
  split.
  - intros pre t post Hts Ht Hpre. split.
    + unfold potential_headers. rewrite Hts. apply find_start_first; assumption.
    + intros l nm cs ->. simpl in Hts.
      assert (Hin : t ∈ flat_map (text_nodes [(l, nm)]) cs).
      { rewrite Hts. apply elem_of_app. right. left. }
      apply text_nodes_parent in Hin; [|discriminate].
      unfold find_parent. destruct (snd t) as [|[p nm'] ps]; [congruence|eauto].
  - intros Hnone.
    assert (Hstart : find_start (potential_headers soup) = None)
      by (apply find_start_none; exact Hnone).
    assert (Hsec : mda_section soup = NoHeader)
      by (unfold mda_section; rewrite Hstart; reflexivity).
    split; [exact Hstart|]. split; [exact Hsec|].
    intros path w. unfold _extract_mda_text. rewrite Hsec. reflexivity.
Qed.

(** C6 (as amended).  The walk over the elements that follow the start
    anchor halts strictly before the first heading-level element whose
    text matches the stop pattern: the output is made of the chunks of
    the elements before it, in walk order, and neither that heading nor
    any element after it is appended; without such a heading every
    element up to the end of the document is appended. *)
Theorem walk_halts_before_stop (soup : node) (start_tag : loc) :
  let elems := find_all_next walk_names start_tag soup in
  (forall pre h post,
      elems = pre ++ h :: post ->
      named_in heading_names h = true ->
      stop_search (get_text_strip h) = true ->
      (forall e, e ∈ pre -> is_stop e = false) ->
      walk elems [] = concat (map chunk pre))
  /\ ((forall e, e ∈ elems -> is_stop e = false) ->
      walk elems [] = concat (map chunk elems)).
Proof.
  intros elems. split.
  - intros pre h post Helems Hname Hstop Hpre.
    rewrite walk_visited, Helems, visited_stop; [reflexivity|exact Hpre|].
    unfold is_stop. rewrite Hname, Hstop. reflexivity.
  - intros Hall. rewrite walk_visited, visited_no_stop; [reflexivity|exact Hall].
Qed.

(** C6 as stated fails: a container that starts after the anchor and
    encloses the stop heading is appended before the heading is reached,
    with the text of the heading and of the paragraph after it. *)
Lemma stop_heading_text_in_output :
  let heading := Tag 4 "h2" [Str 5 true (lit "Financial Statements and Supplementary Data")] in
  let soup :=
    Tag 0 "[document]"
      [Tag 1 "p" [Str 2 true (lit "Management's Discussion and Analysis")];
       Tag 3 "div" [heading; Tag 6 "p" [Str 7 true (lit "after")]]] in
  find_start (potential_headers soup) = Some 1
  /\ find_all_next walk_names 1 soup = [Tag 3 "div" [heading; Tag 6 "p" [Str 7 true (lit "after")]]; heading; Tag 6 "p" [Str 7 true (lit "after")]]
  /\ is_stop heading = true
  /\ walk (find_all_next walk_names 1 soup) []
     = lit "Financial Statements and Supplementary Dataafter" ++ [newline; newline]
  /\ contains (get_text_strip heading) (walk (find_all_next walk_names 1 soup) []) = true
  /\ contains (lit "after") (walk (find_all_next walk_names 1 soup) []) = true.
Proof.
  repeat split; vm_compute; reflexivity.
Qed.

(** C10.  When a visited element has another visited element below it,
    the text of the descendant is a segment of the text of the ancestor,
    and the output holds the text of the ancestor with its two line
    feeds and the text of the descendant with its two line feeds at two
    different places: the text of the descendant is in the output twice,
    once inside the text of the ancestor and once on its own. *)
Theorem nested_visited_text_twice
    (soup : node) (start_tag : loc) (i j : nat)
    (l : loc) (nm : string) (cs : list node) (d : node) :
  let elems := find_all_next walk_names start_tag soup in
  visited elems !! i = Some (Tag l nm cs) ->
  visited elems !! j = Some d ->
  d ∈ flat_map nodes cs ->
  exists x y p q r,
    get_text_strip (Tag l nm cs) = x ++ get_text_strip d ++ y
    /\ (walk elems [] = p ++ chunk (Tag l nm cs) ++ q ++ chunk d ++ r
        \/ walk elems [] = p ++ chunk d ++ q ++ chunk (Tag l nm cs) ++ r)
    /\ (walk elems []
        = p ++ (x ++ get_text_strip d ++ y) ++ [newline; newline]
            ++ q ++ get_text_strip d ++ [newline; newline] ++ r
        \/ walk elems []
           = p ++ get_text_strip d ++ [newline; newline]
               ++ q ++ (x ++ get_text_strip d ++ y) ++ [newline; newline] ++ r).
Proof.
  intros elems Hi Hj Hd.
  destruct (DomFacts.get_text_strip_segment nm l cs d Hd) as [x [y Hxy]].
  exists x, y.
  assert (Hne : i <> j).
  { intros ->. rewrite Hi in Hj. injection Hj as <-.
    apply size_descendant_f in Hd. simpl in Hd. lia. }
  assert (Hchunks : forall p q r,
            (walk elems [] = p ++ chunk (Tag l nm cs) ++ q ++ chunk d ++ r
             -> walk elems []
                = p ++ (x ++ get_text_strip d ++ y) ++ [newline; newline]
                    ++ q ++ get_text_strip d ++ [newline; newline] ++ r)
            /\ (walk elems [] = p ++ chunk d ++ q ++ chunk (Tag l nm cs) ++ r
                -> walk elems []
                   = p ++ get_text_strip d ++ [newline; newline]
                       ++ q ++ (x ++ get_text_strip d ++ y) ++ [newline; newline] ++ r)).
  { intros p q r. unfold chunk. rewrite Hxy. split; intros ->.
    - rewrite <- !app_assoc. reflexivity.
    - rewrite <- !app_assoc. reflexivity. }
  assert (Hwalk : walk elems [] = concat (map chunk (visited elems)))
    by (rewrite walk_visited; reflexivity).
  destruct (decide (i < j)) as [Hlt|Hge].
  - destruct (lookup_two _ _ _ _ _ Hi Hj Hlt) as [l1 [l2 [l3 Hl]]].
    exists (concat (map chunk l1)), (concat (map chunk l2)), (concat (map chunk l3)).
    assert (H : walk elems [] = concat (map chunk l1) ++ chunk (Tag l nm cs)
                                 ++ concat (map chunk l2) ++ chunk d ++ concat (map chunk l3))
      by (rewrite Hwalk, Hl; apply concat_chunks_two).
    split; [exact Hxy|]. split; [left; exact H|left]. apply Hchunks, H.
  - assert (Hlt : j < i) by lia.
    destruct (lookup_two _ _ _ _ _ Hj Hi Hlt) as [l1 [l2 [l3 Hl]]].
    exists (concat (map chunk l1)), (concat (map chunk l2)), (concat (map chunk l3)).
    assert (H : walk elems [] = concat (map chunk l1) ++ chunk d
                                 ++ concat (map chunk l2) ++ chunk (Tag l nm cs)
                                 ++ concat (map chunk l3))
      by (rewrite Hwalk, Hl; apply concat_chunks_two).
    split; [exact Hxy|]. split; [right; exact H|right]. apply Hchunks, H.
Qed.

Lemma start_anchor_first_eligible_witness :
  let linked := (lit "Management's Discussion and Analysis", [(1, "a"%string); (0, "[document]"%string)]) in
  let plain := (lit "Management's Discussion and Analysis", [(3, "p"%string); (0, "[document]"%string)]) in
  let soup :=
    Tag 0 "[document]"
      [Tag 1 "a" [Str 2 true (lit "Management's Discussion and Analysis")];
       Tag 3 "p" [Str 4 true (lit "Management's Discussion and Analysis")]] in
  text_nodes [] soup = [linked] ++ plain :: []
  /\ eligible plain
  /\ find_start (potential_headers soup) = Some 3.
Proof.
  intros linked plain soup.
  assert (Hts : text_nodes [] soup = [linked] ++ plain :: []) by reflexivity.
  assert (Hel : eligible plain) by (split; vm_compute; reflexivity).
  assert (Hpre : forall u, u ∈ [linked] -> ~ eligible u).
  { intros u Hu [_ Hl]. apply list_elem_of_singleton in Hu. subst u.
    vm_compute in Hl. discriminate Hl. }
  split; [exact Hts|]. split; [exact Hel|].
  destruct (proj1 (start_anchor_first_eligible soup (fun _ => true)) [linked] plain [] Hts Hel Hpre)
    as [Hstart _].
  rewrite Hstart. reflexivity.
Defined.

Lemma walk_halts_before_stop_witness :
  let para := Tag 3 "p" [Str 4 true (lit "Revenue grew.")] in
  let heading := Tag 5 "h2" [Str 6 true (lit "Item 7A. Quantitative and Qualitative Disclosures About Market Risk")] in
  let later := Tag 7 "p" [Str 8 true (lit "Rates.")] in
  let soup :=
    Tag 0 "[document]"
      [Tag 1 "h2" [Str 2 true (lit "Item 7. Management's Discussion and Analysis")];
       para; heading; later] in
  find_all_next walk_names 1 soup = [para] ++ heading :: [later]
  /\ is_stop heading = true
  /\ walk (find_all_next walk_names 1 soup) [] = lit "Revenue grew." ++ [newline; newline].
Proof.
  intros para heading later soup.
  assert (Helems : find_all_next walk_names 1 soup = [para] ++ heading :: [later])
    by (vm_compute; reflexivity).
  assert (Hname : named_in heading_names heading = true) by (vm_compute; reflexivity).
  assert (Hstop : stop_search (get_text_strip heading) = true) by (vm_compute; reflexivity).
  assert (Hpre : forall e, e ∈ [para] -> is_stop e = false).
  { intros e He. apply list_elem_of_singleton in He. subst e. vm_compute. reflexivity. }
  split; [exact Helems|]. split; [vm_compute; reflexivity|].
  rewrite (proj1 (walk_halts_before_stop soup 1) [para] heading [later] Helems Hname Hstop Hpre).
  vm_compute. reflexivity.
Defined.

Lemma nested_visited_text_twice_witness :
  let inner := Tag 4 "p" [Str 5 true (lit "Revenue grew.")] in
  let outer := Tag 3 "div" [inner] in
  let soup :=
    Tag 0 "[document]"
      [Tag 1 "p" [Str 2 true (lit "Management's Discussion and Analysis")]; outer] in
  visited (find_all_next walk_names 1 soup) = [outer; inner]
  /\ get_text_strip inner = lit "Revenue grew."
  /\ walk (find_all_next walk_names 1 soup) []
     = lit "Revenue grew." ++ [newline; newline] ++ lit "Revenue grew." ++ [newline; newline]
  /\ exists x y p q r,
       get_text_strip outer = x ++ get_text_strip inner ++ y
       /\ (walk (find_all_next walk_names 1 soup) []
           = p ++ chunk outer ++ q ++ chunk inner ++ r
           \/ walk (find_all_next walk_names 1 soup) []
              = p ++ chunk inner ++ q ++ chunk outer ++ r)
       /\ (walk (find_all_next walk_names 1 soup) []
           = p ++ (x ++ get_text_strip inner ++ y) ++ [newline; newline]
               ++ q ++ get_text_strip inner ++ [newline; newline] ++ r
           \/ walk (find_all_next walk_names 1 soup) []
              = p ++ get_text_strip inner ++ [newline; newline]
                  ++ q ++ (x ++ get_text_strip inner ++ y) ++ [newline; newline] ++ r).
Proof.
  intros inner outer soup.
  assert (Hv : visited (find_all_next walk_names 1 soup) = [outer; inner])
    by (vm_compute; reflexivity).
  split; [exact Hv|]. split; [vm_compute; reflexivity|]. split; [vm_compute; reflexivity|].
  apply (nested_visited_text_twice soup 1 0 1 3 "div" [inner] inner).
  - rewrite Hv. reflexivity.
  - rewrite Hv. reflexivity.
  - simpl. left.
Defined.

End NarrativeFacts.

(** ** The Markup Normalizer *)

Module NormalizerFacts.
Import Dom Normalizer DomFacts.

(** *** Unfolding the nested recursions *)

Lemma find_node_tag (l l' : loc) (nm : string) (cs : list node) :
  find_node l (Tag l' nm cs) = if l' =? l then Some (Tag l' nm cs) else find_f l cs.
Proof.
  simpl. destruct (l' =? l); [reflexivity|].
  induction cs as [|c cs IH]; [reflexivity|].
  simpl. destruct (find_node l c); [reflexivity|exact IH].
Qed.

Lemma find_f_cons (l : loc) (c : node) (cs : list node) :
  find_f l (c :: cs) =
  match find_node l c with
  | Some r => Some r
  | None => find_f l cs
  end.
Proof. reflexivity. Qed.

Lemma copy_node_tag (l : loc) (nm : string) (cs : list node) (nx : loc) :
  copy_node (Tag l nm cs) nx =
  let '(cs', nx') := copy_f cs (S nx) in (Tag nx nm cs', nx').
Proof. reflexivity. Qed.

Lemma subst_tag (l l' : loc) (repl : list node) (nm : string) (cs : list node) :
  subst l repl (Tag l' nm cs) = Tag l' nm (subst_f l repl cs).
Proof. reflexivity. Qed.

Lemma subst_f_cons (l : loc) (repl : list node) (c : node) (cs : list node) :
  subst_f l repl (c :: cs) =
  (if loc_of c =? l then repl else [subst l repl c]) ++ subst_f l repl cs.
Proof. reflexivity. Qed.

Lemma subst_f_app (l : loc) (repl : list node) (xs ys : list node) :
  subst_f l repl (xs ++ ys) = subst_f l repl xs ++ subst_f l repl ys.
Proof. unfold subst_f. apply flat_map_app. Qed.

Lemma locs_f_app (xs ys : list node) : locs_f (xs ++ ys) = locs_f xs ++ locs_f ys.
Proof. unfold locs_f. apply flat_map_app. Qed.

Lemma locs_f_cons (c : node) (cs : list node) : locs_f (c :: cs) = locs c ++ locs_f cs.
Proof. reflexivity. Qed.

Lemma loc_of_in_locs (n : node) : loc_of n ∈ locs n.
Proof. destruct n; left. Qed.

Lemma loc_of_subst (l : loc) (repl : list node) (n : node) : loc_of (subst l repl n) = loc_of n.
Proof. destruct n; reflexivity. Qed.

(** *** Looking an element up *)

Lemma find_f_None (cs : list node) (l : loc) :
  find_f l cs = None <-> l ∉ locs_f cs.
Proof.
  induction cs as [|l' v s cs IH|l' nm cs0 cs IH0 IH] using forest_ind.
  - split; [intros _ H; inversion H|reflexivity].
  - simpl. destruct (Nat.eqb_spec l' l) as [->|Hne].
    + split; [discriminate|]. intros H. exfalso. apply H. left.
    + rewrite IH. rewrite not_elem_of_cons. intuition congruence.
  - rewrite locs_f_cons. rewrite find_f_cons, find_node_tag.
    destruct (Nat.eqb_spec l' l) as [->|Hne].
    + split; [discriminate|]. intros H. exfalso. apply H. left.
    + simpl. fold (locs_f cs0). rewrite not_elem_of_cons, not_elem_of_app.
      destruct (find_f l cs0) eqn:Hf0.
      * split; [discriminate|]. intros [_ [H _]]. apply IH0 in H. discriminate.
      * rewrite IH. assert (l ∉ locs_f cs0) by (apply IH0; reflexivity). intuition congruence.
Qed.

Lemma find_f_Some (cs : list node) (l : loc) (old : node) :
  find_f l cs = Some old -> loc_of old = l /\ l ∈ locs_f cs.
Proof.
  intros Hf. split.
  - revert Hf. induction cs as [|l' v s cs IH|l' nm cs0 cs IH0 IH] using forest_ind.
    + discriminate.
    + simpl. destruct (Nat.eqb_spec l' l) as [->|Hne]; [|exact IH].
      intros H. injection H as <-. reflexivity.
    + rewrite find_f_cons, find_node_tag.
      destruct (Nat.eqb_spec l' l) as [->|Hne].
      * intros H. injection H as <-. reflexivity.
      * destruct (find_f l cs0) eqn:Hf0; [|exact IH].
        intros H. injection H as <-. apply IH0. reflexivity.
  - destruct (decide (l ∈ locs_f cs)) as [Hin|Hout]; [exact Hin|].
    apply find_f_None in Hout. congruence.
Qed.

Lemma find_f_app_l (xs ys : list node) (l : loc) (old : node) :
  find_f l xs = Some old -> find_f l (xs ++ ys) = Some old.
Proof.
  induction xs as [|c xs IH]; simpl; [discriminate|].
  destruct (find_node l c); [trivial|exact IH].
Qed.

Lemma find_f_app_r (xs ys : list node) (l : loc) :
  l ∉ locs_f xs -> find_f l (xs ++ ys) = find_f l ys.
Proof.
  induction xs as [|c xs IH]; simpl; [reflexivity|].
  rewrite not_elem_of_app. intros [Hc Hxs].
  assert (Hn : find_f l [c] = None) by (apply find_f_None; simpl; rewrite app_nil_r; exact Hc).
  simpl in Hn. destruct (find_node l c); [discriminate|]. apply IH, Hxs.
Qed.

(** *** Substitution *)

Lemma subst_f_id (cs : list node) (l : loc) (repl : list node) :
  l ∉ locs_f cs -> subst_f l repl cs = cs.
Proof.
  induction cs as [|l' v s cs IH|l' nm cs0 cs IH0 IH] using forest_ind; intros Hl.
  - reflexivity.
  - rewrite subst_f_cons. simpl in Hl. rewrite not_elem_of_cons in Hl. destruct Hl as [Hne Hl].
    simpl. destruct (Nat.eqb_spec l' l) as [->|_]; [congruence|].
    rewrite IH by exact Hl. reflexivity.
  - rewrite subst_f_cons, subst_tag. rewrite locs_f_cons in Hl. simpl in Hl.
    fold (locs_f cs0) in Hl. rewrite not_elem_of_cons, not_elem_of_app in Hl.
    destruct Hl as [Hne [Hl0 Hl]].
    simpl. destruct (Nat.eqb_spec l' l) as [->|_]; [congruence|].
    rewrite IH0, IH by assumption. reflexivity.
Qed.

Lemma subst_id (n : node) (l : loc) (repl : list node) :
  l ∉ locs n -> subst l repl n = n.
Proof.
  destruct n as [l' v s|l' nm cs]; [reflexivity|].
  simpl. fold (locs_f cs). rewrite not_elem_of_cons. intros [_ Hl].
  fold (subst_f l repl cs). rewrite subst_f_id by exact Hl. reflexivity.
Qed.

Lemma subst_f_locs (cs : list node) (l : loc) (repl : list node) (x : loc) :
  x ∈ locs_f (subst_f l repl cs) -> x ∈ locs_f cs \/ x ∈ locs_f repl.
Proof.
  induction cs as [|l' v s cs IH|l' nm cs0 cs IH0 IH] using forest_ind.
  - intros H. inversion H.
  - rewrite subst_f_cons, locs_f_app, locs_f_cons. simpl loc_of.
    destruct (l' =? l); rewrite !elem_of_app; intros [H|H].
    + right. exact H.
    + destruct (IH H); [left; right; assumption|right; assumption].
    + left. left. simpl in H. rewrite ?app_nil_r in H. exact H.
    + destruct (IH H); [left; right; assumption|right; assumption].
  - rewrite subst_f_cons, locs_f_app, locs_f_cons. simpl loc_of.
    destruct (l' =? l); rewrite !elem_of_app; intros [H|H].
    + right. exact H.
    + destruct (IH H); [left; right; assumption|right; assumption].
    + rewrite subst_tag in H. simpl in H. rewrite ?app_nil_r in H.
      fold (locs_f (subst_f l repl cs0)) in H.
      apply elem_of_cons in H as [->|H]; [left; left; left|].
      destruct (IH0 H) as [H'|H']; [|right; exact H'].
      left. left. simpl. right. exact H'.
    + destruct (IH H); [left; right; assumption|right; assumption].
Qed.

Lemma locs_contents (n : node) : locs n = loc_of n :: locs_f (contents n).
Proof. destruct n; reflexivity. Qed.

Lemma find_f_Some_locs (cs : list node) (l : loc) (old : node) (x : loc) :
  find_f l cs = Some old -> x ∈ locs old -> x ∈ locs_f cs.
Proof.
  induction cs as [|l' v s cs IH|l' nm cs0 cs IH0 IH] using forest_ind.
  - discriminate.
  - rewrite find_f_cons, locs_f_cons. simpl find_node.
    destruct (l' =? l).
    + intros H Hx. injection H as <-. apply elem_of_app. left. exact Hx.
    + intros H Hx. apply elem_of_app. right. apply IH; assumption.
  - rewrite find_f_cons, find_node_tag, locs_f_cons.
    destruct (l' =? l).
    + intros H Hx. injection H as <-. apply elem_of_app. left. exact Hx.
    + destruct (find_f l cs0) eqn:Hf0.
      * intros H Hx. injection H as <-. apply elem_of_app. left.
        simpl. right. apply IH0; [reflexivity|exact Hx].
      * intros H Hx. apply elem_of_app. right. apply IH; assumption.
Qed.

(** In a forest without repeated locations, substituting at [l] cuts the
    locations of the element at [l] out of the list and puts those of
    the replacement there. *)
Lemma subst_f_splice (cs : list node) (l : loc) (repl : list node) (old : node) :
  NoDup (locs_f cs) -> find_f l cs = Some old ->
  exists A B, locs_f cs = A ++ locs old ++ B
              /\ locs_f (subst_f l repl cs) = A ++ locs_f repl ++ B.
Proof.
  induction cs as [|l' v s cs IH|l' nm cs0 cs IH0 IH] using forest_ind.
  - discriminate.
  - rewrite find_f_cons, locs_f_cons, subst_f_cons. simpl find_node. simpl loc_of.
    intros Hnd Hf. simpl in Hnd. apply NoDup_cons in Hnd as [Hl' Hnd].
    destruct (Nat.eqb_spec l' l) as [->|Hne].
    + injection Hf as <-. exists [], (locs_f cs). split; [reflexivity|].
      rewrite subst_f_id by exact Hl'. rewrite locs_f_app. reflexivity.
    + destruct (IH Hnd Hf) as [A [B [HA HB]]].
      exists (l' :: A), B. rewrite locs_f_app, HA, HB. split; reflexivity.
  - rewrite find_f_cons, find_node_tag, locs_f_cons, subst_f_cons. simpl loc_of.
    intros Hnd Hf. simpl in Hnd. fold (locs_f cs0) in Hnd.
    apply NoDup_cons in Hnd as [Hl' Hnd]. apply NoDup_app in Hnd as [Hnd0 [Hdisj Hnd1]].
    rewrite not_elem_of_app in Hl'. destruct Hl' as [Hl'0 Hl'1].
    destruct (Nat.eqb_spec l' l) as [->|Hne].
    + injection Hf as <-. exists [], (locs_f cs). split; [reflexivity|].
      rewrite subst_f_id by exact Hl'1. rewrite locs_f_app. reflexivity.
    + destruct (find_f l cs0) as [old0|] eqn:Hf0.
      * injection Hf as <-. destruct (IH0 Hnd0 eq_refl) as [A [B [HA HB]]].
        assert (Hin : l ∈ locs_f cs0) by (apply (find_f_Some _ _ _ Hf0)).
        rewrite (subst_f_id cs) by (apply Hdisj, Hin).
        exists (l' :: A), (B ++ locs_f cs).
        rewrite locs_f_app, subst_tag. simpl. fold (locs_f cs0). fold (locs_f (subst_f l repl cs0)).
        rewrite HA, HB, app_nil_r, <- !app_assoc. split; reflexivity.
      * assert (Hout : l ∉ locs_f cs0) by (apply find_f_None; exact Hf0).
        destruct (IH Hnd1 Hf) as [A [B [HA HB]]].
        exists (l' :: locs_f cs0 ++ A), B.
        rewrite locs_f_app, subst_tag, (subst_f_id cs0) by exact Hout.
        simpl. fold (locs_f cs0). rewrite HA, HB, app_nil_r, <- !app_assoc. split; reflexivity.
Qed.

Lemma NoDup_splice_fresh (A B old : list loc) (nx : loc) :
  NoDup (A ++ old ++ B) -> nx ∉ A ++ old ++ B -> NoDup (A ++ [nx] ++ B).
Proof.
  rewrite !NoDup_app, !not_elem_of_app. intros [HA [HAB [Ho [HoB HB]]]] [HnA [Hno HnB]].
  split; [exact HA|]. split.
  - intros x Hx Hin. apply elem_of_app in Hin as [Hin|Hin].
    + apply list_elem_of_singleton in Hin. subst x. contradiction.
    + apply (HAB x Hx). apply elem_of_app. right. exact Hin.
  - split; [apply NoDup_singleton|]. split; [|exact HB].
    intros x Hx. apply list_elem_of_singleton in Hx. subst x. exact HnB.
Qed.

Lemma NoDup_splice_tail (A B C : list loc) (l : loc) :
  NoDup (A ++ (l :: C) ++ B) -> NoDup (A ++ C ++ B) /\ l ∉ A ++ C ++ B.
Proof.
  intros H. apply NoDup_app in H as [HA [HAB H]].
  simpl in H. apply NoDup_cons in H as [Hl H]. split.
  - apply NoDup_app. split; [exact HA|]. split; [|exact H].
    intros x Hx Hin. apply (HAB x Hx). right. exact Hin.
  - rewrite not_elem_of_app. split; [|exact Hl].
    intros Hin. apply (HAB l Hin). left.
Qed.

Lemma NoDup_splice_gone (A B old : list loc) (l nx : loc) :
  NoDup (A ++ old ++ B) -> l ∈ old -> l <> nx -> l ∉ A ++ [nx] ++ B.
Proof.
  rewrite !NoDup_app. intros [HA [HAB [Ho [HoB HB]]]] Hl Hne.
  rewrite !not_elem_of_app. split; [|split].
  - intros Hin. apply (HAB l Hin). apply elem_of_app. left. exact Hl.
  - intros Hin. apply list_elem_of_singleton in Hin. contradiction.
  - apply HoB, Hl.
Qed.

(** *** One step of a loop is local *)

Section Splice.

Variable R : loc -> node -> list node.

Lemma splice_absent (nx l : loc) (cs : list node) :
  l ∉ locs_f cs -> splice (R nx) l cs = cs.
Proof.
  intros Hl. unfold splice. apply find_f_None in Hl. rewrite Hl. reflexivity.
Qed.

Lemma splice_app_r (nx l : loc) (ys cs : list node) :
  l ∉ locs_f ys -> splice (R nx) l (ys ++ cs) = ys ++ splice (R nx) l cs.
Proof.
  intros Hl. unfold splice. rewrite find_f_app_r by exact Hl.
  destruct (find_f l cs); [|reflexivity].
  rewrite subst_f_app, (subst_f_id ys) by exact Hl. reflexivity.
Qed.

Lemma splice_app_l (nx l : loc) (xs rest : list node) :
  l ∉ locs_f rest -> splice (R nx) l (xs ++ rest) = splice (R nx) l xs ++ rest.
Proof.
  intros Hl. unfold splice. destruct (find_f l xs) as [old|] eqn:Hf.
  - rewrite (find_f_app_l _ _ _ _ Hf), subst_f_app, (subst_f_id rest) by exact Hl. reflexivity.
  - rewrite find_f_app_r by (apply find_f_None; exact Hf).
    apply find_f_None in Hl. rewrite Hl. reflexivity.
Qed.

Lemma splice_tag (nx l l' : loc) (nm : string) (cs0 : list node) :
  l <> l' -> splice (R nx) l [Tag l' nm cs0] = [Tag l' nm (splice (R nx) l cs0)].
Proof.
  intros Hne. unfold splice. rewrite find_f_cons, find_node_tag.
  destruct (Nat.eqb_spec l' l) as [->|_]; [congruence|].
  destruct (find_f l cs0) as [old|] eqn:Hf; [|reflexivity].
  rewrite subst_f_cons. simpl loc_of.
  destruct (Nat.eqb_spec l' l) as [->|_]; [congruence|].
  rewrite subst_tag. reflexivity.
Qed.

Lemma splice_each_app (a b : list loc) (nx : loc) (cs : list node) :
  splice_each R (a ++ b) nx cs = splice_each R b (nx + length a) (splice_each R a nx cs).
Proof.
  revert nx cs. induction a as [|l a IH]; intros nx cs; simpl.
  - rewrite Nat.add_0_r. reflexivity.
  - rewrite IH. f_equal. lia.
Qed.

Lemma splice_each_absent (ls : list loc) (nx : loc) (cs : list node) :
  (forall l, l ∈ ls -> l ∉ locs_f cs) -> splice_each R ls nx cs = cs.
Proof.
  revert nx. induction ls as [|l ls IH]; intros nx Hls; simpl; [reflexivity|].
  rewrite splice_absent by (apply Hls; left).
  apply IH. intros l' Hl'. apply Hls. right. exact Hl'.
Qed.

Lemma splice_each_app_r (ls : list loc) (nx : loc) (ys cs : list node) :
  (forall l, l ∈ ls -> l ∉ locs_f ys) ->
  splice_each R ls nx (ys ++ cs) = ys ++ splice_each R ls nx cs.
Proof.
  revert nx cs. induction ls as [|l ls IH]; intros nx cs Hls; simpl; [reflexivity|].
  rewrite splice_app_r by (apply Hls; left).
  apply IH. intros l' Hl'. apply Hls. right. exact Hl'.
Qed.

Lemma splice_each_app_l (ls : list loc) (nx : loc) (xs rest : list node) :
  (forall l, l ∈ ls -> l ∉ locs_f rest) ->
  splice_each R ls nx (xs ++ rest) = splice_each R ls nx xs ++ rest.
Proof.
  revert nx xs. induction ls as [|l ls IH]; intros nx xs Hls; simpl; [reflexivity|].
  rewrite splice_app_l by (apply Hls; left).
  apply IH. intros l' Hl'. apply Hls. right. exact Hl'.
Qed.

Lemma splice_each_tag (ls : list loc) (nx l' : loc) (nm : string) (cs0 : list node) :
  (forall l, l ∈ ls -> l <> l') ->
  splice_each R ls nx [Tag l' nm cs0] = [Tag l' nm (splice_each R ls nx cs0)].
Proof.
  revert nx cs0. induction ls as [|l ls IH]; intros nx cs0 Hls; simpl; [reflexivity|].
  rewrite splice_tag by (apply Hls; left).
  apply IH. intros l0 Hl0. apply Hls. right. exact Hl0.
Qed.

End Splice.

(** *** The locations the loops keep *)

Lemma splice_new_string_locs (nx l : loc) (cs : list node) (x : loc) :
  x ∈ locs_f (splice (new_string nx) l cs) -> x ∈ locs_f cs \/ x = nx.
Proof.
  unfold splice. destruct (find_f l cs) as [old|]; [|tauto].
  intros Hx. apply subst_f_locs in Hx as [Hx|Hx]; [left; exact Hx|right].
  simpl in Hx. apply list_elem_of_singleton in Hx. exact Hx.
Qed.

Lemma splice_children_locs (nx l : loc) (cs : list node) (x : loc) :
  x ∈ locs_f (splice (children nx) l cs) -> x ∈ locs_f cs.
Proof.
  unfold splice. destruct (find_f l cs) as [old|] eqn:Hf; [|tauto].
  intros Hx. apply subst_f_locs in Hx as [Hx|Hx]; [exact Hx|].
  apply (find_f_Some_locs _ _ _ _ Hf). rewrite locs_contents. right. exact Hx.
Qed.

Lemma splice_each_new_string_locs (ls : list loc) (nx : loc) (cs : list node) (x : loc) :
  x ∈ locs_f (splice_each new_string ls nx cs) -> x ∈ locs_f cs \/ nx <= x.
Proof.
  revert nx cs. induction ls as [|l ls IH]; intros nx cs; simpl; [tauto|].
  intros Hx. apply IH in Hx as [Hx|Hx]; [|right; lia].
  apply splice_new_string_locs in Hx as [Hx| ->]; [left; exact Hx|right; lia].
Qed.

Lemma splice_each_children_locs (ls : list loc) (nx : loc) (cs : list node) (x : loc) :
  x ∈ locs_f (splice_each children ls nx cs) -> x ∈ locs_f cs.
Proof.
  revert nx cs. induction ls as [|l ls IH]; intros nx cs; simpl; [tauto|].
  intros Hx. apply IH in Hx. apply splice_children_locs in Hx. exact Hx.
Qed.

Lemma splice_new_string_inv (nx l : loc) (cs : list node) :
  fresh_above nx cs -> l < nx ->
  fresh_above (S nx) (splice (new_string nx) l cs)
  /\ l ∉ locs_f (splice (new_string nx) l cs).
Proof.
  intros [Hnd Hlt] Hl. unfold splice.
  destruct (find_f l cs) as [old|] eqn:Hf.
  - destruct (subst_f_splice cs l (new_string nx old) old Hnd Hf) as [A [B [HA HB]]].
    assert (Hnx : nx ∉ locs_f cs) by (intros Hin; apply Hlt in Hin; lia).
    unfold fresh_above. rewrite HB. change (locs_f (new_string nx old)) with [nx].
    rewrite HA in Hnd, Hnx. split; [split|].
    + apply (NoDup_splice_fresh _ _ _ _ Hnd Hnx).
    + intros x Hx. change [nx] with (locs_f (new_string nx old)) in Hx. rewrite <- HB in Hx.
      apply subst_f_locs in Hx as [Hx|Hx].
      * apply Hlt in Hx. lia.
      * simpl in Hx. apply list_elem_of_singleton in Hx. lia.
    + apply (NoDup_splice_gone _ _ (locs old) _ _ Hnd); [|lia].
      rewrite <- (proj1 (find_f_Some _ _ _ Hf)). apply loc_of_in_locs.
  - split; [split|].
    + exact Hnd.
    + intros x Hx. apply Hlt in Hx. lia.
    + apply find_f_None. exact Hf.
Qed.

Lemma splice_each_new_string_inv (ls : list loc) (nx : loc) (cs : list node) :
  fresh_above nx cs -> (forall l, l ∈ ls -> l < nx) ->
  fresh_above (nx + length ls) (splice_each new_string ls nx cs)
  /\ forall l, l ∈ ls -> l ∉ locs_f (splice_each new_string ls nx cs).
Proof.
  revert nx cs. induction ls as [|l ls IH]; intros nx cs Hinv Hls; simpl.
  - rewrite Nat.add_0_r. split; [exact Hinv|]. intros l Hl. inversion Hl.
  - destruct (splice_new_string_inv nx l cs Hinv) as [Hinv1 Hgone]; [apply Hls; left|].
    destruct (IH (S nx) _ Hinv1) as [Hinv2 Hgone2].
    { intros l' Hl'. assert (l' < nx) by (apply Hls; right; exact Hl'). lia. }
    replace (nx + S (length ls)) with (S nx + length ls) by lia.
    split; [exact Hinv2|]. intros l' Hl' Hin.
    apply elem_of_cons in Hl' as [->|Hl']; [|apply (Hgone2 l' Hl' Hin)].
    apply splice_each_new_string_locs in Hin as [Hin|Hin]; [contradiction|].
    assert (l < nx) by (apply Hls; left). lia.
Qed.

Lemma splice_children_inv (nx l : loc) (cs : list node) :
  NoDup (locs_f cs) ->
  NoDup (locs_f (splice (children nx) l cs))
  /\ l ∉ locs_f (splice (children nx) l cs).
Proof.
  intros Hnd. unfold splice. destruct (find_f l cs) as [old|] eqn:Hf.
  - destruct (subst_f_splice cs l (children nx old) old Hnd Hf) as [A [B [HA HB]]].
    rewrite HB. unfold children. rewrite HA, locs_contents in Hnd.
    rewrite (proj1 (find_f_Some _ _ _ Hf)) in Hnd.
    apply NoDup_splice_tail in Hnd. exact Hnd.
  - split; [exact Hnd|]. apply find_f_None. exact Hf.
Qed.

Lemma splice_each_children_inv (ls : list loc) (nx : loc) (cs : list node) :
  NoDup (locs_f cs) ->
  NoDup (locs_f (splice_each children ls nx cs))
  /\ forall l, l ∈ ls -> l ∉ locs_f (splice_each children ls nx cs).
Proof.
  revert nx cs. induction ls as [|l ls IH]; intros nx cs Hnd; simpl.
  - split; [exact Hnd|]. intros l Hl. inversion Hl.
  - destruct (splice_children_inv nx l cs Hnd) as [Hnd1 Hgone].
    destruct (IH (S nx) _ Hnd1) as [Hnd2 Hgone2].
    split; [exact Hnd2|]. intros l' Hl' Hin.
    apply elem_of_cons in Hl' as [->|Hl']; [|apply (Hgone2 l' Hl' Hin)].
    apply splice_each_children_locs in Hin. contradiction.
Qed.

(** *** The loops compute the normalizer of the specification *)

Lemma tags_f_cons (p : string -> bool) (c : node) (cs : list node) :
  tags_f p (c :: cs) = tags p c ++ tags_f p cs.
Proof. reflexivity. Qed.

Lemma tags_f_locs (p : string -> bool) (cs : list node) (x : loc) :
  x ∈ tags_f p cs -> x ∈ locs_f cs.
Proof.
  induction cs as [|l v s cs IH|l nm cs0 cs IH0 IH] using forest_ind.
  - intros H. inversion H.
  - rewrite tags_f_cons, locs_f_cons. simpl. intros H. right. apply IH, H.
  - rewrite tags_f_cons, locs_f_cons. simpl. fold (tags_f p cs0). fold (locs_f cs0).
    rewrite <- app_assoc, !elem_of_app. intros [H|[H|H]].
    + destruct (p nm); [|inversion H].
      apply list_elem_of_singleton in H. subst x. left.
    + right. apply elem_of_app. left. apply IH0, H.
    + right. apply elem_of_app. right. apply IH, H.
Qed.

Lemma tags_f_NoDup (p : string -> bool) (cs : list node) :
  NoDup (locs_f cs) -> NoDup (tags_f p cs).
Proof.
  induction cs as [|l v s cs IH|l nm cs0 cs IH0 IH] using forest_ind.
  - intros _. apply NoDup_nil_2.
  - rewrite tags_f_cons, locs_f_cons. simpl. intros H. apply NoDup_cons in H as [_ H]. apply IH, H.
  - rewrite tags_f_cons, locs_f_cons. simpl. fold (tags_f p cs0). fold (locs_f cs0).
    intros H. apply NoDup_cons in H as [Hl H]. apply NoDup_app in H as [H0 [Hd H1]].
    rewrite not_elem_of_app in Hl. destruct Hl as [Hl0 Hl1].
    assert (Hrest : NoDup (tags_f p cs0 ++ tags_f p cs)).
    { apply NoDup_app. split; [apply IH0, H0|]. split; [|apply IH, H1].
      intros x Hx Hx'. apply (Hd x); eapply tags_f_locs; eassumption. }
    destruct (p nm); [|exact Hrest].
    simpl. apply NoDup_cons. split; [|exact Hrest].
    rewrite not_elem_of_app. split; intros Hin; apply tags_f_locs in Hin; contradiction.
Qed.

Lemma strings_erase (n : node) : strings n = mstrings (erase n).
Proof.
  apply (node_list_ind (fun n => strings n = mstrings (erase n))
           (fun cs => flat_map strings cs = flat_map mstrings (map erase cs))).
  - reflexivity.
  - intros l nm cs H. exact H.
  - reflexivity.
  - intros c cs Hc Hcs. simpl. rewrite Hc, Hcs. reflexivity.
Qed.

Lemma get_text_erase (n : node) : get_text n = mtext (erase n).
Proof. unfold get_text, mtext. rewrite strings_erase. reflexivity. Qed.

(** The first loop replaces every element with a colon in its name by
    its text. *)
Lemma replace_each_erase (cs : list node) (nx : loc) :
  fresh_above nx cs ->
  erase_f (splice_each new_string (tags_f has_colon cs) nx cs) = map replace_colon (erase_f cs).
Proof.
  revert nx. induction cs as [|l v s cs IH|l nm cs0 cs IH0 IH] using forest_ind;
    intros nx [Hnd Hlt].
  - reflexivity.
  - rewrite tags_f_cons. simpl tags. simpl app.
    rewrite locs_f_cons in Hnd, Hlt. simpl in Hnd, Hlt.
    apply NoDup_cons in Hnd as [Hl Hnd].
    change (Str l v s :: cs) with ([Str l v s] ++ cs).
    rewrite splice_each_app_r.
    + unfold erase_f in *. rewrite map_app. simpl. rewrite IH; [reflexivity|].
      split; [exact Hnd|]. intros x Hx. apply Hlt. right. exact Hx.
    + intros x Hx Hin. simpl in Hin. apply list_elem_of_singleton in Hin. subst x.
      apply tags_f_locs in Hx. contradiction.
  - rewrite locs_f_cons in Hnd, Hlt. simpl in Hnd, Hlt. fold (locs_f cs0) in Hnd, Hlt.
    apply NoDup_cons in Hnd as [Hl Hnd]. apply NoDup_app in Hnd as [Hnd0 [Hd Hnd1]].
    rewrite not_elem_of_app in Hl. destruct Hl as [Hl0 Hl1].
    assert (Hlt0 : forall x, x ∈ locs_f cs0 -> x < nx).
    { intros x Hx. apply Hlt. right. apply elem_of_app. left. exact Hx. }
    assert (Hlt1 : forall x, x ∈ locs_f cs -> x < nx).
    { intros x Hx. apply Hlt. right. apply elem_of_app. right. exact Hx. }
    assert (Hll : l < nx) by (apply Hlt; left).
    rewrite tags_f_cons. simpl tags. fold (tags_f has_colon cs0).
    unfold erase_f. simpl map. fold (erase_f cs0). fold (erase_f cs). simpl replace_colon.
    destruct (has_colon nm) eqn:Hc.
    + simpl app. simpl splice_each.
      assert (Hstep : splice (new_string nx) l (Tag l nm cs0 :: cs)
                      = Str nx true (get_text (Tag l nm cs0)) :: cs).
      { unfold splice. rewrite find_f_cons, find_node_tag, Nat.eqb_refl.
        rewrite subst_f_cons. simpl loc_of. rewrite Nat.eqb_refl.
        rewrite subst_f_id by exact Hl1. reflexivity. }
      rewrite Hstep, splice_each_app.
      rewrite (splice_each_absent _ (tags_f has_colon cs0)).
      * change (Str nx true (get_text (Tag l nm cs0)) :: cs)
          with ([Str nx true (get_text (Tag l nm cs0))] ++ cs).
        rewrite splice_each_app_r.
        { rewrite map_app. simpl. fold (erase_f (splice_each new_string (tags_f has_colon cs)
                                                  (S nx + length (tags_f has_colon cs0)) cs)).
          rewrite IH.
          - rewrite get_text_erase. reflexivity.
          - split; [exact Hnd1|]. intros x Hx. apply Hlt1 in Hx. lia. }
        intros x Hx Hin. simpl in Hin. apply list_elem_of_singleton in Hin. subst x.
        apply tags_f_locs, Hlt1 in Hx. lia.
      * intros x Hx Hin. apply tags_f_locs in Hx.
        rewrite locs_f_cons in Hin. simpl in Hin. apply elem_of_cons in Hin as [->|Hin].
        { apply Hlt0 in Hx. lia. }
        { apply (Hd x Hx Hin). }
    + simpl app. rewrite splice_each_app.
      change (Tag l nm cs0 :: cs) with ([Tag l nm cs0] ++ cs).
      rewrite splice_each_app_l.
      * rewrite splice_each_tag.
        { rewrite splice_each_app_r.
          - rewrite map_app. simpl.
            fold (erase_f (splice_each new_string (tags_f has_colon cs0) nx cs0)).
            fold (erase_f (splice_each new_string (tags_f has_colon cs)
                             (nx + length (tags_f has_colon cs0)) cs)).
            rewrite IH0, IH.
            + reflexivity.
            + split; [exact Hnd1|]. intros x Hx. apply Hlt1 in Hx. lia.
            + split; [exact Hnd0|exact Hlt0].
          - intros x Hx Hin. apply tags_f_locs in Hx.
            simpl in Hin. rewrite app_nil_r in Hin.
            fold (locs_f (splice_each new_string (tags_f has_colon cs0) nx cs0)) in Hin.
            apply elem_of_cons in Hin as [->|Hin]; [contradiction|].
            apply splice_each_new_string_locs in Hin as [Hin|Hin].
            + apply (Hd x Hin Hx).
            + apply Hlt1 in Hx. lia. }
        intros x Hx ->. apply tags_f_locs in Hx. contradiction.
      * intros x Hx Hin. apply tags_f_locs in Hx. apply (Hd x Hx Hin).
Qed.

(** The second loop unwraps every wrapper element. *)
Lemma unwrap_each_erase (cs : list node) (nx : loc) :
  NoDup (locs_f cs) ->
  erase_f (splice_each children (tags_f is_wrapper cs) nx cs)
  = flat_map unwrap_wrappers (erase_f cs).
Proof.
  revert nx. induction cs as [|l v s cs IH|l nm cs0 cs IH0 IH] using forest_ind;
    intros nx Hnd.
  - reflexivity.
  - rewrite tags_f_cons. simpl tags. simpl app.
    rewrite locs_f_cons in Hnd. simpl in Hnd.
    apply NoDup_cons in Hnd as [Hl Hnd].
    change (Str l v s :: cs) with ([Str l v s] ++ cs).
    rewrite splice_each_app_r.
    + unfold erase_f in *. rewrite map_app. simpl. rewrite IH by exact Hnd. reflexivity.
    + intros x Hx Hin. simpl in Hin. apply list_elem_of_singleton in Hin. subst x.
      apply tags_f_locs in Hx. contradiction.
  - rewrite locs_f_cons in Hnd. simpl in Hnd. fold (locs_f cs0) in Hnd.
    apply NoDup_cons in Hnd as [Hl Hnd]. apply NoDup_app in Hnd as [Hnd0 [Hd Hnd1]].
    rewrite not_elem_of_app in Hl. destruct Hl as [Hl0 Hl1].
    rewrite tags_f_cons. simpl tags. fold (tags_f is_wrapper cs0).
    unfold erase_f. simpl map. fold (erase_f cs0). fold (erase_f cs).
    simpl flat_map. simpl unwrap_wrappers.
    destruct (is_wrapper nm) eqn:Hw.
    + simpl app. simpl splice_each.
      assert (Hstep : splice (children nx) l (Tag l nm cs0 :: cs) = cs0 ++ cs).
      { unfold splice. rewrite find_f_cons, find_node_tag, Nat.eqb_refl.
        rewrite subst_f_cons. simpl loc_of. rewrite Nat.eqb_refl.
        rewrite subst_f_id by exact Hl1. reflexivity. }
      rewrite Hstep, splice_each_app.
      rewrite splice_each_app_l.
      * rewrite splice_each_app_r.
        { rewrite map_app.
          fold (erase_f (splice_each children (tags_f is_wrapper cs0) (S nx) cs0)).
          fold (erase_f (splice_each children (tags_f is_wrapper cs)
                           (S nx + length (tags_f is_wrapper cs0)) cs)).
          rewrite IH0, IH by assumption. reflexivity. }
        intros x Hx Hin. apply tags_f_locs in Hx.
        apply splice_each_children_locs in Hin. apply (Hd x Hin Hx).
      * intros x Hx Hin. apply tags_f_locs in Hx. apply (Hd x Hx Hin).
    + simpl app. rewrite splice_each_app.
      change (Tag l nm cs0 :: cs) with ([Tag l nm cs0] ++ cs).
      rewrite splice_each_app_l.
      * rewrite splice_each_tag.
        { rewrite splice_each_app_r.
          - rewrite map_app. simpl.
            fold (erase_f (splice_each children (tags_f is_wrapper cs0) nx cs0)).
            fold (erase_f (splice_each children (tags_f is_wrapper cs)
                             (nx + length (tags_f is_wrapper cs0)) cs)).
            rewrite IH0, IH by assumption. reflexivity.
          - intros x Hx Hin. apply tags_f_locs in Hx.
            simpl in Hin. rewrite app_nil_r in Hin.
            fold (locs_f (splice_each children (tags_f is_wrapper cs0) nx cs0)) in Hin.
            apply elem_of_cons in Hin as [->|Hin]; [contradiction|].
            apply splice_each_children_locs in Hin. apply (Hd x Hin Hx). }
        intros x Hx ->. apply tags_f_locs in Hx. contradiction.
      * intros x Hx Hin. apply tags_f_locs in Hx. apply (Hd x Hx Hin).
Qed.

(** *** The store during the loops *)

Lemma root_locs_in (cs : list node) (x : loc) : x ∈ map loc_of cs -> x ∈ locs_f cs.
Proof.
  induction cs as [|c cs IH]; simpl; [trivial|].
  intros H. apply elem_of_cons in H as [->|H]; apply elem_of_app.
  - left. apply loc_of_in_locs.
  - right. apply IH, H.
Qed.

Lemma is_root_false (l : loc) (st : store) :
  l ∉ map loc_of (roots st) -> is_root l st = false.
Proof.
  unfold is_root. induction (roots st) as [|r rs IH]; simpl; [reflexivity|].
  rewrite not_elem_of_cons. intros [Hne Hrs].
  destruct (Nat.eqb_spec (loc_of r) l) as [Heq|_]; [congruence|]. apply IH, Hrs.
Qed.

Lemma map_subst_id (cs : list node) (l : loc) (repl : list node) :
  l ∉ locs_f cs -> map (subst l repl) cs = cs.
Proof.
  induction cs as [|c cs IH]; simpl; [reflexivity|].
  rewrite not_elem_of_app. intros [Hc Hcs].
  rewrite subst_id by exact Hc. rewrite IH by exact Hcs. reflexivity.
Qed.

Lemma map_subst_locs (cs : list node) (l : loc) (repl : list node) (x : loc) :
  x ∈ locs_f (map (subst l repl) cs) -> x ∈ locs_f cs \/ x ∈ locs_f repl.
Proof.
  induction cs as [|c cs IH]; simpl; [intros H; inversion H|].
  rewrite !elem_of_app. intros [H|H].
  - destruct c as [l' v s|l' nm cs0]; [left; left; exact H|].
    rewrite subst_tag in H. simpl in H. apply elem_of_cons in H as [->|H].
    + left. left. left.
    + fold (locs_f (subst_f l repl cs0)) in H. apply subst_f_locs in H as [H|H].
      * left. left. simpl. right. exact H.
      * right. exact H.
  - destruct (IH H); [left; right; assumption|right; assumption].
Qed.

Lemma map_loc_of_subst (cs : list node) (l : loc) (repl : list node) :
  map loc_of (map (subst l repl) cs) = map loc_of cs.
Proof.
  rewrite map_map. apply map_ext. intros c. apply loc_of_subst.
Qed.

Lemma find_store_shape (st : store) olds tc nm cs dets (l : loc) :
  shape st olds tc nm cs dets -> l ∉ locs_f olds -> l <> tc ->
  find_store l st = match find_f l cs with
                    | Some old => Some old
                    | None => find_f l dets
                    end.
Proof.
  intros Hsh Ho Hne. unfold find_store. rewrite Hsh, find_f_app_r by exact Ho.
  rewrite find_f_cons, find_node_tag.
  destruct (Nat.eqb_spec tc l) as [->|_]; [congruence|reflexivity].
Qed.

Lemma find_store_copy (st : store) olds tc nm cs dets :
  shape st olds tc nm cs dets -> tc ∉ locs_f olds ->
  find_store tc st = Some (Tag tc nm cs).
Proof.
  intros Hsh Ho. unfold find_store. rewrite Hsh, find_f_app_r by exact Ho.
  rewrite find_f_cons, find_node_tag, Nat.eqb_refl. reflexivity.
Qed.

Lemma not_root_shape (st : store) olds tc nm cs dets (l : loc) :
  shape st olds tc nm cs dets ->
  l ∉ locs_f olds -> l <> tc -> l ∉ map loc_of dets ->
  is_root l st = false.
Proof.
  intros Hsh Ho Hne Hd. apply is_root_false. rewrite Hsh, map_app. simpl.
  rewrite not_elem_of_app, not_elem_of_cons. split; [|split].
  - intros Hin. apply Ho, root_locs_in, Hin.
  - exact Hne.
  - exact Hd.
Qed.

Lemma detached_root (o : option node) (l : loc) (cs : list node) (x : loc) :
  o = find_f l cs -> x ∈ map loc_of (detached o) -> x = l.
Proof.
  intros -> Hx. destruct (find_f l cs) as [old|] eqn:Hf; simpl in Hx; [|inversion Hx].
  apply list_elem_of_singleton in Hx. subst x. apply (find_f_Some _ _ _ Hf).
Qed.

Lemma emptied_root (o : option node) (l : loc) (cs : list node) (x : loc) :
  o = find_f l cs -> x ∈ map loc_of (emptied o) -> x = l.
Proof.
  intros -> Hx. destruct (find_f l cs) as [old|] eqn:Hf; simpl in Hx; [|inversion Hx].
  apply find_f_Some in Hf as [Hloc _].
  destruct old; simpl in Hx; apply list_elem_of_singleton in Hx; subst x; exact Hloc.
Qed.

Lemma replace_with_shape (st : store) olds tc nm cs dets (l : loc) :
  shape st olds tc nm cs dets ->
  l ∉ locs_f olds -> l <> tc -> l ∉ map loc_of dets ->
  exists st' dets',
    replace_with l (get_text_at l st) st = Ok st'
    /\ shape st' olds tc nm (splice (new_string (next st)) l cs) dets'
    /\ next st' = S (next st)
    /\ forall x, x ∈ map loc_of dets' -> x = l \/ x ∈ map loc_of dets.
Proof.
  intros Hsh Ho Hne Hd. unfold replace_with.
  rewrite (not_root_shape _ _ _ _ _ _ _ Hsh Ho Hne Hd).
  eexists. exists (map (subst l [Str (next st) true (get_text_at l st)]) dets
                     ++ detached (find_store l st)).
  split; [reflexivity|]. split; [|split; [reflexivity|]].
  - unfold shape. cbn [roots]. rewrite Hsh, map_app, map_cons.
    rewrite map_subst_id by exact Ho. rewrite subst_tag, <- app_assoc. cbn [app].
    f_equal. f_equal. f_equal.
    unfold splice, get_text_at. rewrite (find_store_shape _ _ _ _ _ _ _ Hsh Ho Hne).
    destruct (find_f l cs) as [old|] eqn:Hf; [reflexivity|].
    apply subst_f_id, find_f_None, Hf.
  - intros x Hx. rewrite map_app, map_loc_of_subst in Hx.
    apply elem_of_app in Hx as [Hx|Hx]; [right; exact Hx|left].
    eapply detached_root; [|exact Hx]. reflexivity.
Qed.

Lemma unwrap_shape (st : store) olds tc nm cs dets (l nx : loc) :
  shape st olds tc nm cs dets ->
  l ∉ locs_f olds -> l <> tc -> l ∉ map loc_of dets ->
  exists st' dets',
    unwrap l st = Ok st'
    /\ shape st' olds tc nm (splice (children nx) l cs) dets'
    /\ next st' = next st
    /\ forall x, x ∈ map loc_of dets' -> x = l \/ x ∈ map loc_of dets.
Proof.
  intros Hsh Ho Hne Hd. unfold unwrap.
  rewrite (not_root_shape _ _ _ _ _ _ _ Hsh Ho Hne Hd).
  eexists. exists (map (subst l (contents_of (find_store l st))) dets
                     ++ emptied (find_store l st)).
  split; [reflexivity|]. split; [|split; [reflexivity|]].
  - unfold shape. cbn [roots]. rewrite Hsh, map_app, map_cons.
    rewrite map_subst_id by exact Ho. rewrite subst_tag, <- app_assoc. cbn [app].
    f_equal. f_equal. f_equal.
    unfold splice. rewrite (find_store_shape _ _ _ _ _ _ _ Hsh Ho Hne).
    destruct (find_f l cs) as [old|] eqn:Hf; [reflexivity|].
    apply subst_f_id, find_f_None, Hf.
  - intros x Hx. rewrite map_app, map_loc_of_subst in Hx.
    apply elem_of_app in Hx as [Hx|Hx]; [right; exact Hx|left].
    eapply emptied_root; [|exact Hx]. reflexivity.
Qed.

Lemma replace_each_shape (ls : list loc) (st : store) olds tc nm cs dets :
  shape st olds tc nm cs dets ->
  NoDup ls ->
  (forall l, l ∈ ls -> (l ∉ locs_f olds) /\ l <> tc /\ (l ∉ map loc_of dets)) ->
  exists st' dets',
    replace_each ls st = Ok st'
    /\ shape st' olds tc nm (splice_each new_string ls (next st) cs) dets'
    /\ next st' = next st + length ls
    /\ forall x, x ∈ map loc_of dets' -> x ∈ ls \/ x ∈ map loc_of dets.
Proof.
  revert st cs dets. induction ls as [|l ls IH]; intros st cs dets Hsh Hnd Hls; simpl.
  - exists st, dets. split; [reflexivity|]. split; [exact Hsh|]. split; [lia|]. tauto.
  - apply NoDup_cons in Hnd as [Hl Hnd].
    destruct (Hls l) as [Ho [Hne Hd]]; [left|].
    destruct (replace_with_shape st olds tc nm cs dets l Hsh Ho Hne Hd)
      as [st1 [dets1 [Hrep [Hsh1 [Hnx1 Hd1]]]]].
    rewrite Hrep.
    destruct (IH st1 _ dets1 Hsh1 Hnd) as [st2 [dets2 [Hrep2 [Hsh2 [Hnx2 Hd2]]]]].
    { intros l' Hl'. destruct (Hls l') as [Ho' [Hne' Hd']]; [right; exact Hl'|].
      split; [exact Ho'|]. split; [exact Hne'|].
      intros Hin. apply Hd1 in Hin as [->|Hin]; contradiction. }
    exists st2, dets2. rewrite Hnx1 in Hsh2, Hnx2.
    split; [exact Hrep2|]. split; [exact Hsh2|]. split; [lia|].
    intros x Hx. apply Hd2 in Hx as [Hx|Hx]; [left; right; exact Hx|].
    apply Hd1 in Hx as [->|Hx]; [left; left|right; exact Hx].
Qed.

Lemma unwrap_each_shape (ls : list loc) (st : store) olds tc nm cs dets (nx : loc) :
  shape st olds tc nm cs dets ->
  NoDup ls ->
  (forall l, l ∈ ls -> (l ∉ locs_f olds) /\ l <> tc /\ (l ∉ map loc_of dets)) ->
  exists st' dets',
    unwrap_each ls st = Ok st'
    /\ shape st' olds tc nm (splice_each children ls nx cs) dets'
    /\ next st' = next st.
Proof.
  revert st cs dets nx. induction ls as [|l ls IH]; intros st cs dets nx Hsh Hnd Hls; simpl.
  - exists st, dets. split; [reflexivity|]. split; [exact Hsh|reflexivity].
  - apply NoDup_cons in Hnd as [Hl Hnd].
    destruct (Hls l) as [Ho [Hne Hd]]; [left|].
    destruct (unwrap_shape st olds tc nm cs dets l nx Hsh Ho Hne Hd)
      as [st1 [dets1 [Hrep [Hsh1 [Hnx1 Hd1]]]]].
    rewrite Hrep.
    destruct (IH st1 _ dets1 (S nx) Hsh1 Hnd) as [st2 [dets2 [Hrep2 [Hsh2 Hnx2]]]].
    { intros l' Hl'. destruct (Hls l') as [Ho' [Hne' Hd']]; [right; exact Hl'|].
      split; [exact Ho'|]. split; [exact Hne'|].
      intros Hin. apply Hd1 in Hin as [->|Hin]; contradiction. }
    exists st2, dets2. split; [exact Hrep2|]. split; [exact Hsh2|]. congruence.
Qed.

(** *** Every location stays below [next] *)

Lemma replace_with_bounded (l : loc) (s : text) (st st' : store) :
  replace_with l s st = Ok st' -> bounded st -> bounded st'.
Proof.
  unfold replace_with. destruct (is_root l st); [discriminate|].
  intros H Hb. injection H as <-. intros x. cbn [roots next].
  rewrite locs_f_app, elem_of_app. intros [Hx|Hx].
  - apply map_subst_locs in Hx as [Hx|Hx]; [apply Hb in Hx; lia|].
    simpl in Hx. apply list_elem_of_singleton in Hx. lia.
  - unfold find_store in Hx. destruct (find_f l (roots st)) as [old|] eqn:Hf; simpl in Hx.
    + rewrite app_nil_r in Hx. apply (find_f_Some_locs _ _ _ _ Hf), Hb in Hx. lia.
    + inversion Hx.
Qed.

Lemma unwrap_bounded (l : loc) (st st' : store) :
  unwrap l st = Ok st' -> bounded st -> bounded st'.
Proof.
  unfold unwrap. destruct (is_root l st); [discriminate|].
  intros H Hb. injection H as <-. intros x. cbn [roots next].
  unfold find_store. rewrite locs_f_app, elem_of_app. intros [Hx|Hx].
  - apply map_subst_locs in Hx as [Hx|Hx]; [apply Hb, Hx|].
    destruct (find_f l (roots st)) as [old|] eqn:Hf; simpl in Hx; [|inversion Hx].
    apply Hb, (find_f_Some_locs _ _ _ _ Hf). rewrite locs_contents. right. exact Hx.
  - destruct (find_f l (roots st)) as [old|] eqn:Hf; simpl in Hx; [|inversion Hx].
    apply Hb, (find_f_Some_locs _ _ _ _ Hf).
    destruct old; simpl in Hx; rewrite ?app_nil_r in Hx;
      apply list_elem_of_singleton in Hx; subst x; left.
Qed.

Lemma replace_each_bounded (ls : list loc) (st st' : store) :
  replace_each ls st = Ok st' -> bounded st -> bounded st'.
Proof.
  revert st. induction ls as [|l ls IH]; intros st; simpl.
  - intros H. injection H as <-. trivial.
  - destruct (replace_with l (get_text_at l st) st) as [st1|e] eqn:Hr; [|discriminate].
    intros H Hb. apply (IH st1 H). apply (replace_with_bounded _ _ _ _ Hr Hb).
Qed.

Lemma unwrap_each_bounded (ls : list loc) (st st' : store) :
  unwrap_each ls st = Ok st' -> bounded st -> bounded st'.
Proof.
  revert st. induction ls as [|l ls IH]; intros st; simpl.
  - intros H. injection H as <-. trivial.
  - destruct (unwrap l st) as [st1|e] eqn:Hr; [|discriminate].
    intros H Hb. apply (IH st1 H). apply (unwrap_bounded _ _ _ Hr Hb).
Qed.

Lemma normalize_bounded (tc : loc) (st st' : store) :
  normalize tc st = Ok st' -> bounded st -> bounded st'.
Proof.
  unfold normalize.
  destruct (replace_each (find_all_at has_colon tc st) st) as [st1|e] eqn:H1; [|discriminate].
  intros H2 Hb. apply (unwrap_each_bounded _ _ _ H2). apply (replace_each_bounded _ _ _ H1 Hb).
Qed.

(** *** The copy *)

Lemma copy_f_spec (cs : list node) (nx : loc) :
  erase_f (fst (copy_f cs nx)) = erase_f cs
  /\ locs_f (fst (copy_f cs nx)) = seq nx (list_sum (map size cs))
  /\ snd (copy_f cs nx) = nx + list_sum (map size cs).
Proof.
  revert nx. induction cs as [|l v s cs IH|l nm cs0 cs IH0 IH] using forest_ind; intros nx.
  - simpl. split; [reflexivity|]. split; [reflexivity|lia].
  - simpl. destruct (copy_f cs (S nx)) as [cs1 nx1] eqn:Hc.
    destruct (IH (S nx)) as [He [Hl Hn]]. rewrite Hc in He, Hl, Hn. simpl in *.
    unfold erase_f in *. simpl. rewrite He, Hl, Hn. split; [reflexivity|]. split; [reflexivity|lia].
  - change (copy_f (Tag l nm cs0 :: cs) nx)
      with (let '(c1, nx1) := copy_node (Tag l nm cs0) nx in
            let '(cs1, nx2) := copy_f cs nx1 in (c1 :: cs1, nx2)).
    rewrite copy_node_tag.
    destruct (copy_f cs0 (S nx)) as [cs0' nx0] eqn:Hc0.
    destruct (IH0 (S nx)) as [He0 [Hl0 Hn0]]. rewrite Hc0 in He0, Hl0, Hn0. simpl in He0, Hl0, Hn0.
    destruct (copy_f cs nx0) as [cs1 nx1] eqn:Hc1.
    destruct (IH nx0) as [He1 [Hl1 Hn1]]. rewrite Hc1 in He1, Hl1, Hn1. simpl in He1, Hl1, Hn1.
    simpl fst. simpl snd. unfold erase_f in *. simpl map. rewrite He0, He1.
    split; [reflexivity|]. split.
    + rewrite locs_f_cons. simpl locs. fold (locs_f cs0'). unfold locs_f in *. rewrite Hl0, Hl1, Hn0.
      simpl list_sum. simpl seq. f_equal. rewrite seq_app. reflexivity.
    + simpl. lia.
Qed.

Lemma copy_node_spec (n : node) (nx : loc) :
  erase (fst (copy_node n nx)) = erase n
  /\ locs (fst (copy_node n nx)) = seq nx (size n)
  /\ snd (copy_node n nx) = nx + size n
  /\ loc_of (fst (copy_node n nx)) = nx.
Proof.
  destruct n as [l v s|l nm cs].
  - simpl. split; [reflexivity|]. split; [reflexivity|]. split; [lia|reflexivity].
  - rewrite copy_node_tag. destruct (copy_f cs (S nx)) as [cs' nx'] eqn:Hc.
    destruct (copy_f_spec cs (S nx)) as [He [Hl Hn]]. rewrite Hc in He, Hl, Hn. simpl in He, Hl, Hn.
    simpl. unfold erase_f, locs_f in *. rewrite He, Hl, Hn.
    split; [reflexivity|]. split; [reflexivity|]. split; [lia|reflexivity].
Qed.

(** *** Fragments without locations *)

Lemma markup_list_ind (P : markup -> Prop) (Q : list markup -> Prop) :
  (forall v s, P (MStr v s)) ->
  (forall nm cs, Q cs -> P (MTag nm cs)) ->
  Q [] ->
  (forall c cs, P c -> Q cs -> Q (c :: cs)) ->
  forall m, P m.
Proof.
  intros Hstr Htag Hnil Hcons.
  fix IH 1. intros [v s|nm cs].
  - apply Hstr.
  - apply Htag. induction cs as [|c cs IHcs].
    + exact Hnil.
    + apply Hcons; [apply IH|exact IHcs].
Qed.

Lemma mforest_ind (P : list markup -> Prop) :
  P [] ->
  (forall v s ms, P ms -> P (MStr v s :: ms)) ->
  (forall nm ms0 ms, P ms0 -> P ms -> P (MTag nm ms0 :: ms)) ->
  forall ms, P ms.
Proof.
  intros Hnil Hstr Htag ms.
  assert (Hm : forall m, forall ms, P ms -> P (m :: ms)).
  { intros m. apply (markup_list_ind (fun m => forall ms, P ms -> P (m :: ms)) P).
    - intros v s ms'. apply Hstr.
    - intros nm ms0 Hms0 ms'. apply Htag. exact Hms0.
    - exact Hnil.
    - intros c cs' Hc Hcs'. apply Hc. exact Hcs'. }
  induction ms as [|m ms IH]; [exact Hnil|apply Hm, IH].
Qed.

Lemma tags_f_erase (p : string -> bool) (cs : list node) :
  length (tags_f p cs) = length (flat_map (mtags p) (erase_f cs)).
Proof.
  induction cs as [|l v s cs IH|l nm cs0 cs IH0 IH] using forest_ind.
  - reflexivity.
  - rewrite tags_f_cons. simpl. exact IH.
  - rewrite tags_f_cons. unfold erase_f in *. simpl. fold (tags_f p cs0).
    rewrite !length_app, IH0, IH. destruct (p nm); reflexivity.
Qed.

Lemma tags_f_nil (p : string -> bool) (cs : list node) :
  flat_map (mtags p) (erase_f cs) = [] -> tags_f p cs = [].
Proof.
  intros H. apply length_zero_iff_nil. rewrite tags_f_erase, H. reflexivity.
Qed.

Lemma mtags_replace_colon (ms : list markup) :
  flat_map (mtags has_colon) (map replace_colon ms) = [].
Proof.
  induction ms as [|v s ms IH|nm ms0 ms IH0 IH] using mforest_ind.
  - reflexivity.
  - simpl. exact IH.
  - simpl. destruct (has_colon nm) eqn:Hc; simpl; [exact IH|].
    rewrite Hc, IH0, IH. reflexivity.
Qed.

Lemma mtags_unwrap_wrappers (ms : list markup) :
  flat_map (mtags is_wrapper) (flat_map unwrap_wrappers ms) = [].
Proof.
  induction ms as [|v s ms IH|nm ms0 ms IH0 IH] using mforest_ind.
  - reflexivity.
  - simpl. exact IH.
  - simpl. rewrite flat_map_app, IH. destruct (is_wrapper nm) eqn:Hw; simpl.
    + rewrite IH0. reflexivity.
    + rewrite Hw, IH0. reflexivity.
Qed.

Lemma mtags_unwrap_none (p : string -> bool) (ms : list markup) :
  flat_map (mtags p) ms = [] ->
  flat_map (mtags p) (flat_map unwrap_wrappers ms) = [].
Proof.
  induction ms as [|v s ms IH|nm ms0 ms IH0 IH] using mforest_ind.
  - reflexivity.
  - simpl. exact IH.
  - simpl. intros H. apply app_eq_nil in H as [H H1]. apply app_eq_nil in H as [Hp H0].
    rewrite flat_map_app, (IH H1), app_nil_r.
    destruct (is_wrapper nm); simpl; [apply IH0, H0|].
    rewrite Hp, (IH0 H0). reflexivity.
Qed.

Lemma replace_colon_none (ms : list markup) :
  flat_map (mtags has_colon) ms = [] -> map replace_colon ms = ms.
Proof.
  induction ms as [|v s ms IH|nm ms0 ms IH0 IH] using mforest_ind.
  - reflexivity.
  - simpl. intros H. rewrite (IH H). reflexivity.
  - simpl. intros H. apply app_eq_nil in H as [H H1]. apply app_eq_nil in H as [Hp H0].
    destruct (has_colon nm); [discriminate|].
    rewrite (IH0 H0), (IH H1). reflexivity.
Qed.

Lemma unwrap_wrappers_none (ms : list markup) :
  flat_map (mtags is_wrapper) ms = [] -> flat_map unwrap_wrappers ms = ms.
Proof.
  induction ms as [|v s ms IH|nm ms0 ms IH0 IH] using mforest_ind.
  - reflexivity.
  - simpl. intros H. rewrite (IH H). reflexivity.
  - simpl. intros H. apply app_eq_nil in H as [H H1]. apply app_eq_nil in H as [Hp H0].
    destruct (is_wrapper nm); [discriminate|].
    rewrite (IH0 H0), (IH H1). reflexivity.
Qed.

(** The normalizer of the specification is idempotent. *)
Lemma normalize_markup_idempotent (m : markup) :
  normalize_markup (normalize_markup m) = normalize_markup m.
Proof.
  destruct m as [v s|nm ms]; [reflexivity|]. simpl. f_equal.
  rewrite replace_colon_none.
  - apply unwrap_wrappers_none, mtags_unwrap_wrappers.
  - apply mtags_unwrap_none, mtags_replace_colon.
Qed.

(** *** The two loops on a fresh copy *)

Lemma normalize_shape (st : store) (olds : list node) (tc : loc) (nm : string)
    (cs : list node) (n0 : loc) :
  roots st = olds ++ [Tag tc nm cs] ->
  (forall x, x ∈ locs_f olds -> x < n0) ->
  NoDup (tc :: locs_f cs) ->
  (forall x, x ∈ tc :: locs_f cs -> n0 <= x < next st) ->
  exists st' cs' dets',
    normalize tc st = Ok st'
    /\ roots st' = olds ++ Tag tc nm cs' :: dets'
    /\ erase_f cs' = flat_map unwrap_wrappers (map replace_colon (erase_f cs))
    /\ find_store tc st' = Some (Tag tc nm cs').
Proof.
  intros Hsh Holds Hnd Hrange. apply NoDup_cons in Hnd as [Htc Hnd].
  assert (Htc0 : tc ∉ locs_f olds).
  { intros Hin. apply Holds in Hin. assert (n0 <= tc < next st) by (apply Hrange; left). lia. }
  assert (Hfresh : fresh_above (next st) cs).
  { split; [exact Hnd|]. intros x Hx. apply Hrange. right. exact Hx. }
  unfold normalize, find_all_at.
  rewrite (find_store_copy st olds tc nm cs [] Hsh Htc0). simpl find_all.
  destruct (replace_each_shape (tags_f has_colon cs) st olds tc nm cs [] Hsh)
    as [st1 [dets1 [Hrep [Hsh1 [Hnx1 Hd1]]]]].
  { apply tags_f_NoDup, Hnd. }
  { intros l Hl. apply tags_f_locs in Hl. split; [|split].
    - intros Hin. apply Holds in Hin.
      assert (n0 <= l < next st) by (apply Hrange; right; exact Hl). lia.
    - intros ->. contradiction.
    - intros Hin. inversion Hin. }
  rewrite Hrep.
  set (cs1 := splice_each new_string (tags_f has_colon cs) (next st) cs) in *.
  destruct (splice_each_new_string_inv (tags_f has_colon cs) (next st) cs Hfresh)
    as [[Hnd1 Hlt1] Hgone1].
  { intros l Hl. apply tags_f_locs in Hl. apply Hrange. right. exact Hl. }
  fold cs1 in Hnd1, Hlt1, Hgone1.
  rewrite (find_store_copy st1 olds tc nm cs1 dets1 Hsh1 Htc0). simpl find_all.
  assert (Hcs1 : forall x, x ∈ locs_f cs1 -> x ∈ locs_f cs \/ next st <= x).
  { intros x Hx. apply splice_each_new_string_locs in Hx. exact Hx. }
  destruct (unwrap_each_shape (tags_f is_wrapper cs1) st1 olds tc nm cs1 dets1 0 Hsh1)
    as [st2 [dets2 [Hun [Hsh2 Hnx2]]]].
  { apply tags_f_NoDup, Hnd1. }
  { intros l Hl. apply tags_f_locs in Hl. split; [|split].
    - intros Hin. apply Holds in Hin. apply Hcs1 in Hl as [Hl|Hl].
      + assert (n0 <= l < next st) by (apply Hrange; right; exact Hl). lia.
      + assert (n0 <= tc < next st) by (apply Hrange; left). lia.
    - intros ->. apply Hcs1 in Hl as [Hl|Hl]; [contradiction|].
      assert (n0 <= tc < next st) by (apply Hrange; left). lia.
    - intros Hin. apply Hd1 in Hin as [Hin|Hin]; [|inversion Hin].
      apply (Hgone1 l Hin Hl). }
  exists st2, (splice_each children (tags_f is_wrapper cs1) 0 cs1), dets2.
  split; [exact Hun|]. split; [exact Hsh2|]. split.
  - rewrite unwrap_each_erase by exact Hnd1. unfold cs1.
    rewrite replace_each_erase by exact Hfresh. reflexivity.
  - apply (find_store_copy st2 olds tc nm _ dets2 Hsh2 Htc0).
Qed.

(** The loops find nothing to do on a normalized copy. *)
Lemma normalize_again (st : store) (tc : loc) (nm : string) (cs ms : list node) :
  find_store tc st = Some (Tag tc nm cs) ->
  erase_f cs = flat_map unwrap_wrappers (map replace_colon (erase_f ms)) ->
  normalize tc st = Ok st.
Proof.
  intros Hf He. unfold normalize, find_all_at. rewrite Hf. simpl find_all.
  rewrite (tags_f_nil has_colon cs).
  - simpl. rewrite Hf. simpl find_all. rewrite (tags_f_nil is_wrapper cs); [reflexivity|].
    rewrite He. apply mtags_unwrap_wrappers.
  - rewrite He. apply mtags_unwrap_none, mtags_replace_colon.
Qed.

Lemma bounded_fresh (st : store) (l : loc) : bounded st -> next st <= l -> l ∉ locs_f (roots st).
Proof. intros Hb Hl Hin. apply Hb in Hin. lia. Qed.

Lemma bounded_store_of (soup : node) : bounded (Tables.store_of soup).
Proof.
  intros x Hx. unfold Tables.store_of in *. cbn [roots next] in *.
  simpl in Hx. rewrite app_nil_r in Hx.
  assert (H : Forall (fun k => k <= list_max (locs soup)) (locs soup))
    by (apply list_max_le; lia).
  rewrite Forall_forall in H. apply H in Hx. lia.
Qed.

(** A copy followed by the two loops: the result in full. *)
Lemma copy_and_normalize_spec (st : store) (table : loc) (t : node) :
  bounded st -> find_store table st = Some t ->
  exists st' c extra,
    copy_and_normalize table st = Ok (next st, st')
    /\ roots st' = roots st ++ c :: extra
    /\ find_store (next st) st' = Some c
    /\ erase c = normalize_markup (erase t)
    /\ normalize (next st) st' = Ok st'
    /\ bounded st'.
Proof.
  intros Hb Hfind. unfold copy_and_normalize, copy. rewrite Hfind.
  destruct (copy_node t (next st)) as [c nx] eqn:Hc.
  destruct (copy_node_spec t (next st)) as [He [Hl [Hn Hloc]]].
  rewrite Hc in He, Hl, Hn, Hloc. simpl in He, Hl, Hn, Hloc.
  set (st1 := mkStore (roots st ++ [c]) nx).
  assert (Hb1 : bounded st1).
  { intros x. unfold st1. cbn [roots next]. rewrite locs_f_app, elem_of_app. intros [Hx|Hx].
    - apply Hb in Hx. lia.
    - simpl in Hx. rewrite app_nil_r, Hl in Hx. apply elem_of_seq in Hx. lia. }
  assert (Htc : next st ∉ locs_f (roots st)) by (apply bounded_fresh; [exact Hb|lia]).
  destruct c as [l v s|l nm cs]; simpl in Hloc; subst l.
  - assert (Hf1 : find_store (next st) st1 = Some (Str (next st) v s)).
    { unfold find_store, st1. cbn [roots]. rewrite find_f_app_r by exact Htc.
      simpl. rewrite Nat.eqb_refl. reflexivity. }
    assert (Hn1 : normalize (next st) st1 = Ok st1).
    { unfold normalize, find_all_at. rewrite Hf1. simpl. rewrite Hf1. reflexivity. }
    rewrite Hn1. exists st1, (Str (next st) v s), [].
    split; [reflexivity|]. split; [reflexivity|]. split; [exact Hf1|].
    split; [|split; [exact Hn1|exact Hb1]].
    destruct t as [l' v' s'|l' nm' cs']; [|discriminate He].
    simpl in *. exact He.
  - assert (Hnd : NoDup (next st :: locs_f cs)).
    { change (next st :: locs_f cs) with (locs (Tag (next st) nm cs)). rewrite Hl. apply NoDup_seq. }
    assert (Hrange : forall x, x ∈ next st :: locs_f cs -> next st <= x < next st1).
    { intros x Hx. change (next st :: locs_f cs) with (locs (Tag (next st) nm cs)) in Hx.
      rewrite Hl in Hx. apply elem_of_seq in Hx. unfold st1. cbn [next]. lia. }
    destruct (normalize_shape st1 (roots st) (next st) nm cs (next st) eq_refl Hb Hnd Hrange)
      as [st2 [cs2 [dets2 [Hnorm [Hroots [Herase Hf2]]]]]].
    rewrite Hnorm. exists st2, (Tag (next st) nm cs2), dets2.
    split; [reflexivity|]. split; [exact Hroots|]. split; [exact Hf2|].
    split; [|split].
    + destruct t as [l' v' s'|l' nm' cs']; [discriminate He|].
      simpl in He. injection He as <- He. simpl. f_equal.
      fold (erase_f cs2). rewrite Herase. unfold erase_f. rewrite He. reflexivity.
    + apply (normalize_again st2 (next st) nm cs2 cs Hf2 Herase).
    + apply (normalize_bounded _ _ _ Hnorm Hb1).
Qed.

(** C4.  The two loops run on a duplicate: every tree the store held
    before, the tree of the caller among them, is the same afterwards,
    at the same place, and every reference into it finds the same
    element as before, the table itself and its sibling tables
    included. *)
Theorem normalizing_leaves_tree_unchanged (st : store) (table : loc) (t : node) :
  bounded st -> find_store table st = Some t ->
  exists table_copy st',
    copy_and_normalize table st = Ok (table_copy, st')
    /\ (exists extra, roots st' = roots st ++ extra)
    /\ (forall l n, find_store l st = Some n -> find_store l st' = Some n).
Proof.
  intros Hb Hfind.
  destruct (copy_and_normalize_spec st table t Hb Hfind)
    as [st' [c [extra [Hrun [Hroots _]]]]].
  exists (next st), st'. split; [exact Hrun|]. split.
  - exists (c :: extra). exact Hroots.
  - intros l n Hl. unfold find_store in *. rewrite Hroots. apply find_f_app_l, Hl.
Qed.

Lemma normalizing_leaves_tree_unchanged_witness :
  let t := Tag 1 "table" [Tag 2 "div" [Str 3 true (lit "x")]] in
  let st := Tables.store_of (Tag 0 "[document]" [t; Tag 4 "table" []]) in
  bounded st /\ find_store 1 st = Some t
  /\ exists table_copy st',
       copy_and_normalize 1 st = Ok (table_copy, st')
       /\ find_store 1 st' = Some t
       /\ find_store 4 st' = Some (Tag 4 "table" []).
Proof.
  intros t st.
  assert (Hb : bounded st) by apply bounded_store_of.
  assert (Hf : find_store 1 st = Some t) by reflexivity.
  split; [exact Hb|]. split; [exact Hf|].
  destruct (normalizing_leaves_tree_unchanged st 1 t Hb Hf) as [tc [st' [Hrun [_ Hkeep]]]].
  exists tc, st'. split; [exact Hrun|]. split; apply Hkeep; reflexivity.
Defined.

(** C3.  The normalizer is idempotent: on the copy of any fragment the
    two loops succeed, and running them a second time on their own
    output succeeds and leaves the store as it is; the same holds for
    the normalizer in the words of the specification. *)
Theorem normalize_idempotent (st : store) (table : loc) (t : node) :
  bounded st -> find_store table st = Some t ->
  (exists table_copy st1 st2,
      copy table st = Ok (table_copy, st1)
      /\ normalize table_copy st1 = Ok st2
      /\ normalize table_copy st2 = Ok st2
      /\ Tables.markup_at table_copy st2 = normalize_markup (erase t))
  /\ normalize_markup (normalize_markup (erase t)) = normalize_markup (erase t).
Proof.
  intros Hb Hfind. split; [|apply normalize_markup_idempotent].
  destruct (copy_and_normalize_spec st table t Hb Hfind)
    as [st' [c [extra [Hrun [_ [Hf [He [Hagain _]]]]]]]].
  unfold copy_and_normalize in Hrun.
  destruct (copy table st) as [[tc st1]|e] eqn:Hcopy; [|discriminate].
  destruct (normalize tc st1) as [st2|e] eqn:Hnorm; [|discriminate].
  injection Hrun as -> ->.
  exists (next st), st1, st'. split; [reflexivity|]. split; [exact Hnorm|].
  split; [exact Hagain|]. unfold Tables.markup_at. rewrite Hf. exact He.
Qed.

Lemma normalize_idempotent_witness :
  let t := Tag 1 "table" [Tag 2 "ix:nonfraction" [Tag 3 "span" [Str 4 true (lit "12")]]] in
  let st := Tables.store_of (Tag 0 "[document]" [t]) in
  bounded st /\ find_store 1 st = Some t
  /\ exists table_copy st1 st2,
       copy 1 st = Ok (table_copy, st1)
       /\ normalize table_copy st1 = Ok st2
       /\ normalize table_copy st2 = Ok st2.
Proof.
  intros t st.
  assert (Hb : bounded st) by apply bounded_store_of.
  assert (Hf : find_store 1 st = Some t) by reflexivity.
  split; [exact Hb|]. split; [exact Hf|].
  destruct (normalize_idempotent st 1 t Hb Hf) as [[tc [st1 [st2 [H1 [H2 [H3 _]]]]]] _].
  exists tc, st1, st2. split; [exact H1|]. split; [exact H2|exact H3].
Defined.

(** Without the copy the tree of the caller is changed: the loops run on
    the table itself unwrap its elements in place. *)
Lemma normalize_in_place_changes_tree :
  let soup := Tag 0 "[document]" [Tag 1 "table" [Tag 2 "div" [Str 3 true (lit "x")]]] in
  exists st', normalize 1 (Tables.store_of soup) = Ok st'
              /\ find_store 0 st' = Some (Tag 0 "[document]" [Tag 1 "table" [Str 3 true (lit "x")]]).
Proof.
  eexists. split; vm_compute; reflexivity.
Qed.

End NormalizerFacts.

(** ** The table loop *)

Module TableLoopFacts.
Import Dom Normalizer Tables Pipeline DomFacts NormalizerFacts.

Lemma find_store_store_of (soup : node) (l : loc) :
  find_store l (store_of soup) = find_node l soup.
Proof.
  unfold find_store, store_of. simpl. destruct (find_node l soup); reflexivity.
Qed.

Lemma find_all_found (p : string -> bool) (soup : node) (l : loc) :
  l ∈ find_all p soup -> is_Some (find_node l soup).
Proof.
  destruct soup as [l0 v s|l0 nm cs]; simpl find_all; [intros H; inversion H|].
  intros Hl. rewrite find_node_tag. destruct (l0 =? l); [eexists; reflexivity|].
  apply tags_f_locs in Hl. destruct (find_f l cs) eqn:Hf; [eexists; reflexivity|].
  apply find_f_None in Hf. contradiction.
Qed.

Lemma omap_found {A B : Type} (f : A -> option B) (ls : list A) :
  (forall l, l ∈ ls -> is_Some (f l)) ->
  Forall2 (fun l t => f l = Some t) ls (omap f ls).
Proof.
  induction ls as [|l ls IH]; intros H; simpl; [constructor|].
  destruct (H l) as [t Ht]; [left|]. rewrite Ht. constructor; [exact Ht|].
  apply IH. intros l' Hl'. apply H. right. exact Hl'.
Qed.

Lemma table_elements_found (soup : node) :
  Forall2 (fun l t => find_store l (store_of soup) = Some t)
    (find_tables soup) (table_elements soup).
Proof.
  unfold table_elements.
  eapply Forall2_impl; [apply omap_found|].
  - intros l Hl. apply (find_all_found _ _ _ Hl).
  - intros l t Hlt. rewrite find_store_store_of. exact Hlt.
Qed.

Section Loop.

Variable render : markup -> text.
Variable read_html : text -> result (list dataframe).

(** One iteration never raises, and what it adds comes from the markup
    of its own table. *)
Lemma table_iter_spec (i : nat) (table : loc) (s : loop_state) (t : node) :
  bounded (objects s) -> find_store table (objects s) = Some t ->
  exists s',
    table_iter render read_html i table s = Ok s'
    /\ valid_dfs s' = valid_dfs s ++ option_list (table_grid render read_html i t)
    /\ bounded (objects s')
    /\ forall l n, find_store l (objects s) = Some n -> find_store l (objects s') = Some n.
Proof.
  intros Hb Hfind.
  destruct (copy_and_normalize_spec (objects s) table t Hb Hfind)
    as [st' [c [extra [Hrun [Hroots [Hf [He [_ Hb']]]]]]]].
  unfold table_iter. rewrite Hrun.
  assert (Hm : markup_at (next (objects s)) st' = normalize_markup (erase t))
    by (unfold markup_at; rewrite Hf; exact He).
  rewrite Hm. unfold table_grid.
  destruct (parse_table render read_html i (normalize_markup (erase t))) as [df ms].
  eexists. split; [reflexivity|]. simpl. split; [reflexivity|]. split; [exact Hb'|].
  intros l n Hl. unfold find_store in *. rewrite Hroots. apply find_f_app_l, Hl.
Qed.

Lemma table_loop_spec (tables : list loc) (ts : list node) (i : nat) (s : loop_state) :
  Forall2 (fun l t => find_store l (objects s) = Some t) tables ts ->
  bounded (objects s) ->
  exists s',
    table_loop render read_html i tables s = Ok s'
    /\ valid_dfs s' = valid_dfs s ++ grids render read_html i ts.
Proof.
  intros HF. revert i s HF. revert ts.
  induction tables as [|table tables IH]; intros ts i s HF Hb.
  - inversion HF; subst. exists s. simpl. rewrite app_nil_r. split; reflexivity.
  - inversion HF as [|? t ? ts' Hfind HF']; subst.
    destruct (table_iter_spec i table s t Hb Hfind) as [s1 [Hiter [Hdfs [Hb1 Hkeep]]]].
    simpl. rewrite Hiter.
    destruct (IH ts' (S i) s1) as [s2 [Hloop Hdfs2]]; [|exact Hb1|].
    { eapply Forall2_impl; [exact HF'|]. intros l n Hl. apply Hkeep, Hl. }
    exists s2. split; [exact Hloop|]. rewrite Hdfs2, Hdfs, <- app_assoc. reflexivity.
Qed.

Lemma grids_app (ts1 ts2 : list node) (i : nat) :
  grids render read_html i (ts1 ++ ts2)
  = grids render read_html i ts1 ++ grids render read_html (i + length ts1) ts2.
Proof.
  revert i. induction ts1 as [|t ts1 IH]; intros i; simpl.
  - rewrite Nat.add_0_r. reflexivity.
  - rewrite IH, <- app_assoc. do 3 f_equal. lia.
Qed.

Lemma table_grid_parse_failure (i : nat) (t : node) (e : exn) :
  read_html (table_html render (normalize_markup (erase t))) = Raise e ->
  table_grid render read_html i t = None.
Proof.
  intros H. unfold table_grid, parse_table. rewrite H. destruct e; reflexivity.
Qed.

(** A table that the parser accepts has the trimmed grid as its grid
    when that grid passes the test of line 153. *)
Lemma table_grid_accepted (i : nat) (t : node) (df : dataframe) (rest : list dataframe) :
  read_html (table_html render (normalize_markup (erase t))) = Ok (df :: rest) ->
  valid (trim df) = true ->
  table_grid render read_html i t = Some (trim df).
Proof.
  intros H Hv. unfold table_grid, parse_table. rewrite H, Hv. reflexivity.
Qed.

(** A table for which the parser returns no grid, or a grid that does
    not pass the test of line 153, has no grid. *)
Lemma table_grid_filtered (i : nat) (t : node) (dfs : list dataframe) :
  read_html (table_html render (normalize_markup (erase t))) = Ok dfs ->
  match dfs with
  | [] => True
  | df :: _ => valid (trim df) = false
  end ->
  table_grid render read_html i t = None.
Proof.
  intros H Hv. unfold table_grid, parse_table. rewrite H.
  destruct dfs as [|df rest]; [reflexivity|]. rewrite Hv. reflexivity.
Qed.

Section Writer.

Variable writable : text -> bool.
Variable to_excel : text -> dataframe -> excel_outcome.

(** When no call of [to_excel] raises, the loop of lines 164-165 writes
    every grid, each to the sheet of its own number. *)
Lemma write_sheets_all_written (i : nat) (dfs : list dataframe) :
  (forall k df, dfs !! k = Some df -> to_excel (sheet_name (i + k)) df = Written) ->
  write_sheets to_excel i dfs = (imap (fun k df => (sheet_name (i + k), df)) dfs, None).
Proof.
  revert i. induction dfs as [|df dfs IH]; intros i H; [reflexivity|].
  assert (H0 : to_excel (sheet_name i) df = Written).
  { rewrite <- (Nat.add_0_r i). apply (H 0). reflexivity. }
  cbn [write_sheets]. rewrite H0, (IH (S i)).
  - cbn [imap]. rewrite Nat.add_0_r. f_equal. f_equal.
    apply imap_ext. intros k x _. unfold compose.
    replace (i + S k) with (S i + k) by lia. reflexivity.
  - intros k x Hk. replace (S i + k) with (i + S k) by lia. apply (H (S k)), Hk.
Qed.

Lemma extract_tables_never_raises (soup : node) (path : text) (w : world) :
  fst (_extract_tables_to_excel render read_html writable to_excel soup path w) = Ok tt.
Proof.
  unfold _extract_tables_to_excel.
  destruct (find_tables soup) as [|table tables] eqn:Htables; [reflexivity|].
  destruct (table_loop_spec (table :: tables) (table_elements soup) 0
              (mkLoop [] [] (store_of soup))) as [s [Hloop _]].
  { rewrite <- Htables. apply table_elements_found. }
  { apply bounded_store_of. }
  rewrite Hloop. unfold bind, print_all, try_except, write_workbook, print.
  destruct (valid_dfs s) as [|df dfs]; [reflexivity|].
  destruct (writable path); [|reflexivity].
  destruct (write_sheets to_excel 0 (df :: dfs)) as [ss [e|]]; reflexivity.
Qed.

(** When the file can be created and no call of [to_excel] raises, the
    workbook written holds the kept grids as its sheets, and the line of
    line 166 is printed. *)
Lemma extract_tables_writes_sheets (soup : node) (s : loop_state) (path : text) (w : world) :
  table_loop render read_html 0 (find_tables soup) (mkLoop [] [] (store_of soup)) = Ok s ->
  valid_dfs s <> [] ->
  writable path = true ->
  (forall k df, valid_dfs s !! k = Some df -> to_excel (sheet_name k) df = Written) ->
  _extract_tables_to_excel render read_html writable to_excel soup path w
  = (Ok tt, mkWorld ((path, Workbook (sheets (valid_dfs s))) :: files w)
              (out w ++ printed s ++ [MsgTablesWritten (length (valid_dfs s)) path])).
Proof.
  intros Hloop Hne Hw Hex. unfold _extract_tables_to_excel.
  destruct (find_tables soup) as [|table tables] eqn:Htables.
  - cbn in Hloop. injection Hloop as <-. exfalso. apply Hne. reflexivity.
  - rewrite Hloop. unfold bind, print_all, try_except, write_workbook, print.
    destruct (valid_dfs s) as [|df dfs] eqn:Hdfs; [contradiction|].
    cbn [files out]. rewrite Hw.
    rewrite (write_sheets_all_written 0 (df :: dfs)) by exact Hex.
    cbn [files out]. rewrite <- app_assoc. reflexivity.
Qed.

End Writer.

End Loop.

Lemma sheets_lookup (dfs : list dataframe) (k : nat) (df : dataframe) :
  dfs !! k = Some df -> sheets dfs !! k = Some (lit "Table_" ++ decimal (k + 1), df).
Proof.
  intros H. unfold sheets. rewrite list_lookup_imap, H. reflexivity.
Qed.

(** The scenario of the specification: a table the parser rejects and a
    table of 2 rows and 2 columns give one sheet, "Table_1". *)
Example one_malformed_one_valid :
  let df := mkDataFrame [lit "a"; lit "b"]
              [[Some (lit "1"); Some (lit "2")]; [Some (lit "3"); Some (lit "4")]] in
  let render := fun m : markup =>
    match m with
    | MTag _ [] => lit "<table></table>"
    | _ => lit "<table><tr><td>1</td></tr></table>"
    end in
  let read_html := fun s : text =>
    if contains (lit "<tr>") s then Ok [df] else Raise ValueError in
  let soup :=
    Tag 0 "[document]"
      [Tag 1 "table" [];
       Tag 2 "table" [Tag 3 "tr" [Tag 4 "td" [Tag 5 "span" [Str 6 true (lit "1")]]]]] in
  _extract_tables_to_excel render read_html (fun _ => true) (fun _ _ => Written)
    soup (lit "t.xlsx") (mkWorld [] [])
  = (Ok tt, mkWorld [(lit "t.xlsx", Workbook [(lit "Table_1", df)])]
              [MsgTablesWritten 1 (lit "t.xlsx")]).
Proof. vm_compute. reflexivity. Qed.

(** C8.  The loop over the tables of a document never raises; the grids
    it keeps are those of the tables that have one, each computed from
    the markup of its own table, in document order; a table that the
    parser rejects has no grid, and the tables before and after it keep
    theirs; a table that the parser accepts, with a grid that passes the
    test of line 153, has that grid among the kept ones, at its place
    between those of the tables before and after it, and one whose grid
    does not pass the test has none; the sheet of the
    [k]-th kept grid (from 0) is named "Table_" followed by [k + 1]; the
    function as a whole returns normally; and when the file can be
    created and no call of [to_excel] raises, the workbook written holds
    exactly the kept grids as its sheets, in order. *)
Theorem tables_parsed_independently
    (render : markup -> text) (read_html : text -> result (list dataframe)) (soup : node) :
  exists s,
    table_loop render read_html 0 (find_tables soup) (mkLoop [] [] (store_of soup)) = Ok s
    /\ length (table_elements soup) = length (find_tables soup)
    /\ valid_dfs s = grids render read_html 0 (table_elements soup)
    /\ (forall ts1 t ts2 e,
          table_elements soup = ts1 ++ t :: ts2 ->
          read_html (table_html render (normalize_markup (erase t))) = Raise e ->
          valid_dfs s = grids render read_html 0 ts1
                        ++ grids render read_html (S (length ts1)) ts2)
    /\ (forall ts1 t ts2 df rest,
          table_elements soup = ts1 ++ t :: ts2 ->
          read_html (table_html render (normalize_markup (erase t))) = Ok (df :: rest) ->
          valid (trim df) = true ->
          valid_dfs s = grids render read_html 0 ts1
                        ++ trim df :: grids render read_html (S (length ts1)) ts2)
    /\ (forall ts1 t ts2 df rest,
          table_elements soup = ts1 ++ t :: ts2 ->
          read_html (table_html render (normalize_markup (erase t))) = Ok (df :: rest) ->
          valid (trim df) = false ->
          valid_dfs s = grids render read_html 0 ts1
                        ++ grids render read_html (S (length ts1)) ts2)
    /\ (forall k df, valid_dfs s !! k = Some df ->
          sheets (valid_dfs s) !! k = Some (lit "Table_" ++ decimal (k + 1), df))
    /\ length (sheets (valid_dfs s)) = length (valid_dfs s)
    /\ (forall writable to_excel path w,
          fst (_extract_tables_to_excel render read_html writable to_excel soup path w) = Ok tt)
    /\ (forall writable to_excel path w,
          valid_dfs s <> [] ->
          writable path = true ->
          (forall k df, valid_dfs s !! k = Some df -> to_excel (sheet_name k) df = Written) ->
          _extract_tables_to_excel render read_html writable to_excel soup path w
          = (Ok tt, mkWorld ((path, Workbook (sheets (valid_dfs s))) :: files w)
                      (out w ++ printed s ++ [MsgTablesWritten (length (valid_dfs s)) path]))).
Proof.
  destruct (table_loop_spec render read_html (find_tables soup) (table_elements soup) 0
              (mkLoop [] [] (store_of soup)) (table_elements_found soup) (bounded_store_of soup))
    as [s [Hloop Hdfs]].
  simpl in Hdfs. exists s. split; [exact Hloop|]. split; [|split; [exact Hdfs|]].
  - symmetry. eapply Forall2_length, table_elements_found.
  - split; [|split; [|split; [|split; [|split; [|split]]]]].
    + intros ts1 t ts2 e Hts He. rewrite Hdfs, Hts, grids_app. simpl.
      rewrite (table_grid_parse_failure render read_html _ t e He). reflexivity.
    + intros ts1 t ts2 df rest Hts Hread Hv. rewrite Hdfs, Hts, grids_app. simpl.
      rewrite (table_grid_accepted render read_html _ t df rest Hread Hv). reflexivity.
    + intros ts1 t ts2 df rest Hts Hread Hv. rewrite Hdfs, Hts, grids_app. simpl.
      rewrite (table_grid_filtered render read_html _ t (df :: rest) Hread Hv). reflexivity.
    + intros k df Hk. apply sheets_lookup, Hk.
    + unfold sheets. apply length_imap.
    + intros writable to_excel path w. apply extract_tables_never_raises.
    + intros writable to_excel path w Hne Hw Hex.
      apply (extract_tables_writes_sheets render read_html writable to_excel soup s path w
               Hloop Hne Hw Hex).
Qed.

(** The scenario of the specification through the theorem: the table the
    parser rejects has no sheet, the table of 2 rows and 2 columns after
    it is the only kept grid and the workbook holds it as "Table_1". *)
Lemma tables_parsed_independently_witness :
  let df := mkDataFrame [lit "a"; lit "b"]
              [[Some (lit "1"); Some (lit "2")]; [Some (lit "3"); Some (lit "4")]] in
  let render := fun m : markup =>
    match m with
    | MTag _ [] => lit "<table></table>"
    | _ => lit "<table><tr><td>1</td></tr></table>"
    end in
  let read_html := fun s : text =>
    if contains (lit "<tr>") s then Ok [df] else Raise ValueError in
  let malformed := Tag 1 "table" [] in
  let good := Tag 2 "table" [Tag 3 "tr" [Tag 4 "td" [Tag 5 "span" [Str 6 true (lit "1")]]]] in
  let soup := Tag 0 "[document]" [malformed; good] in
  table_elements soup = [malformed] ++ good :: []
  /\ read_html (table_html render (normalize_markup (erase malformed))) = Raise ValueError
  /\ read_html (table_html render (normalize_markup (erase good))) = Ok [df]
  /\ trim df = df
  /\ exists s,
       table_loop render read_html 0 (find_tables soup) (mkLoop [] [] (store_of soup)) = Ok s
       /\ valid_dfs s = [df]
       /\ _extract_tables_to_excel render read_html (fun _ => true) (fun _ _ => Written)
            soup (lit "t.xlsx") (mkWorld [] [])
          = (Ok tt, mkWorld [(lit "t.xlsx", Workbook [(lit "Table_1", df)])]
                      (printed s ++ [MsgTablesWritten 1 (lit "t.xlsx")])).
Proof.
  intros df render read_html malformed good soup.
  assert (Hts : table_elements soup = [malformed] ++ good :: []) by reflexivity.
  assert (Hbad : read_html (table_html render (normalize_markup (erase malformed)))
                 = Raise ValueError) by (vm_compute; reflexivity).
  assert (Hgood : read_html (table_html render (normalize_markup (erase good))) = Ok [df])
    by (vm_compute; reflexivity).
  assert (Htrim : trim df = df) by (vm_compute; reflexivity).
  assert (Hvalid : valid (trim df) = true) by (vm_compute; reflexivity).
  split; [exact Hts|]. split; [exact Hbad|]. split; [exact Hgood|]. split; [exact Htrim|].
  destruct (tables_parsed_independently render read_html soup)
    as [s [Hloop [_ [_ [_ [Hacc [_ [_ [_ [_ Hwrite]]]]]]]]]].
  assert (Hdfs : valid_dfs s = [df]).
  { rewrite (Hacc [malformed] good [] df [] Hts Hgood Hvalid), Htrim.
    cbn [grids app]. rewrite (table_grid_parse_failure render read_html 0 malformed _ Hbad).
    reflexivity. }
  exists s. split; [exact Hloop|]. split; [exact Hdfs|].
  rewrite (Hwrite (fun _ => true) (fun _ _ => Written) (lit "t.xlsx") (mkWorld [] [])).
  - rewrite Hdfs. reflexivity.
  - rewrite Hdfs. discriminate.
  - reflexivity.
  - intros k x _. reflexivity.
Defined.

End TableLoopFacts.

(** ** Failures while writing the artifacts *)

Module PipelineFacts.
Import Dom Normalizer Narrative Tables Pipeline.

Section Filing.

Variable render : markup -> text.
Variable read_html : text -> result (list dataframe).
Variable parse : text -> node.
Variable fetch : text -> option text.
Variable writable : text -> bool.
Variable to_excel : text -> dataframe -> excel_outcome.

(** A narrative that cannot be written ends the function with the
    exception of [open]. *)
Lemma extract_mda_write_failure (soup : node) (path mda_text : text) (w : world) :
  mda_section soup = Extracted mda_text ->
  writable path = false ->
  _extract_mda_text writable soup path w = (Raise OSError, w).
Proof.
  intros Hs Hw. unfold _extract_mda_text. rewrite Hs.
  unfold bind, write_text. rewrite Hw. reflexivity.
Qed.

(** The exception leaves the filing before its tables are looked at, and
    the loop over the filings before the next filing. *)
Lemma mda_write_failure_propagates cik (r : report) (rest : list report)
    save_path company (w : world) (full_text main_doc_html mda_text : text) :
  path_exists (mda_filename save_path company r) w
    && path_exists (tables_filename save_path company r) w = false ->
  fetch (filing_url cik r) = Some full_text ->
  Selector.select_main_document full_text (form r) = Ok (Selector.Found main_doc_html) ->
  mda_section (parse main_doc_html) = Extracted mda_text ->
  writable (mda_filename save_path company r) = false ->
  process_reports render read_html parse fetch writable to_excel cik (r :: rest)
    save_path company w
  = (Raise OSError, mkWorld (files w) (out w ++ [MsgProcessing (form r) (date r)])).
Proof.
  intros Hex Hfetch Hsel Hsec Hw. simpl. unfold bind at 1.
  unfold _download_and_parse_report. rewrite Hex, Hfetch, Hsel.
  unfold bind at 1. unfold print at 1. unfold bind at 1.
  rewrite (extract_mda_write_failure _ _ mda_text _ Hsec Hw). reflexivity.
Qed.

End Filing.

(** C9.  Two filings, each with a narrative and one table.  When the
    narrative file cannot be written the exception of [open] ends the
    whole run: no workbook is written for the first filing and the
    second filing is never processed.  When it is the workbook that
    cannot be written the failure is printed and the run goes on. *)
Theorem narrative_write_failure_aborts_run :
  let soup :=
    Tag 0 "[document]"
      [Tag 1 "p" [Str 2 true (lit "Management's Discussion and Analysis")];
       Tag 3 "p" [Str 4 true (lit "Revenue grew.")];
       Tag 5 "table" []] in
  let df := mkDataFrame [lit "Year"] [[Some (lit "2023")]; [Some (lit "2024")]] in
  let render := fun _ : markup => lit "<table></table>" in
  let read_html := fun _ : text => Ok [df] in
  let parse := fun _ : text => soup in
  let fetch := fun _ : text => Some (lit "<DOCUMENT><TYPE>10-K</DOCUMENT>") in
  let r1 := mkReport (lit "10-K") (lit "0001-24-000001") (lit "2024-02-01") in
  let r2 := mkReport (lit "10-K") (lit "0001-23-000001") (lit "2023-02-01") in
  let to_excel := fun (_ : text) (_ : dataframe) => Written in
  let run := fun writable =>
    process_reports render read_html parse fetch writable to_excel (lit "1") [r1; r2]
      (lit "out") (lit "ACME") (mkWorld [] []) in
  run (fun path => negb (contains (lit "_MDA.txt") path))
  = (Raise OSError, mkWorld [] [MsgProcessing (lit "10-K") (lit "2024-02-01")])
  /\ fst (run (fun path => negb (contains (lit "_Tables.xlsx") path))) = Ok tt
  /\ out (snd (run (fun path => negb (contains (lit "_Tables.xlsx") path))))
     = [MsgProcessing (lit "10-K") (lit "2024-02-01");
        MsgMdaWritten (lit "out/ACME_10-K_2024-02-01_MDA.txt");
        MsgExcelError OSError;
        MsgProcessing (lit "10-K") (lit "2023-02-01");
        MsgMdaWritten (lit "out/ACME_10-K_2023-02-01_MDA.txt");
        MsgExcelError OSError].
Proof.
  repeat split; vm_compute; reflexivity.
Qed.

End PipelineFacts.

(** ** Texts and lists *)

Module TextFacts.

Lemma ascii_eqb_eq (a b : ascii) : ascii_eqb a b = true <-> a = b.
Proof. unfold ascii_eqb. apply Ascii.eqb_eq. Qed.

Lemma ascii_eqb_refl (a : ascii) : ascii_eqb a a = true.
Proof. apply ascii_eqb_eq. reflexivity. Qed.

Lemma starts_with_app (p s : text) : starts_with p (p ++ s) = true.
Proof.
  induction p as [|a p IH]; simpl; [reflexivity|].
  rewrite ascii_eqb_refl, IH. reflexivity.
Qed.

Lemma starts_with_spec (p s : text) :
  starts_with p s = true <-> exists rest, s = p ++ rest.
Proof.
  split.
  - revert s. induction p as [|a p IH]; intros s H.
    + exists s. reflexivity.
    + destruct s as [|b s]; simpl in H; [discriminate|].
      apply andb_true_iff in H as [Hab H]. apply ascii_eqb_eq in Hab. subst b.
      destruct (IH s H) as [rest ->]. exists rest. reflexivity.
  - intros [rest ->]. apply starts_with_app.
Qed.

Lemma starts_with_take (p s : text) :
  starts_with p s = true -> take (length p) s = p.
Proof.
  intros H. apply starts_with_spec in H as [rest ->].
  rewrite take_app_length. reflexivity.
Qed.

Lemma starts_with_contains (p s : text) :
  starts_with p s = true -> contains p s = true.
Proof. intros H. destruct s; simpl; rewrite H; reflexivity. Qed.

Lemma contains_spec (needle hay : text) :
  contains needle hay = true <-> exists pre post, hay = pre ++ needle ++ post.
Proof.
  split.
  - induction hay as [|c hay IH]; simpl; intros H.
    + rewrite orb_false_r in H. apply starts_with_spec in H as [rest ->].
      exists [], rest. reflexivity.
    + apply orb_true_iff in H as [H|H].
      * apply starts_with_spec in H as [rest ->]. exists [], rest. reflexivity.
      * destruct (IH H) as [pre [post ->]]. exists (c :: pre), post. reflexivity.
  - intros [pre [post ->]]. induction pre as [|c pre IH]; simpl.
    + apply starts_with_contains, starts_with_app.
    + rewrite IH. apply orb_true_r.
Qed.

Lemma contains_trans (a b c : text) :
  contains a b = true -> contains b c = true -> contains a c = true.
Proof.
  rewrite !contains_spec. intros [p1 [q1 ->]] [p2 [q2 ->]].
  exists (p2 ++ p1), (q1 ++ q2). rewrite <- !app_assoc. reflexivity.
Qed.

Lemma ascii_eqb_neq (a b : ascii) : ascii_eqb a b = false <-> a <> b.
Proof. unfold ascii_eqb. apply Ascii.eqb_neq. Qed.

(** Replacing one character by another is a map over the text. *)
Lemma str_replace_char (c d : ascii) (s : text) :
  str_replace [c] [d] 0 s = map (fun x => if ascii_eqb c x then d else x) s.
Proof.
  induction s as [|x s IH]; [reflexivity|].
  cbn [str_replace starts_with length map]. rewrite andb_true_r.
  destruct (ascii_eqb c x); cbn [Nat.sub app]; rewrite IH; reflexivity.
Qed.

Lemma str_replace_skip (old new : text) (k : nat) (s : text) :
  str_replace old new k s = str_replace old new 0 (drop k s).
Proof.
  revert k. induction s as [|x s IH]; intros k.
  - rewrite drop_nil. reflexivity.
  - destruct k as [|k]; [reflexivity|]. cbn [str_replace drop]. apply IH.
Qed.

Lemma str_replace_cons (old new : text) (x : ascii) (s : text) :
  str_replace old new 0 (x :: s) =
  if starts_with old (x :: s)
  then new ++ str_replace old new (length old - 1) s
  else x :: str_replace old new 0 s.
Proof. reflexivity. Qed.

(** A text without the new character at the head of the result was at
    the head of the original. *)
Lemma starts_with_replaced (old : text) (d : ascii) (p s : text) :
  d ∉ p ->
  starts_with p (str_replace old [d] 0 s) = true -> starts_with p s = true.
Proof.
  revert s. induction p as [|a p IH]; intros s Hd; [reflexivity|].
  destruct s as [|x s]; [intros H; exact H|].
  rewrite str_replace_cons. destruct (starts_with old (x :: s)).
  - cbn [app starts_with]. intros H. apply andb_true_iff in H as [Ha _].
    apply ascii_eqb_eq in Ha. subst a. exfalso. apply Hd. left.
  - cbn [starts_with]. intros H. apply andb_true_iff in H as [Ha Hp].
    rewrite Ha. cbn [andb]. apply IH; [|exact Hp].
    intros Hin. apply Hd. right. exact Hin.
Qed.

(** After every occurrence of [old] is replaced by a character that is
    not in [old], no occurrence is left. *)
Lemma str_replace_no_occurrence (old : text) (d : ascii) (s : text) :
  old <> [] -> d ∉ old ->
  contains old (str_replace old [d] 0 s) = false.
Proof.
  intros Hne Hd.
  assert (H : forall n s, length s <= n -> contains old (str_replace old [d] 0 s) = false).
  { clear s. induction n as [|n IH]; intros s Hlen.
    - destruct s; [|simpl in Hlen; lia]. destruct old; [contradiction|reflexivity].
    - destruct s as [|x s].
      + destruct old; [contradiction|reflexivity].
      + simpl in Hlen. rewrite str_replace_cons.
        destruct (starts_with old (x :: s)) eqn:Hs.
        * cbn [app contains]. rewrite str_replace_skip.
          rewrite IH by (rewrite length_drop; lia). rewrite orb_false_r.
          destruct old as [|a old']; [contradiction|]. cbn [starts_with].
          destruct (ascii_eqb a d) eqn:Ha; [|reflexivity].
          apply ascii_eqb_eq in Ha. subst a. exfalso. apply Hd. left.
        * cbn [contains]. rewrite IH by lia. rewrite orb_false_r.
          destruct (starts_with old (x :: str_replace old [d] 0 s)) eqn:Hs'; [|reflexivity].
          rewrite <- Hs. symmetry.
          apply (starts_with_replaced old d old (x :: s) Hd).
          rewrite str_replace_cons, Hs. exact Hs'. }
  apply (H (length s)). reflexivity.
Qed.

Lemma omap_lookup_seq {A : Type} (pre l : list A) :
  omap (fun j => (pre ++ l) !! j) (seq (length pre) (length l)) = l.
Proof.
  revert pre. induction l as [|a l IH]; intros pre; [reflexivity|].
  cbn [length seq]. simpl omap. rewrite list_lookup_middle by reflexivity.
  f_equal. specialize (IH (pre ++ [a])).
  rewrite <- app_assoc, length_app, Nat.add_1_r in IH. exact IH.
Qed.

Lemma length_omap_all {A B : Type} (f : A -> option B) (l : list A) :
  (forall a, a ∈ l -> is_Some (f a)) -> length (omap f l) = length l.
Proof.
  induction l as [|a l IH]; intros H; [reflexivity|]. simpl omap.
  destruct (H a) as [b Hb]; [left|]. rewrite Hb. simpl. f_equal.
  apply IH. intros a' Ha'. apply H. right. exact Ha'.
Qed.

Lemma filter_all {A : Type} (p : A -> bool) (l : list A) :
  (forall a, a ∈ l -> p a = true) -> List.filter p l = l.
Proof.
  induction l as [|a l IH]; intros H; [reflexivity|]. simpl.
  rewrite (H a) by left. f_equal. apply IH. intros a' Ha'. apply H. right. exact Ha'.
Qed.

Lemma elem_of_filter_bool {A : Type} (p : A -> bool) (l : list A) (a : A) :
  a ∈ List.filter p l <-> a ∈ l /\ p a = true.
Proof. rewrite !list_elem_of_In. apply filter_In. Qed.

Lemma existsb_elem_of {A : Type} (p : A -> bool) (l : list A) :
  existsb p l = true <-> exists a, a ∈ l /\ p a = true.
Proof.
  rewrite existsb_exists. split; intros [a [Ha Hp]]; exists a; split; try exact Hp;
    apply list_elem_of_In; exact Ha.
Qed.

End TextFacts.

(** ** The outcome of the selection *)

Module SelectionFacts.
Import Selector SelectorFacts TextFacts.

(** Every match reported for a literal pattern is an occurrence of it. *)
Lemma finditer_sound (p s : text) (pos skip a b : nat) :
  (a, b) ∈ finditer p pos skip s ->
  pos <= a /\ b = a + length p /\ starts_with p (drop (a - pos) s) = true.
Proof.
  revert pos skip. induction s as [|c s IH]; intros pos skip Hin; simpl in Hin.
  - inversion Hin.
  - assert (Hrest : forall k, (a, b) ∈ finditer p (S pos) k s ->
                      pos <= a /\ b = a + length p
                      /\ starts_with p (drop (a - pos) (c :: s)) = true).
    { intros k Hk. destruct (IH _ _ Hk) as [Hle [Hb Hs]].
      split; [lia|]. split; [exact Hb|].
      replace (a - pos) with (S (a - S pos)) by lia. exact Hs. }
    destruct skip as [|k]; [|apply (Hrest k Hin)].
    destruct (starts_with p (c :: s)) eqn:Hp; [|apply (Hrest 0 Hin)].
    apply elem_of_cons in Hin as [Heq|Hin]; [|apply (Hrest _ Hin)].
    injection Heq as -> ->. split; [lia|]. split; [reflexivity|].
    rewrite Nat.sub_diag. exact Hp.
Qed.

Lemma doc_start_index_marker (full_text : text) (a : nat) :
  a ∈ doc_start_indices full_text ->
  10 <= a /\ slice (a - 10) a full_text = doc_start_pattern.
Proof.
  unfold doc_start_indices. intros Ha. apply list_elem_of_fmap in Ha as [[a0 a1] [-> Hin]].
  apply finditer_sound in Hin as [_ [-> Hs]]. simpl snd.
  change (length doc_start_pattern) with 10. split; [lia|].
  unfold slice. replace (a0 + 10 - 10) with a0 by lia.
  replace (a0 + 10 - a0) with 10 by lia. rewrite Nat.sub_0_r in Hs.
  apply (starts_with_take doc_start_pattern), Hs.
Qed.

Lemma doc_end_index_marker (full_text : text) (b : nat) :
  b ∈ doc_end_indices full_text ->
  slice b (b + 11) full_text = doc_end_pattern.
Proof.
  unfold doc_end_indices. intros Hb. apply list_elem_of_fmap in Hb as [[b0 b1] [-> Hin]].
  apply finditer_sound in Hin as [_ [_ Hs]]. simpl fst.
  unfold slice. replace (b0 + 11 - b0) with 11 by lia. rewrite Nat.sub_0_r in Hs.
  apply (starts_with_take doc_end_pattern), Hs.
Qed.

Lemma take_line_prefix (s : text) : exists rest, s = take_line s ++ rest.
Proof.
  induction s as [|c s [rest IH]]; simpl.
  - exists []. reflexivity.
  - destruct (not_newline c).
    + exists rest. simpl. rewrite <- IH. reflexivity.
    + exists (c :: s). reflexivity.
Qed.

Lemma type_search_cons (c : ascii) (s : text) :
  type_search (c :: s) =
  if starts_with type_tag (c :: s)
  then match take_line (drop (length type_tag) (c :: s)) with
       | [] => type_search s
       | v => Some (type_tag ++ v)
       end
  else type_search s.
Proof. reflexivity. Qed.

(** What [type_search] returns is a piece of the text searched: the tag
    and the rest of its line. *)
Lemma type_search_infix (s g : text) :
  type_search s = Some g ->
  contains g s = true /\ starts_with type_tag g = true.
Proof.
  induction s as [|c s IH]; [discriminate|].
  rewrite type_search_cons. intros H.
  assert (Hrest : type_search s = Some g ->
                  contains g (c :: s) = true /\ starts_with type_tag g = true).
  { intros H'. destruct (IH H') as [Hc Hs]. split; [|exact Hs].
    cbn [contains]. rewrite Hc. apply orb_true_r. }
  destruct (starts_with type_tag (c :: s)) eqn:Hp; [|apply Hrest, H].
  destruct (take_line (drop (length type_tag) (c :: s))) as [|v0 v] eqn:Hv; [apply Hrest, H|].
  apply (inj Some) in H. subst g. split; [|apply (starts_with_app type_tag)].
  apply starts_with_spec in Hp as [rest Hrest'].
  destruct (take_line_prefix (drop (length type_tag) (c :: s))) as [post Hpost].
  rewrite Hv in Hpost. rewrite Hrest', drop_app_length in Hpost.
  apply contains_spec. exists [], post. rewrite Hrest', Hpost, <- app_assoc. reflexivity.
Qed.

Lemma qualifies_contains (form_type doc_content : text) :
  qualifies form_type doc_content = true ->
  contains form_type doc_content = true /\ contains type_tag doc_content = true.
Proof.
  unfold qualifies. destruct (type_search doc_content) as [g|] eqn:Hg; [|discriminate].
  intros Hf. apply type_search_infix in Hg as [Hc Hs]. split.
  - apply (contains_trans _ g); assumption.
  - apply (contains_trans _ g); [apply starts_with_contains, Hs|exact Hc].
Qed.

(** X1.  The document found is a piece of the submission text that
    stands between a start marker and an end marker: it begins right
    after [<DOCUMENT>], ends right before [</DOCUMENT>], is not empty and
    holds a type tag and the form asked for. *)
Theorem found_document_between_markers (full_text form_type r : text) :
  select_main_document full_text form_type = Ok (Found r) ->
  exists a b,
    10 <= a /\ a < b
    /\ r = slice a b full_text
    /\ slice (a - 10) a full_text = doc_start_pattern
    /\ slice b (b + 11) full_text = doc_end_pattern
    /\ contains type_tag r = true
    /\ contains form_type r = true.
Proof.
  intros Hsel.
  assert (Hlen : length (doc_start_indices full_text) <= length (doc_end_indices full_text)).
  { destruct (decide (length (doc_start_indices full_text) <= length (doc_end_indices full_text)))
      as [H|H]; [exact H|].
    rewrite select_raises_on_surplus_start in Hsel by lia. discriminate. }
  destruct (select_main_document_longest full_text form_type Hlen)
    as [[Hnone _]|[i [r' [Hsel' [Hreg [Hq _]]]]]].
  - rewrite Hnone in Hsel. discriminate.
  - rewrite Hsel' in Hsel. injection Hsel as ->.
    unfold regions in Hreg. apply lookup_zip_with_Some in Hreg as [a [b [Hr [Ha Hb]]]].
    exists a, b.
    destruct (doc_start_index_marker full_text a) as [Ha10 Hstart];
      [eapply list_elem_of_lookup_2, Ha|].
    assert (Hend := doc_end_index_marker full_text b (list_elem_of_lookup_2 _ _ _ Hb)).
    destruct (qualifies_contains _ _ Hq) as [Hform Htype].
    split; [exact Ha10|]. split.
    + destruct (decide (a < b)) as [Hlt|Hge]; [exact Hlt|].
      apply qualifies_nonempty in Hq. rewrite Hr in Hq.
      unfold slice in Hq. replace (b - a) with 0 in Hq by lia. simpl in Hq. lia.
    + split; [exact Hr|]. split; [exact Hstart|]. split; [exact Hend|].
      split; [exact Htype|exact Hform].
Qed.

Lemma found_document_between_markers_witness :
  let full_text := lit "<DOCUMENT><TYPE>10-K body</DOCUMENT>" in
  Selector.select_main_document full_text (lit "10-K") = Ok (Selector.Found (lit "<TYPE>10-K body"))
  /\ exists a b,
       10 <= a /\ a < b
       /\ lit "<TYPE>10-K body" = slice a b full_text
       /\ slice (a - 10) a full_text = Selector.doc_start_pattern
       /\ slice b (b + 11) full_text = Selector.doc_end_pattern
       /\ contains Selector.type_tag (lit "<TYPE>10-K body") = true
       /\ contains (lit "10-K") (lit "<TYPE>10-K body") = true.
Proof.
  intros full_text.
  assert (H : Selector.select_main_document full_text (lit "10-K")
              = Ok (Selector.Found (lit "<TYPE>10-K body"))) by (vm_compute; reflexivity).
  split; [exact H|].
  apply (found_document_between_markers full_text (lit "10-K") _ H).
Defined.

Lemma select_raises_surplus (full_text form_type : text) (e : exn) :
  select_main_document full_text form_type = Raise e ->
  e = IndexError
  /\ length (doc_end_indices full_text) < length (doc_start_indices full_text).
Proof.
  intros H.
  destruct (decide (length (doc_start_indices full_text)
                    <= length (doc_end_indices full_text))) as [Hle|Hgt].
  - destruct (select_main_document_longest full_text form_type Hle)
      as [[Hn _]|[i [r [Hf _]]]]; congruence.
  - assert (Hlt : length (doc_end_indices full_text)
                  < length (doc_start_indices full_text)) by lia.
    rewrite (select_raises_on_surplus_start _ _ Hlt) in H.
    injection H as <-. split; [reflexivity|exact Hlt].
Qed.

(** X2.  The selection raises exactly when the submission text has more
    start markers than end markers, and what it raises is [IndexError],
    whatever the form and whatever the documents hold. *)
Theorem select_raises_iff_more_starts_than_ends (full_text form_type : text) (e : exn) :
  select_main_document full_text form_type = Raise e
  <-> e = IndexError
      /\ length (doc_end_indices full_text) < length (doc_start_indices full_text).
Proof.
  split; [apply select_raises_surplus|].
  intros [-> Hlt]. apply select_raises_on_surplus_start, Hlt.
Qed.

(** X3.  When the selection returns, the document found is the longest
    region whose type line holds the form, and the first of that length;
    none is found exactly when no region has such a type line. *)
Theorem found_document_is_longest_qualifying_region (full_text form_type : text) :
  (forall r, select_main_document full_text form_type = Ok (Found r) ->
     exists i,
       regions full_text !! i = Some r
       /\ qualifies form_type r = true
       /\ forall j r', regions full_text !! j = Some r' ->
            qualifies form_type r' = true ->
            length r' <= length r /\ (length r' = length r -> i <= j))
  /\ (select_main_document full_text form_type = Ok NotFound
      <-> length (doc_start_indices full_text) <= length (doc_end_indices full_text)
          /\ forall r, r ∈ regions full_text -> qualifies form_type r = false).
Proof.
  destruct (decide (length (doc_start_indices full_text)
                    <= length (doc_end_indices full_text))) as [Hle|Hgt].
  - destruct (select_main_document_longest full_text form_type Hle)
      as [[Hn Hnone]|[i [r [Hf [Hi [Hq Hmax]]]]]].
    + split.
      * intros r Hr. rewrite Hn in Hr. discriminate.
      * split; [intros _; split; assumption|intros _; exact Hn].
    + split.
      * intros r' Hr'. rewrite Hf in Hr'. injection Hr' as <-.
        exists i. split; [exact Hi|]. split; [exact Hq|exact Hmax].
      * split; [rewrite Hf; discriminate|]. intros [_ Hnone].
        rewrite (Hnone r) in Hq; [discriminate|]. eapply list_elem_of_lookup_2, Hi.
  - assert (Hlt : length (doc_end_indices full_text)
                  < length (doc_start_indices full_text)) by lia.
    rewrite (select_raises_on_surplus_start _ _ Hlt).
    split; [discriminate|]. split; [discriminate|]. intros [Hle _]. lia.
Qed.

End SelectionFacts.

(** ** The grids that are kept and their sheets *)

Module GridFacts.
Import Dom Normalizer Tables TextFacts.

Lemma map_cell_at_seq (pre row : list cell) :
  map (cell_at (pre ++ row)) (seq (length pre) (length row)) = row.
Proof.
  revert pre. induction row as [|c row IH]; intros pre; [reflexivity|].
  cbn [length seq map]. unfold cell_at at 1. rewrite list_lookup_middle by reflexivity.
  f_equal. specialize (IH (pre ++ [c])).
  rewrite <- app_assoc, length_app, Nat.add_1_r in IH. exact IH.
Qed.

Lemma kept_columns_lt (df : dataframe) (j : nat) :
  j ∈ kept_columns df -> j < ncols df.
Proof.
  unfold kept_columns. rewrite elem_of_filter_bool. intros [Hj _].
  apply elem_of_seq in Hj. lia.
Qed.

Lemma ncols_dropna_columns (df : dataframe) :
  ncols (dropna_columns df) = length (kept_columns df).
Proof.
  unfold ncols at 1, dropna_columns. cbn [columns]. apply length_omap_all.
  intros j Hj. apply lookup_lt_is_Some. apply kept_columns_lt, Hj.
Qed.

Lemma cell_at_map (row : list cell) (ks : list nat) (p j : nat) :
  ks !! p = Some j -> cell_at (map (cell_at row) ks) p = cell_at row j.
Proof.
  intros H. unfold cell_at at 1.
  change (map (cell_at row) ks) with (cell_at row <$> ks).
  rewrite list_lookup_fmap, H. reflexivity.
Qed.

(** Every row that is kept has a value in one of the columns kept. *)
Lemma trim_row_has_value (df : dataframe) (row : list cell) :
  row ∈ data (trim df) ->
  length row = ncols (trim df)
  /\ exists p, p < ncols (trim df) /\ notna (cell_at row p) = true.
Proof.
  unfold trim. rewrite ncols_dropna_columns. unfold dropna_columns at 1. cbn [data].
  intros Hrow. apply list_elem_of_fmap in Hrow as [r [-> Hr]].
  split; [apply length_map|].
  assert (Hr' := Hr). unfold dropna_rows in Hr'. cbn [data] in Hr'.
  apply elem_of_filter_bool in Hr' as [_ Hex].
  apply existsb_elem_of in Hex as [j [Hj Hn]].
  assert (Hk : j ∈ kept_columns (dropna_rows df)).
  { unfold kept_columns. apply elem_of_filter_bool. split; [exact Hj|].
    apply existsb_elem_of. exists r. split; [exact Hr|exact Hn]. }
  apply list_elem_of_lookup in Hk as [p Hp]. exists p. split.
  - apply lookup_lt_Some in Hp. exact Hp.
  - rewrite (cell_at_map _ _ _ _ Hp). exact Hn.
Qed.

(** Every column that is kept has a value in one of the rows kept. *)
Lemma trim_column_has_value (df : dataframe) (p : nat) :
  p < ncols (trim df) ->
  exists row, row ∈ data (trim df) /\ notna (cell_at row p) = true.
Proof.
  unfold trim. rewrite ncols_dropna_columns. intros Hp.
  apply lookup_lt_is_Some in Hp as [j Hj].
  assert (Hk : j ∈ kept_columns (dropna_rows df)) by (eapply list_elem_of_lookup_2, Hj).
  unfold kept_columns in Hk. apply elem_of_filter_bool in Hk as [_ Hex].
  apply existsb_elem_of in Hex as [r [Hr Hn]].
  exists (map (cell_at r) (kept_columns (dropna_rows df))). split.
  - unfold dropna_columns. cbn [data]. apply list_elem_of_fmap. exists r. split; [reflexivity|exact Hr].
  - rewrite (cell_at_map _ _ _ _ Hj). exact Hn.
Qed.

(** X4.  The two [dropna] calls leave a rectangular grid that is no larger
    than the parsed one, in which no row and no column is empty. *)
Theorem trim_leaves_no_empty_row_or_column (df : dataframe) :
  nrows (trim df) <= nrows df
  /\ ncols (trim df) <= ncols df
  /\ (forall row, row ∈ data (trim df) ->
        length row = ncols (trim df)
        /\ exists p, p < ncols (trim df) /\ notna (cell_at row p) = true)
  /\ (forall p, p < ncols (trim df) ->
        exists row, row ∈ data (trim df) /\ notna (cell_at row p) = true).
Proof.
  split; [|split; [|split]].
  - unfold nrows, trim, dropna_columns, dropna_rows. cbn [data].
    rewrite length_map. apply List.filter_length_le.
  - unfold trim. rewrite ncols_dropna_columns. unfold kept_columns.
    etransitivity; [apply List.filter_length_le|]. rewrite length_seq. reflexivity.
  - apply trim_row_has_value.
  - apply trim_column_has_value.
Qed.

(** X5.  Trimming a trimmed grid changes nothing. *)
Theorem trim_idempotent (df : dataframe) : trim (trim df) = trim df.
Proof.
  set (t := trim df).
  assert (Hrows : dropna_rows t = t).
  { unfold dropna_rows. destruct t as [cols rows] eqn:Ht. cbn [columns data]. f_equal.
    apply filter_all. intros row Hrow.
    destruct (trim_row_has_value df row) as [_ [p [Hp Hn]]].
    { fold t. rewrite Ht. exact Hrow. }
    fold t in Hp. rewrite Ht in Hp.
    apply existsb_elem_of. exists p. split; [|exact Hn].
    apply elem_of_seq. lia. }
  unfold trim at 1. rewrite Hrows.
  assert (Hk : kept_columns t = seq 0 (ncols t)).
  { unfold kept_columns. apply filter_all. intros p Hp. apply elem_of_seq in Hp.
    apply existsb_elem_of. apply (trim_column_has_value df p). fold t. lia. }
  unfold dropna_columns. rewrite Hk. destruct t as [cols rows] eqn:Ht.
  unfold ncols. cbn [columns data]. f_equal.
  - apply (omap_lookup_seq [] cols).
  - transitivity (map id rows); [|apply map_id].
    apply map_ext_in. intros row Hrow. apply list_elem_of_In in Hrow.
    destruct (trim_row_has_value df row) as [Hlen _].
    { fold t. rewrite Ht. exact Hrow. }
    fold t in Hlen. rewrite Ht in Hlen. unfold ncols in Hlen. cbn [columns] in Hlen.
    rewrite <- Hlen. apply (map_cell_at_seq [] row).
Qed.

(** *** The names of the sheets *)




(** *** The markup handed to the table parser *)

(** X7.  Whatever the rendering of the copy, the text handed to the
    table parser has no non-breaking-space entity left in it. *)
Theorem table_html_has_no_nbsp_entity (render : markup -> text) (m : markup) :
  contains (lit "&nbsp;") (table_html render m) = false.
Proof.
  unfold table_html. apply (str_replace_no_occurrence (lit "&nbsp;") " "%char).
  - discriminate.
  - intros H. repeat (apply elem_of_cons in H as [H|H]; [discriminate H|]). inversion H.
Qed.

End GridFacts.

(** ** What the normalizer keeps and what it removes *)

Module MarkupFacts.
Import Dom Normalizer Tables DomFacts NormalizerFacts.

Lemma mtext_replace_colon_f (ms : list markup) :
  concat (flat_map mstrings (map replace_colon ms)) = concat (flat_map mstrings ms).
Proof.
  induction ms as [|v s ms IH|nm ms0 ms IH0 IH] using mforest_ind.
  - reflexivity.
  - cbn [map flat_map replace_colon]. rewrite !concat_app, IH. reflexivity.
  - cbn [map flat_map replace_colon]. rewrite !concat_app, IH. f_equal.
    destruct (has_colon nm).
    + cbn [mstrings concat]. rewrite app_nil_r. reflexivity.
    + cbn [mstrings]. exact IH0.
Qed.

Lemma mstrings_unwrap_wrappers_f (ms : list markup) :
  flat_map mstrings (flat_map unwrap_wrappers ms) = flat_map mstrings ms.
Proof.
  induction ms as [|v s ms IH|nm ms0 ms IH0 IH] using mforest_ind.
  - reflexivity.
  - cbn [flat_map unwrap_wrappers app]. rewrite IH. reflexivity.
  - cbn [flat_map unwrap_wrappers]. rewrite flat_map_app, IH. f_equal.
    destruct (is_wrapper nm).
    + exact IH0.
    + cbn [flat_map mstrings]. rewrite app_nil_r. exact IH0.
Qed.

Lemma mtext_normalize_markup (m : markup) : mtext (normalize_markup m) = mtext m.
Proof.
  destruct m as [v s|nm ms]; [reflexivity|].
  unfold mtext. cbn [normalize_markup mstrings].
  rewrite mstrings_unwrap_wrappers_f. apply mtext_replace_colon_f.
Qed.

(** X8.  The two loops lose no text: [get_text] of the normalized copy is
    [get_text] of the table it was copied from; so is the text of the
    normalizer in the words of the specification. *)
Theorem normalizing_keeps_text (st : store) (table : loc) (t : node) :
  bounded st -> find_store table st = Some t ->
  (exists table_copy st',
     copy_and_normalize table st = Ok (table_copy, st')
     /\ get_text_at table_copy st' = get_text_at table st)
  /\ mtext (normalize_markup (erase t)) = mtext (erase t).
Proof.
  intros Hb Hfind. split; [|apply mtext_normalize_markup].
  destruct (copy_and_normalize_spec st table t Hb Hfind)
    as [st' [c [extra [Hrun [_ [Hf [He _]]]]]]].
  exists (next st), st'. split; [exact Hrun|].
  unfold get_text_at. rewrite Hf, Hfind, !get_text_erase, He.
  apply mtext_normalize_markup.
Qed.

Lemma normalizing_keeps_text_witness :
  let t := Tag 1 "table" [Tag 2 "ix:nonfraction" [Tag 3 "span" [Str 4 true (lit "12")]]] in
  let st := Tables.store_of (Tag 0 "[document]" [t]) in
  bounded st /\ find_store 1 st = Some t
  /\ exists table_copy st',
       copy_and_normalize 1 st = Ok (table_copy, st')
       /\ get_text_at table_copy st' = get_text_at 1 st.
Proof.
  intros t st.
  assert (Hb : bounded st) by apply bounded_store_of.
  assert (Hf : find_store 1 st = Some t) by reflexivity.
  split; [exact Hb|]. split; [exact Hf|].
  apply (proj1 (normalizing_keeps_text st 1 t Hb Hf)).
Defined.

(** X9.  After the two loops the copy has, below its root, no element
    with a colon in its name and no division, span, paragraph or font
    element. *)
Theorem normalized_copy_has_no_inline_or_wrapper_element
    (st : store) (table : loc) (t : node) :
  bounded st -> find_store table st = Some t ->
  exists table_copy st',
    copy_and_normalize table st = Ok (table_copy, st')
    /\ find_all_at has_colon table_copy st' = []
    /\ find_all_at is_wrapper table_copy st' = [].
Proof.
  intros Hb Hfind.
  destruct (copy_and_normalize_spec st table t Hb Hfind)
    as [st' [c [extra [Hrun [_ [Hf [He _]]]]]]].
  exists (next st), st'. split; [exact Hrun|].
  unfold find_all_at. rewrite Hf.
  destruct c as [l v s|l nm cs]; [split; reflexivity|].
  cbn [find_all]. destruct (erase t) as [v' s'|nm' ms]; [discriminate He|].
  cbn [erase normalize_markup] in He. injection He as _ He. fold (erase_f cs) in He.
  split.
  - apply tags_f_nil. rewrite He. apply mtags_unwrap_none, mtags_replace_colon.
  - apply tags_f_nil. rewrite He. apply mtags_unwrap_wrappers.
Qed.

Lemma normalized_copy_has_no_inline_or_wrapper_element_witness :
  let t := Tag 1 "table" [Tag 2 "tr" [Tag 3 "td" [Tag 4 "ix:nonfraction" [Str 5 true (lit "12")]];
                                      Tag 6 "td" [Tag 7 "span" [Str 8 true (lit "13")]]]] in
  let st := Tables.store_of (Tag 0 "[document]" [t]) in
  bounded st /\ find_store 1 st = Some t
  /\ exists table_copy st',
       copy_and_normalize 1 st = Ok (table_copy, st')
       /\ find_all_at has_colon table_copy st' = []
       /\ find_all_at is_wrapper table_copy st' = [].
Proof.
  intros t st.
  assert (Hb : bounded st) by apply bounded_store_of.
  assert (Hf : find_store 1 st = Some t) by reflexivity.
  split; [exact Hb|]. split; [exact Hf|].
  apply (normalized_copy_has_no_inline_or_wrapper_element st 1 t Hb Hf).
Defined.

End MarkupFacts.

(** ** The patterns and the empty section *)

Module SectionFacts.
Import Dom Narrative NarrativeFacts.

Lemma lower_idempotent (c : ascii) : lower (lower c) = lower c.
Proof. destruct c as [[] [] [] [] [] [] [] []]; reflexivity. Qed.

Lemma not_newline_lower (c : ascii) :
  Selector.not_newline (lower c) = Selector.not_newline c.
Proof. destruct c as [[] [] [] [] [] [] [] []]; reflexivity. Qed.

Lemma starts_with_ci_lower (p s : text) :
  starts_with_ci p (map lower s) = starts_with_ci p s.
Proof.
  revert s. induction p as [|a p IH]; intros s; [reflexivity|].
  destruct s as [|b s]; [reflexivity|].
  cbn [map starts_with_ci]. rewrite lower_idempotent, IH. reflexivity.
Qed.

Lemma contains_ci_lower (p s : text) :
  contains_ci p (map lower s) = contains_ci p s.
Proof.
  induction s as [|b s IH].
  - reflexivity.
  - change (map lower (b :: s)) with (lower b :: map lower s).
    cbn [contains_ci]. rewrite IH. f_equal.
    apply (starts_with_ci_lower p (b :: s)).
Qed.

Lemma forallb_not_newline_lower (s : text) :
  forallb Selector.not_newline (map lower s) = forallb Selector.not_newline s.
Proof.
  induction s as [|b s IH]; [reflexivity|].
  cbn [map forallb]. rewrite not_newline_lower, IH. reflexivity.
Qed.

Lemma map_take {A B : Type} (f : A -> B) (k : nat) (l : list A) :
  take k (map f l) = map f (take k l).
Proof. symmetry. apply fmap_take. Qed.

Lemma map_drop {A B : Type} (f : A -> B) (k : nat) (l : list A) :
  drop k (map f l) = map f (drop k l).
Proof. symmetry. apply fmap_drop. Qed.

Lemma gap_then_lower (p rest : text) (k : nat) :
  gap_then p (map lower rest) k = gap_then p rest k.
Proof.
  unfold gap_then.
  rewrite length_map, map_take, forallb_not_newline_lower, map_drop, starts_with_ci_lower.
  reflexivity.
Qed.

Lemma mda_at_lower (s : text) : mda_at (map lower s) = mda_at s.
Proof.
  unfold mda_at. rewrite starts_with_ci_lower, map_drop. cbn [existsb].
  rewrite !gap_then_lower. reflexivity.
Qed.

Lemma mda_search_lower (s : text) : mda_search (map lower s) = mda_search s.
Proof.
  induction s as [|b s IH].
  - reflexivity.
  - change (map lower (b :: s)) with (lower b :: map lower s).
    cbn [mda_search]. rewrite IH. f_equal. apply (mda_at_lower (b :: s)).
Qed.

Lemma stop_search_lower (s : text) : stop_search (map lower s) = stop_search s.
Proof. unfold stop_search. rewrite !contains_ci_lower. reflexivity. Qed.

(** X10.  The two patterns ignore the case of the letters: two texts that
    differ only in the case of their ASCII letters are both matched or
    both not matched, by the pattern of the header as by the pattern of
    the stop headings. *)
Theorem patterns_ignore_case (s s' : text) :
  map lower s = map lower s' ->
  mda_search s = mda_search s' /\ stop_search s = stop_search s'.
Proof.
  intros H. split.
  - rewrite <- (mda_search_lower s), <- (mda_search_lower s'), H. reflexivity.
  - rewrite <- (stop_search_lower s), <- (stop_search_lower s'), H. reflexivity.
Qed.

Lemma patterns_ignore_case_witness :
  let s := lit "ITEM 7. MANAGEMENT'S DISCUSSION AND ANALYSIS" in
  let s' := lit "Item 7. Management's Discussion and Analysis" in
  map lower s = map lower s'
  /\ mda_search s = mda_search s' /\ stop_search s = stop_search s'.
Proof.
  intros s s'.
  assert (H : map lower s = map lower s') by (vm_compute; reflexivity).
  split; [exact H|]. apply (patterns_ignore_case s s' H).
Defined.

Lemma walk_empty_iff (elems : list node) :
  walk elems [] = [] <-> visited elems = [].
Proof.
  rewrite walk_visited. cbn [app]. split.
  - destruct (visited elems) as [|e rest]; [reflexivity|].
    cbn [map concat]. unfold chunk. intros H.
    apply app_eq_nil in H as [H _]. apply app_eq_nil in H as [_ H]. discriminate.
  - intros ->. reflexivity.
Qed.

Lemma visited_empty_iff (elems : list node) :
  visited elems = [] <-> elems = [] \/ exists h rest, elems = h :: rest /\ is_stop h = true.
Proof.
  destruct elems as [|h rest]; cbn [visited].
  - split; [left; reflexivity|reflexivity].
  - destruct (is_stop h) eqn:Hs; split.
    + intros _. right. exists h, rest. split; [reflexivity|exact Hs].
    + reflexivity.
    + discriminate.
    + intros [H|[h' [rest' [H Hs']]]]; [discriminate|].
      injection H as <- <-. congruence.
Qed.

(** X11.  The section is reported as found but empty exactly when there is
    an anchor and the walk appends nothing: no paragraph, division or
    heading follows the anchor, or the first that follows is a stop
    heading.  An element without any text is enough for a file to be
    written, since it adds its two line feeds. *)
Theorem empty_section_iff_nothing_walked (soup : node) :
  mda_section soup = EmptySection
  <-> exists start_tag,
        find_start (potential_headers soup) = Some start_tag
        /\ (find_all_next walk_names start_tag soup = []
            \/ exists h rest,
                 find_all_next walk_names start_tag soup = h :: rest
                 /\ is_stop h = true).
Proof.
  unfold mda_section. destruct (find_start (potential_headers soup)) as [start_tag|].
  - split.
    + intros H. exists start_tag. split; [reflexivity|].
      apply visited_empty_iff, walk_empty_iff.
      destruct (walk (find_all_next walk_names start_tag soup) []); [reflexivity|discriminate].
    + intros [st [Hst H]]. injection Hst as <-.
      apply visited_empty_iff, walk_empty_iff in H. rewrite H. reflexivity.
  - split; [discriminate|]. intros [st [H _]]. discriminate.
Qed.

End SectionFacts.

(** ** What a run leaves behind and what ends it *)

Module RunFacts.
Import Dom Normalizer Narrative Tables Pipeline Artifacts.










Lemma mda_tables_filenames_differ (save_path company : text) (r r' : report) :
  tables_filename save_path company r' <> mda_filename save_path company r.
Proof.
  unfold tables_filename, mda_filename, base_filename. rewrite <- !app_assoc.
  intros H. apply app_inv_head in H. apply app_inv_head in H. apply app_inv_head in H.
  assert (Hl : last (company ++ lit "_" ++ form r' ++ lit "_" ++ date r' ++ lit "_Tables.xlsx")
               = last (company ++ lit "_" ++ form r ++ lit "_" ++ date r ++ lit "_MDA.txt"))
    by (rewrite H; reflexivity).
  rewrite !app_assoc in Hl. rewrite !last_app in Hl. discriminate.
Qed.

Section Filing.

Variable render : markup -> text.
Variable read_html : text -> result (list dataframe).
Variable parse : text -> node.
Variable fetch : text -> option text.
Variable writable : text -> bool.
Variable to_excel : text -> dataframe -> excel_outcome.












(** *** The exceptions that leave a run *)

Lemma extract_mda_raises (soup : node) (path : text) (w : world) (e : exn) :
  fst (_extract_mda_text writable soup path w) = Raise e ->
  e = OSError /\ writable path = false.
Proof.
  unfold _extract_mda_text. destruct (mda_section soup); try discriminate.
  unfold bind, write_text, print. destruct (writable path); [discriminate|].
  simpl. intros H. injection H as <-. split; reflexivity.
Qed.

Lemma download_raises (cik : text) (r : report) (save_path company : text) (w : world) (e : exn) :
  fst (_download_and_parse_report render read_html parse fetch writable to_excel
         cik r save_path company w) = Raise e ->
  stops_at fetch writable cik r save_path company e.
Proof.
  unfold _download_and_parse_report.
  destruct (path_exists (mda_filename save_path company r) w
            && path_exists (tables_filename save_path company r) w); [discriminate|].
  unfold bind at 1. unfold print at 1.
  destruct (fetch (filing_url cik r)) as [full_text|] eqn:Hfetch; [|discriminate].
  destruct (Selector.select_main_document full_text (form r)) as [[|html]|e'] eqn:Hsel;
    [discriminate| |].
  - unfold bind.
    destruct (_extract_mda_text writable (parse html) (mda_filename save_path company r) _)
      as [[[]|e'] w1] eqn:Hmda.
    + intros H.
      rewrite (TableLoopFacts.extract_tables_never_raises render read_html writable to_excel
                 (parse html) (tables_filename save_path company r) w1) in H.
      discriminate.
    + simpl. intros H. injection H as <-. right.
      apply (extract_mda_raises (parse html) (mda_filename save_path company r)
               (mkWorld (files w) (out w ++ [MsgProcessing (form r) (date r)])) e').
      rewrite Hmda. reflexivity.
  - simpl. intros H. injection H as <-. left.
    destruct (SelectionFacts.select_raises_surplus _ _ _ Hsel) as [-> Hlt].
    split; [reflexivity|]. exists full_text. split; [exact Hfetch|exact Hlt].
Qed.

(** X13.  Only two things end a run with an exception: a submission text
    with more start markers than end markers ([IndexError]) and a
    narrative file that cannot be written ([OSError]).  A failed
    download, a table the parser rejects and a workbook that cannot be
    written never do. *)
Theorem run_stops_only_on_markers_or_narrative_file
    (cik : text) (reports : list report) (save_path company : text) (w : world) (e : exn) :
  fst (process_reports render read_html parse fetch writable to_excel
         cik reports save_path company w) = Raise e ->
  exists r, r ∈ reports /\ stops_at fetch writable cik r save_path company e.
Proof.
  revert w. induction reports as [|r reports IH]; intros w; [discriminate|].
  cbn [process_reports]. unfold bind.
  destruct (_download_and_parse_report render read_html parse fetch writable to_excel
              cik r save_path company w) as [[[]|e'] w1] eqn:Hr.
  - intros H. destruct (IH _ H) as [r' [Hr' Hs]]. exists r'. split; [right; exact Hr'|exact Hs].
  - simpl. intros H. injection H as <-. exists r. split; [left|].
    apply (download_raises cik r save_path company w). rewrite Hr. reflexivity.
Qed.

(** *** What the skip test of line 181 sees at the next run *)

Lemma extract_tables_result (soup : node) (path : text) (w : world) :
  exists w',
    _extract_tables_to_excel render read_html writable to_excel soup path w = (Ok tt, w')
    /\ (exists printed, out w' = out w ++ printed)
    /\ (files w' = files w \/ exists a, files w' = (path, a) :: files w).
Proof.
  unfold _extract_tables_to_excel.
  destruct (find_tables soup) as [|table tables] eqn:Htables.
  - eexists. split; [reflexivity|]. split; [eexists; reflexivity|left; reflexivity].
  - destruct (TableLoopFacts.table_loop_spec render read_html (table :: tables)
                (table_elements soup) 0 (mkLoop [] [] (store_of soup))) as [s [Hloop _]].
    { rewrite <- Htables. apply TableLoopFacts.table_elements_found. }
    { apply NormalizerFacts.bounded_store_of. }
    rewrite Hloop. unfold bind, print_all, try_except, write_workbook, print.
    destruct (valid_dfs s) as [|df dfs].
    + eexists. split; [reflexivity|]. cbn [files out]. split; [|left; reflexivity].
      eexists. rewrite <- app_assoc. reflexivity.
    + destruct (writable path).
      * destruct (write_sheets to_excel 0 (df :: dfs)) as [ss [e|]].
        -- eexists. split; [reflexivity|]. cbn [files out].
           split; [|right; eexists; reflexivity].
           eexists. rewrite <- app_assoc. reflexivity.
        -- eexists. split; [reflexivity|]. cbn [files out].
           split; [|right; eexists; reflexivity].
           eexists. rewrite <- app_assoc. reflexivity.
      * eexists. split; [reflexivity|]. cbn [files out]. split; [|left; reflexivity].
        eexists. rewrite <- app_assoc. reflexivity.
Qed.

Lemma extract_mda_no_narrative (soup : node) (path : text) (w : world) :
  (forall t, mda_section soup <> Extracted t) ->
  exists m, _extract_mda_text writable soup path w
            = (Ok tt, mkWorld (files w) (out w ++ [m])).
Proof.
  intros H. unfold _extract_mda_text. destruct (mda_section soup) as [| |t].
  - eexists. reflexivity.
  - eexists. reflexivity.
  - exfalso. apply (H t). reflexivity.
Qed.

Lemma download_no_narrative (cik : text) (r : report) (save_path company : text)
    (w : world) (full_text html : text) :
  path_exists (mda_filename save_path company r) w = false ->
  fetch (filing_url cik r) = Some full_text ->
  Selector.select_main_document full_text (form r) = Ok (Selector.Found html) ->
  (forall t, mda_section (parse html) <> Extracted t) ->
  exists w' printed,
    _download_and_parse_report render read_html parse fetch writable to_excel
      cik r save_path company w = (Ok tt, w')
    /\ out w' = out w ++ MsgProcessing (form r) (date r) :: printed
    /\ path_exists (mda_filename save_path company r) w' = false.
Proof.
  intros Hex Hfetch Hsel Hno. unfold _download_and_parse_report.
  rewrite Hex, Hfetch, Hsel. cbn [andb]. unfold bind at 1. unfold print at 1.
  unfold bind.
  destruct (extract_mda_no_narrative (parse html) (mda_filename save_path company r)
              (mkWorld (files w) (out w ++ [MsgProcessing (form r) (date r)])) Hno)
    as [m Hm].
  rewrite Hm. cbn [files out].
  destruct (extract_tables_result (parse html) (tables_filename save_path company r)
              (mkWorld (files w) ((out w ++ [MsgProcessing (form r) (date r)]) ++ [m])))
    as [w' [Hrun [[printed Hout] Hfiles]]].
  rewrite Hrun. exists w', (m :: printed). split; [reflexivity|]. split.
  - rewrite Hout. cbn [out]. rewrite <- !app_assoc. reflexivity.
  - unfold path_exists in *. cbn [files] in Hfiles.
    destruct Hfiles as [->| [a ->]]; [exact Hex|].
    cbn [existsb fst]. rewrite Hex, orb_false_r.
    apply bool_decide_eq_false. apply mda_tables_filenames_differ.
Qed.

(** X14.  A filing in which no narrative is found is never remembered:
    the skip test asks for both files, the narrative file is not
    written, and so the next run downloads and processes the filing
    again, whatever was written for its tables. *)
Theorem filing_without_narrative_processed_again
    (cik : text) (r : report) (save_path company : text)
    (w : world) (full_text html : text) :
  path_exists (mda_filename save_path company r) w = false ->
  fetch (filing_url cik r) = Some full_text ->
  Selector.select_main_document full_text (form r) = Ok (Selector.Found html) ->
  (forall t, mda_section (parse html) <> Extracted t) ->
  exists w1 w2 printed,
    _download_and_parse_report render read_html parse fetch writable to_excel
      cik r save_path company w = (Ok tt, w1)
    /\ _download_and_parse_report render read_html parse fetch writable to_excel
         cik r save_path company w1 = (Ok tt, w2)
    /\ out w2 = out w1 ++ MsgProcessing (form r) (date r) :: printed.
Proof.
  intros Hex Hfetch Hsel Hno.
  destruct (download_no_narrative cik r save_path company w full_text html
              Hex Hfetch Hsel Hno) as [w1 [p1 [Hrun1 [_ Hex1]]]].
  destruct (download_no_narrative cik r save_path company w1 full_text html
              Hex1 Hfetch Hsel Hno) as [w2 [p2 [Hrun2 [Hout2 _]]]].
  exists w1, w2, p2. split; [exact Hrun1|]. split; [exact Hrun2|exact Hout2].
Qed.

(** X15.  The paths of the two artifacts are made of the form and the
    filing date; the accession number has no part in them.  Two reports
    of the forms that are downloaded have the same paths exactly when
    they have the same form and the same date, and then the second is
    skipped, without a download, once the files of the first are there. *)
Theorem reports_of_same_form_and_date_share_paths
    (save_path company : text) (r1 r2 : report) :
  form r1 ∈ Filings.wanted_forms -> form r2 ∈ Filings.wanted_forms ->
  (mda_filename save_path company r1 = mda_filename save_path company r2
   <-> form r1 = form r2 /\ date r1 = date r2)
  /\ (tables_filename save_path company r1 = tables_filename save_path company r2
      <-> form r1 = form r2 /\ date r1 = date r2)
  /\ (form r1 = form r2 -> date r1 = date r2 ->
      forall cik w,
        path_exists (mda_filename save_path company r1) w
          && path_exists (tables_filename save_path company r1) w = true ->
        _download_and_parse_report render read_html parse fetch writable to_excel
          cik r2 save_path company w
        = (Ok tt, mkWorld (files w) (out w ++ [MsgSkipping (form r2) (date r2)]))).
Proof.
  intros H1 H2.
  assert (Hbase : forall suffix : text,
             base_filename save_path company r1 ++ suffix
             = base_filename save_path company r2 ++ suffix
             -> form r1 = form r2 /\ date r1 = date r2).
  { intros suffix H. unfold base_filename in H. rewrite <- !app_assoc in H.
    do 4 apply app_inv_head in H.
    destruct r1 as [f1 a1 d1], r2 as [f2 a2 d2]. cbn [form date] in *.
    unfold Filings.wanted_forms in H1, H2.
    apply elem_of_cons in H1 as [->|H1]; [|apply list_elem_of_singleton in H1 as ->];
      (apply elem_of_cons in H2 as [->|H2]; [|apply list_elem_of_singleton in H2 as ->]);
      try discriminate H.
    - apply (app_inv_head (lit "10-K" ++ lit "_")) in H.
      apply app_inv_tail in H. split; [reflexivity|exact H].
    - apply (app_inv_head (lit "10-Q" ++ lit "_")) in H.
      apply app_inv_tail in H. split; [reflexivity|exact H]. }
  assert (Hsame : form r1 = form r2 -> date r1 = date r2 ->
                  base_filename save_path company r1 = base_filename save_path company r2).
  { intros Hf Hd. unfold base_filename. rewrite Hf, Hd. reflexivity. }
  split; [|split].
  - split; [apply Hbase|]. intros [Hf Hd]. unfold mda_filename. rewrite (Hsame Hf Hd). reflexivity.
  - split; [apply Hbase|]. intros [Hf Hd]. unfold tables_filename. rewrite (Hsame Hf Hd). reflexivity.
  - intros Hf Hd cik w Hex. unfold _download_and_parse_report.
    unfold mda_filename, tables_filename in *. rewrite <- (Hsame Hf Hd), Hex. reflexivity.
Qed.

End Filing.

(** A call of [to_excel] that raises after its sheet was created: the
    writer saves the workbook with that sheet, without rows, the error
    is printed, not the line of line 166, and the function returns. *)
Example failed_to_excel_leaves_sheet_without_rows :
  let df := mkDataFrame [lit "Year"] [[Some (lit "2023")]; [Some (lit "2024")]] in
  let soup := Tag 0 "[document]" [Tag 1 "table" []] in
  let render := fun _ : markup => lit "<table></table>" in
  let read_html := fun _ : text => Ok [df] in
  let to_excel := fun (_ : text) (_ : dataframe) =>
    Failed OtherError (Some (mkDataFrame [] [])) in
  _extract_tables_to_excel render read_html (fun _ => true) to_excel
    soup (lit "t.xlsx") (mkWorld [] [])
  = (Ok tt, mkWorld [(lit "t.xlsx", Workbook [(lit "Table_1", mkDataFrame [] [])])]
              [MsgExcelError OtherError]).
Proof. vm_compute. reflexivity. Qed.

Lemma run_stops_only_on_markers_or_narrative_file_witness :
  let soup :=
    Tag 0 "[document]"
      [Tag 1 "p" [Str 2 true (lit "Management's Discussion and Analysis")];
       Tag 3 "p" [Str 4 true (lit "Revenue grew.")]] in
  let render := fun _ : markup => lit "<table></table>" in
  let read_html := fun _ : text => Ok ([] : list dataframe) in
  let parse := fun _ : text => soup in
  let fetch := fun _ : text => Some (lit "<DOCUMENT><TYPE>10-K</DOCUMENT>") in
  let writable := fun _ : text => false in
  let to_excel := fun (_ : text) (_ : dataframe) => Written in
  let r1 := mkReport (lit "10-K") (lit "0001-24-000001") (lit "2024-02-01") in
  fst (process_reports render read_html parse fetch writable to_excel (lit "1") [r1]
         (lit "out") (lit "ACME") (mkWorld [] [])) = Raise OSError
  /\ exists r, r ∈ [r1] /\ stops_at fetch writable (lit "1") r (lit "out") (lit "ACME") OSError.
Proof.
  intros soup render read_html parse fetch writable to_excel r1.
  assert (H : fst (process_reports render read_html parse fetch writable to_excel (lit "1") [r1]
                     (lit "out") (lit "ACME") (mkWorld [] [])) = Raise OSError)
    by (vm_compute; reflexivity).
  split; [exact H|].
  apply (run_stops_only_on_markers_or_narrative_file render read_html parse fetch
           writable to_excel (lit "1") [r1] (lit "out") (lit "ACME") (mkWorld [] []) OSError H).
Defined.

Lemma filing_without_narrative_processed_again_witness :
  let soup := Tag 0 "[document]" [Tag 1 "p" [Str 2 true (lit "Revenue grew.")]; Tag 3 "table" []] in
  let df := mkDataFrame [lit "Year"] [[Some (lit "2023")]; [Some (lit "2024")]] in
  let render := fun _ : markup => lit "<table></table>" in
  let read_html := fun _ : text => Ok [df] in
  let parse := fun _ : text => soup in
  let fetch := fun _ : text => Some (lit "<DOCUMENT><TYPE>10-K</DOCUMENT>") in
  let writable := fun _ : text => true in
  let to_excel := fun (_ : text) (_ : dataframe) => Written in
  let r := mkReport (lit "10-K") (lit "0001-24-000001") (lit "2024-02-01") in
  let run := _download_and_parse_report render read_html parse fetch writable to_excel
               (lit "1") r (lit "out") (lit "ACME") in
  exists w1 w2 printed,
    run (mkWorld [] []) = (Ok tt, w1)
    /\ run w1 = (Ok tt, w2)
    /\ out w2 = out w1 ++ MsgProcessing (lit "10-K") (lit "2024-02-01") :: printed.
Proof.
  intros soup df render read_html parse fetch writable to_excel r run.
  apply (filing_without_narrative_processed_again render read_html parse fetch
           writable to_excel (lit "1") r (lit "out") (lit "ACME") (mkWorld [] [])
           (lit "<DOCUMENT><TYPE>10-K</DOCUMENT>") (lit "<TYPE>10-K")).
  - reflexivity.
  - reflexivity.
  - vm_compute. reflexivity.
  - intros t. vm_compute. discriminate.
Defined.

Lemma reports_of_same_form_and_date_share_paths_witness :
  let r1 := mkReport (lit "10-Q") (lit "0001-24-000007") (lit "2024-05-01") in
  let r2 := mkReport (lit "10-Q") (lit "0001-24-000008") (lit "2024-05-01") in
  mda_filename (lit "out") (lit "ACME") r1 = mda_filename (lit "out") (lit "ACME") r2
  <-> form r1 = form r2 /\ date r1 = date r2.
Proof.
  intros r1 r2.
  apply (reports_of_same_form_and_date_share_paths
           (fun _ => []) (fun _ => Ok []) (fun _ => Str 0 true []) (fun _ => None) (fun _ => true)
           (fun _ _ => Written) (lit "out") (lit "ACME") r1 r2).
  - right. left.
  - right. left.
Defined.

End RunFacts.

(** ** Company lookup *)

Module LookupFacts.
Import Lookup TextFacts.

Lemma dict_get_set_eq (k : text) (v : company) (d : cik_map) :
  dict_get k (dict_set k v d) = Some v.
Proof.
  induction d as [|[k' v'] d IH]; cbn [dict_set dict_get].
  - rewrite bool_decide_eq_true_2 by reflexivity. reflexivity.
  - destruct (bool_decide (k' = k)) eqn:Hk; cbn [dict_get].
    + rewrite bool_decide_eq_true_2 by reflexivity. reflexivity.
    + rewrite Hk. exact IH.
Qed.

Lemma dict_get_set_ne (k k' : text) (v : company) (d : cik_map) :
  k <> k' -> dict_get k' (dict_set k v d) = dict_get k' d.
Proof.
  intros Hne. induction d as [|[k0 v0] d IH]; cbn [dict_set dict_get].
  - rewrite bool_decide_eq_false_2 by exact Hne. reflexivity.
  - destruct (bool_decide (k0 = k)) eqn:Hk; cbn [dict_get].
    + apply bool_decide_eq_true in Hk. subst k0.
      rewrite !bool_decide_eq_false_2 by exact Hne. reflexivity.
    + rewrite IH. reflexivity.
Qed.

Lemma dict_set_keys (k : text) (v : company) (d : cik_map) :
  (k ∈ map fst d /\ map fst (dict_set k v d) = map fst d)
  \/ ((k ∉ map fst d) /\ map fst (dict_set k v d) = map fst d ++ [k]).
Proof.
  induction d as [|[k' v'] d IH]; cbn [dict_set map fst].
  - right. split; [intros H; inversion H|reflexivity].
  - destruct (bool_decide (k' = k)) eqn:Hk.
    + apply bool_decide_eq_true in Hk. subst k'. left. split; [left|reflexivity].
    + apply bool_decide_eq_false in Hk. cbn [map fst].
      destruct IH as [[Hin Heq]|[Hnin Heq]].
      * left. split; [right; exact Hin|]. rewrite Heq. reflexivity.
      * right. split.
        -- intros Hin. apply elem_of_cons in Hin as [->|Hin]; [apply Hk; reflexivity|].
           apply Hnin, Hin.
        -- rewrite Heq. reflexivity.
Qed.

Lemma dict_set_NoDup (k : text) (v : company) (d : cik_map) :
  NoDup (map fst d) -> NoDup (map fst (dict_set k v d)).
Proof.
  intros Hnd. destruct (dict_set_keys k v d) as [[_ ->]|[Hnin ->]]; [exact Hnd|].
  apply NoDup_app. split; [exact Hnd|]. split.
  - intros x Hx Hx'. apply list_elem_of_singleton in Hx'. subst x. apply Hnin, Hx.
  - apply NoDup_singleton.
Qed.

Lemma dict_set_length (k : text) (v : company) (d : cik_map) :
  length (dict_set k v d) <= S (length d).
Proof.
  rewrite <- (length_map fst (dict_set k v d)), <- (length_map fst d).
  destruct (dict_set_keys k v d) as [[_ ->]|[_ ->]]; [lia|].
  rewrite length_app. simpl. lia.
Qed.

Lemma dict_get_elem_of (k : text) (v : company) (d : cik_map) :
  NoDup (map fst d) -> (k, v) ∈ d -> dict_get k d = Some v.
Proof.
  induction d as [|[k' v'] d IH]; intros Hnd Hin; [inversion Hin|].
  cbn [map fst] in Hnd. apply NoDup_cons in Hnd as [Hk' Hnd]. cbn [dict_get].
  apply elem_of_cons in Hin as [Heq|Hin].
  - injection Heq as -> ->. rewrite bool_decide_eq_true_2 by reflexivity. reflexivity.
  - destruct (bool_decide (k' = k)) eqn:Hk; [|apply IH; assumption].
    apply bool_decide_eq_true in Hk. subst k'. exfalso. apply Hk'.
    apply list_elem_of_fmap. exists (k, v). split; [reflexivity|exact Hin].
Qed.

Section Upper.

Variable upper : text -> text.

Lemma build_cik_map_from (cs : list ticker) (d : cik_map) :
  NoDup (map fst d) ->
  let d' := fold_left (fun d c => dict_set (upper (ticker_title c)) (entry_of c) d) cs d in
  NoDup (map fst d')
  /\ length d' <= length d + length cs
  /\ forall k, (forall c, c ∈ cs -> upper (ticker_title c) <> k) -> dict_get k d' = dict_get k d.
Proof.
  revert d. induction cs as [|c cs IH]; intros d Hnd; cbn [fold_left].
  - split; [exact Hnd|]. split; [lia|]. reflexivity.
  - destruct (IH (dict_set (upper (ticker_title c)) (entry_of c) d)) as [Hnd' [Hlen Hget]].
    { apply dict_set_NoDup, Hnd. }
    split; [exact Hnd'|]. split.
    + etransitivity; [exact Hlen|].
      assert (H := dict_set_length (upper (ticker_title c)) (entry_of c) d). simpl. lia.
    + intros k Hk. rewrite Hget.
      * apply dict_get_set_ne. apply Hk. left.
      * intros c' Hc'. apply Hk. right. exact Hc'.
Qed.

(** X16.  The map has one entry for each upper-cased title.  Of the
    companies whose titles differ at most in case, it is the last of the
    response that the map holds; the number of entries, which is the
    number printed, is at most the number of companies. *)
Theorem cik_map_last_title_wins (pre post : list ticker) (c : ticker) :
  (forall c', c' ∈ post -> upper (ticker_title c') <> upper (ticker_title c)) ->
  let d := build_cik_map upper (pre ++ c :: post) in
  dict_get (upper (ticker_title c)) d
    = Some (mkCompany (decimal (cik_str c)) (ticker_title c))
  /\ (forall v, (upper (ticker_title c), v) ∈ d ->
        v = mkCompany (decimal (cik_str c)) (ticker_title c))
  /\ NoDup (map fst d)
  /\ length d <= length (pre ++ c :: post).
Proof.
  intros Hpost d.
  assert (Hget : dict_get (upper (ticker_title c)) d = Some (entry_of c)).
  { unfold d, build_cik_map. rewrite fold_left_app. cbn [fold_left].
    set (d0 := fold_left (fun d c => dict_set (upper (ticker_title c)) (entry_of c) d) pre []).
    destruct (build_cik_map_from post (dict_set (upper (ticker_title c)) (entry_of c) d0))
      as [_ [_ Hkeep]].
    { apply dict_set_NoDup. unfold d0.
      apply (build_cik_map_from pre []). constructor. }
    fold (entry_of c). rewrite (Hkeep _ Hpost). apply dict_get_set_eq. }
  destruct (build_cik_map_from (pre ++ c :: post) []) as [Hnd [Hlen _]]; [constructor|].
  fold (build_cik_map upper (pre ++ c :: post)) in Hnd, Hlen. fold d in Hnd, Hlen.
  split; [exact Hget|]. split; [|split; [exact Hnd|exact Hlen]].
  intros v Hv. apply (dict_get_elem_of _ _ _ Hnd) in Hv. rewrite Hget in Hv.
  injection Hv as <-. reflexivity.
Qed.

(** The entries of the map that a search term selects. *)
Lemma matches_filter (search_term : text) (d : cik_map) :
  matches search_term d
  = map snd (List.filter (fun e => contains search_term (fst e)) d).
Proof. reflexivity. Qed.

(** X17.  A company is returned only when its key is the only key of the
    map in which the upper-cased search term occurs. *)
Theorem get_cik_returns_only_unique_match
    (m : option cik_map) (company_name t c : text) :
  fst (get_cik upper m company_name) = Some (t, c) ->
  exists d k found,
    m = Some d
    /\ (k, found) ∈ d
    /\ contains (upper company_name) k = true
    /\ t = title found /\ c = cik found
    /\ forall e, e ∈ d -> contains (upper company_name) (fst e) = true -> e = (k, found).
Proof.
  destruct m as [d|]; [|discriminate]. unfold get_cik.
  destruct d as [|e0 d0]; [discriminate|].
  set (d := e0 :: d0). rewrite matches_filter.
  destruct (List.filter (fun e => contains (upper company_name) (fst e)) d)
    as [|[k found] [|e2 es]] eqn:Hf; cbn [map]; try discriminate.
  cbn [fst snd]. intros H. injection H as <- <-.
  exists d, k, found. split; [reflexivity|].
  assert (Hin : (k, found) ∈ List.filter (fun e => contains (upper company_name) (fst e)) d)
    by (rewrite Hf; left).
  apply elem_of_filter_bool in Hin as [Hin Hc].
  split; [exact Hin|]. split; [exact Hc|]. split; [reflexivity|]. split; [reflexivity|].
  intros e He Hce.
  assert (He' : e ∈ List.filter (fun e => contains (upper company_name) (fst e)) d)
    by (apply elem_of_filter_bool; split; assumption).
  rewrite Hf in He'. apply list_elem_of_singleton in He'. exact He'.
Qed.

(** X18.  A company whose key occurs inside the key of another company is
    out of reach: every search term that selects it selects the other
    one too, and nothing is returned. *)
Theorem company_inside_longer_title_not_found
    (d : cik_map) (k1 k2 : text) (c1 c2 : company) (company_name : text) :
  (k1, c1) ∈ d -> (k2, c2) ∈ d -> k1 <> k2 ->
  contains k1 k2 = true ->
  contains (upper company_name) k1 = true ->
  fst (get_cik upper (Some d) company_name) = None.
Proof.
  intros H1 H2 Hne H12 Hc1.
  assert (Hc2 : contains (upper company_name) k2 = true)
    by (apply (contains_trans _ k1); assumption).
  unfold get_cik. destruct d as [|e0 d0]; [reflexivity|].
  set (d := e0 :: d0) in *. rewrite matches_filter.
  assert (Hf1 : (k1, c1) ∈ List.filter (fun e => contains (upper company_name) (fst e)) d)
    by (apply elem_of_filter_bool; split; assumption).
  assert (Hf2 : (k2, c2) ∈ List.filter (fun e => contains (upper company_name) (fst e)) d)
    by (apply elem_of_filter_bool; split; assumption).
  destruct (List.filter (fun e => contains (upper company_name) (fst e)) d)
    as [|a [|b l]]; cbn [map]; [reflexivity| |reflexivity].
  apply list_elem_of_singleton in Hf1, Hf2. subst a. injection Hf2 as Hk _.
  exfalso. apply Hne. symmetry. exact Hk.
Qed.

End Upper.

Lemma cik_map_last_title_wins_witness :
  let upper := (fun s : text =>
       map (fun c => let n := nat_of_ascii c in
                     if (97 <=? n) && (n <=? 122) then ascii_of_nat (n - 32) else c) s) in
  let c1 := mkTicker 1 (lit "Acme Corp") in
  let c2 := mkTicker 2 (lit "ACME CORP") in
  let c3 := mkTicker 3 (lit "Other Inc") in
  let d := build_cik_map upper ([c1] ++ c2 :: [c3]) in
  dict_get (lit "ACME CORP") d = Some (mkCompany (lit "2") (lit "ACME CORP"))
  /\ length d = 2.
Proof.
  intros upper c1 c2 c3 d.
  destruct (cik_map_last_title_wins upper [c1] [c3] c2) as [H _].
  - intros c' Hc'. apply list_elem_of_singleton in Hc'. subst c'. vm_compute. discriminate.
  - split; [exact H|reflexivity].
Defined.

Lemma get_cik_returns_only_unique_match_witness :
  let upper := (fun s : text =>
       map (fun c => let n := nat_of_ascii c in
                     if (97 <=? n) && (n <=? 122) then ascii_of_nat (n - 32) else c) s) in
  let d := [(lit "ACME CORP", mkCompany (lit "2") (lit "Acme Corp"));
            (lit "OTHER INC", mkCompany (lit "3") (lit "Other Inc"))] in
  fst (get_cik upper (Some d) (lit "acme")) = Some (lit "Acme Corp", lit "2")
  /\ exists d' k found,
       Some d = Some d' /\ (k, found) ∈ d'
       /\ contains (upper (lit "acme")) k = true
       /\ lit "Acme Corp" = title found /\ lit "2" = cik found
       /\ forall e, e ∈ d' -> contains (upper (lit "acme")) (fst e) = true -> e = (k, found).
Proof.
  intros upper d.
  assert (H : fst (get_cik upper (Some d) (lit "acme")) = Some (lit "Acme Corp", lit "2"))
    by (vm_compute; reflexivity).
  split; [exact H|].
  apply (get_cik_returns_only_unique_match upper (Some d) (lit "acme") _ _ H).
Defined.

Lemma company_inside_longer_title_not_found_witness :
  let upper := (fun s : text =>
       map (fun c => let n := nat_of_ascii c in
                     if (97 <=? n) && (n <=? 122) then ascii_of_nat (n - 32) else c) s) in
  let c1 := mkCompany (lit "1") (lit "Acme") in
  let c2 := mkCompany (lit "2") (lit "Acme Holdings") in
  let d := [(lit "ACME", c1); (lit "ACME HOLDINGS", c2)] in
  fst (get_cik upper (Some d) (lit "Acme")) = None.
Proof.
  intros upper c1 c2 d.
  apply (company_inside_longer_title_not_found upper d
           (lit "ACME") (lit "ACME HOLDINGS") c1 c2 (lit "Acme")).
  - left.
  - right. left.
  - discriminate.
  - vm_compute. reflexivity.
  - vm_compute. reflexivity.
Defined.

End LookupFacts.

(** ** The list of filings *)

Module FilingsFacts.
Import Pipeline Filings TextFacts.

Lemma reports_from_zip (i : nat) (fs : list text) (r : recent) (accs ds : list text) :
  accessionNumber r = Some accs -> filingDate r = Some ds ->
  length fs + i <= length accs -> length fs + i <= length ds ->
  reports_from i fs r
  = inr (map (fun x => mkReport x.1 x.2.1 x.2.2)
           (List.filter (fun x => bool_decide (x.1 ∈ wanted_forms))
              (zip fs (zip (drop i accs) (drop i ds))))).
Proof.
  intros Ha Hd. revert i. induction fs as [|f fs IH]; intros i Hla Hld; [reflexivity|].
  cbn [length] in Hla, Hld.
  destruct (lookup_lt_is_Some_2 accs i) as [acc Hacc]; [lia|].
  destruct (lookup_lt_is_Some_2 ds i) as [d Hdt]; [lia|].
  rewrite (drop_S _ _ _ Hacc), (drop_S _ _ _ Hdt).
  cbn [reports_from zip zip_with List.filter fst].
  rewrite Ha, Hd, Hacc, Hdt, (IH (S i)) by lia.
  destruct (bool_decide (f ∈ wanted_forms)); reflexivity.
Qed.

(** X19.  When the three lists of the response are of one length (or the
    two others are longer than the list of forms), the reports to
    download are the entries whose form is exactly 10-K or 10-Q, in the
    order of the response, each with the accession number and the date
    at its own index. *)
Theorem reports_to_download_are_wanted_entries (r : recent) (fs accs ds : list text) :
  forms r = Some fs -> accessionNumber r = Some accs -> filingDate r = Some ds ->
  length fs <= length accs -> length fs <= length ds ->
  reports_to_download r
  = inr (map (fun x => mkReport x.1 x.2.1 x.2.2)
           (List.filter (fun x => bool_decide (x.1 ∈ wanted_forms))
              (zip fs (zip accs ds)))).
Proof.
  intros Hf Ha Hd Hla Hld. unfold reports_to_download. rewrite Hf.
  rewrite (reports_from_zip 0 fs r accs ds Ha Hd) by lia. reflexivity.
Qed.

Lemma reports_to_download_are_wanted_entries_witness :
  let r := mkRecent (Some [lit "10-K"; lit "8-K"; lit "10-K/A"; lit "10-Q"])
             (Some [lit "a1"; lit "a2"; lit "a3"; lit "a4"])
             (Some [lit "d1"; lit "d2"; lit "d3"; lit "d4"]) in
  reports_to_download r
  = inr [mkReport (lit "10-K") (lit "a1") (lit "d1"); mkReport (lit "10-Q") (lit "a4") (lit "d4")].
Proof.
  intros r.
  rewrite (reports_to_download_are_wanted_entries r
             [lit "10-K"; lit "8-K"; lit "10-K/A"; lit "10-Q"]
             [lit "a1"; lit "a2"; lit "a3"; lit "a4"]
             [lit "d1"; lit "d2"; lit "d3"; lit "d4"]
             eq_refl eq_refl eq_refl (le_n 4) (le_n 4)).
  vm_compute. reflexivity.
Defined.

Lemma reports_from_failure (i : nat) (fs : list text) (r : recent) (e : lookup_error) :
  reports_from i fs r = inl e ->
  exists j f,
    fs !! j = Some f /\ f ∈ wanted_forms
    /\ match e with
       | KeyError key =>
           (key = "accessionNumber"%string /\ accessionNumber r = None)
           \/ (key = "filingDate"%string /\ filingDate r = None)
       | ListIndexError =>
           (exists accs, accessionNumber r = Some accs /\ length accs <= i + j)
           \/ (exists dates, filingDate r = Some dates /\ length dates <= i + j)
       end.
Proof.
  revert i. induction fs as [|f fs IH]; intros i; [discriminate|].
  cbn [reports_from].
  assert (Hrest : reports_from (S i) fs r = inl e ->
            exists j f0, (f :: fs) !! j = Some f0 /\ f0 ∈ wanted_forms
              /\ match e with
                 | KeyError key =>
                     (key = "accessionNumber"%string /\ accessionNumber r = None)
                     \/ (key = "filingDate"%string /\ filingDate r = None)
                 | ListIndexError =>
                     (exists accs, accessionNumber r = Some accs /\ length accs <= i + j)
                     \/ (exists dates, filingDate r = Some dates /\ length dates <= i + j)
                 end).
  { intros H. destruct (IH _ H) as [j [f0 [Hj [Hw He]]]]. exists (S j), f0.
    split; [exact Hj|]. split; [exact Hw|].
    destruct e; [exact He|]. replace (i + S j) with (S i + j) by lia. exact He. }
  destruct (bool_decide (f ∈ wanted_forms)) eqn:Hw; [|exact Hrest].
  apply bool_decide_eq_true in Hw.
  destruct (accessionNumber r) as [accs|] eqn:Ha.
  - destruct (accs !! i) as [acc|] eqn:Hacc.
    + destruct (filingDate r) as [dates|] eqn:Hd.
      * destruct (dates !! i) as [d|] eqn:Hdt.
        -- destruct (reports_from (S i) fs r) as [e'|rs] eqn:Hr; [|discriminate].
           intros H. injection H as <-. apply Hrest. reflexivity.
        -- intros H. injection H as <-. exists 0, f. split; [reflexivity|]. split; [exact Hw|].
           right. exists dates. split; [reflexivity|].
           apply lookup_ge_None in Hdt. lia.
      * intros H. injection H as <-. exists 0, f. split; [reflexivity|]. split; [exact Hw|].
        right. split; reflexivity.
    + intros H. injection H as <-. exists 0, f. split; [reflexivity|]. split; [exact Hw|].
      left. exists accs. split; [reflexivity|]. apply lookup_ge_None in Hacc. lia.
  - intros H. injection H as <-. exists 0, f. split; [reflexivity|]. split; [exact Hw|].
    left. split; reflexivity.
Qed.

(** X20.  The loop of lines 81-87 fails only at an entry whose form is
    10-K or 10-Q: with a [KeyError] when the response has no list of
    accession numbers or no list of dates, with an [IndexError] when one
    of the two lists ends before the index of that entry. *)
Theorem reports_to_download_fails_only_at_wanted_form (r : recent) (e : lookup_error) :
  reports_to_download r = inl e ->
  exists fs j f,
    forms r = Some fs /\ fs !! j = Some f /\ f ∈ wanted_forms
    /\ match e with
       | KeyError key =>
           (key = "accessionNumber"%string /\ accessionNumber r = None)
           \/ (key = "filingDate"%string /\ filingDate r = None)
       | ListIndexError =>
           (exists accs, accessionNumber r = Some accs /\ length accs <= j)
           \/ (exists dates, filingDate r = Some dates /\ length dates <= j)
       end.
Proof.
  unfold reports_to_download. destruct (forms r) as [fs|]; [|discriminate].
  intros H. destruct (reports_from_failure 0 fs r e H) as [j [f [Hj [Hw He]]]].
  exists fs, j, f. split; [reflexivity|]. split; [exact Hj|]. split; [exact Hw|exact He].
Qed.

Lemma reports_to_download_fails_only_at_wanted_form_witness :
  let r := mkRecent (Some [lit "8-K"; lit "10-K"]) (Some [lit "a1"])
             (Some [lit "d1"; lit "d2"]) in
  reports_to_download r = inl ListIndexError
  /\ exists fs j f,
       forms r = Some fs /\ fs !! j = Some f /\ f ∈ wanted_forms
       /\ ((exists accs, accessionNumber r = Some accs /\ length accs <= j)
           \/ (exists dates, filingDate r = Some dates /\ length dates <= j)).
Proof.
  intros r.
  assert (H : reports_to_download r = inl ListIndexError) by (vm_compute; reflexivity).
  split; [exact H|].
  apply (reports_to_download_fails_only_at_wanted_form r ListIndexError H).
Defined.

(** *** The name of the folder *)

Lemma safe_company_name_map (company_name : text) :
  safe_company_name company_name
  = map (fun x => if ascii_eqb " " x then "_"%char else x)
      (List.filter (fun c => negb (bool_decide (c ∈ removed_chars))) company_name).
Proof. unfold safe_company_name. apply (str_replace_char " " "_"). Qed.

Lemma safe_company_name_chars (company_name : text) (c : ascii) :
  c ∈ safe_company_name company_name -> (c ∉ removed_chars) /\ c <> " "%char.
Proof.
  rewrite safe_company_name_map. intros Hc.
  apply list_elem_of_fmap in Hc as [x [-> Hx]].
  apply elem_of_filter_bool in Hx as [_ Hx]. apply negb_true_iff, bool_decide_eq_false in Hx.
  destruct (ascii_eqb " " x) eqn:Hsp.
  - split; [|discriminate]. intros H.
    repeat (apply elem_of_cons in H as [H|H]; [discriminate H|]). inversion H.
  - split; [exact Hx|]. apply ascii_eqb_neq in Hsp. intros ->. apply Hsp. reflexivity.
Qed.

(** X21.  The folder name has none of the nine characters of the class of
    line 74 and no space; it is never longer than the company name, and
    a name that is already safe is left as it is. *)
Theorem safe_company_name_is_clean (company_name : text) :
  (forall c, c ∈ safe_company_name company_name -> (c ∉ removed_chars) /\ c <> " "%char)
  /\ length (safe_company_name company_name) <= length company_name
  /\ safe_company_name (safe_company_name company_name) = safe_company_name company_name.
Proof.
  split; [apply safe_company_name_chars|]. split.
  - rewrite safe_company_name_map, length_map. apply List.filter_length_le.
  - rewrite (safe_company_name_map (safe_company_name company_name)).
    rewrite filter_all.
    + transitivity (map id (safe_company_name company_name)); [|apply map_id].
      apply map_ext_in. intros x Hx. apply list_elem_of_In in Hx.
      apply safe_company_name_chars in Hx as [_ Hx].
      destruct (ascii_eqb " " x) eqn:Hsp; [|reflexivity].
      apply ascii_eqb_eq in Hsp. subst x. contradiction.
    + intros x Hx. apply safe_company_name_chars in Hx as [Hx _].
      apply negb_true_iff, bool_decide_eq_false. exact Hx.
Qed.

(** *** The padded identifier *)

Lemma string_of_uint_no_sign (d : Decimal.uint) (c : ascii) :
  c ∈ list_ascii_of_string (NilEmpty.string_of_uint d) -> is_sign c = false.
Proof.
  induction d as [|d IH|d IH|d IH|d IH|d IH|d IH|d IH|d IH|d IH|d IH];
    cbn [NilEmpty.string_of_uint list_ascii_of_string]; intros H;
    [inversion H|..];
    (apply elem_of_cons in H as [->|H]; [reflexivity|apply IH, H]).
Qed.

Lemma zfill_length (width : nat) (s : text) : length (zfill width s) = max width (length s).
Proof.
  unfold zfill. destruct (Nat.leb_spec width (length s)) as [Hle|Hlt]; [lia|].
  destruct s as [|c rest].
  - rewrite repeat_length. simpl. lia.
  - destruct (is_sign c); cbn [length]; rewrite length_app, repeat_length; simpl in *; lia.
Qed.

(** X22.  The identifier of the request has at least 10 characters and is
    never cut.  For an identifier of the map, the decimal digits of a
    number, it is those digits after as many zeros as are missing to
    10. *)
Theorem padded_cik_pads_with_zeros (n : nat) :
  padded_cik (decimal n) = repeat "0"%char (10 - length (decimal n)) ++ decimal n
  /\ forall cik, length (padded_cik cik) = max 10 (length cik).
Proof.
  split; [|intros cik; apply zfill_length].
  unfold padded_cik, zfill.
  destruct (Nat.leb_spec 10 (length (decimal n))) as [Hle|Hlt].
  - replace (10 - length (decimal n)) with 0 by lia. reflexivity.
  - destruct (decimal n) as [|c rest] eqn:Hd; [rewrite app_nil_r; reflexivity|].
    rewrite (string_of_uint_no_sign (Nat.to_uint n) c); [reflexivity|].
    fold (decimal n). rewrite Hd. left.
Qed.

End FilingsFacts.
